(** * The job registry and shared operations of the build-graph solver

    A shallow embedding of [solver/jobs.go] (BuildKit's solver as vendored
    by moby): the single-flight wrapper [sharedOp] around an [Op], the
    registry of active vertex states kept by [Solver], the edge-merge
    protocol, reference-counted teardown, and the per-job value store.

    Conventions of the embedding.
    - Go pointers to heap objects that are compared or shared ([*Job],
      [*edge], the [*state] held in [Solver.actives]) are addresses or map
      keys; the objects live in explicit stores.
    - A function that can panic (nil dereference, index out of range),
      block on a mutex its own goroutine holds, or loop without bound
      returns an [outcome]; loops and recursions that Go does not bound
      take fuel.
    - Collaborators whose code is outside [jobs.go] ([Op], the scheduler,
      contexts, error wrapping) are parameters. *)

From stdpp Require Import gmap strings list fin_maps pretty.

(** ** Outcomes of a call *)

Inductive outcome (A : Type) : Type :=
| Done (a : A)      (* the call returned *)
| Panic             (* a Go runtime panic *)
| Deadlock          (* the goroutine locks a mutex it already holds *)
| OutOfFuel.        (* the fuel of the model ran out *)
Arguments Done {A} a.
Arguments Panic {A}.
Arguments Deadlock {A}.
Arguments OutOfFuel {A}.

Definition obind {A B : Type} (m : outcome A) (k : A → outcome B) : outcome B :=
  match m with
  | Done a => k a
  | Panic => Panic
  | Deadlock => Deadlock
  | OutOfFuel => OutOfFuel
  end.

Notation "'do' x <- m ; k" := (obind m (fun x => k))
  (at level 10, x pattern, m at level 100, k at level 200).

(** ** sharedOp: single-flight execution of one vertex's operation *)

Module SharedOp.

(** The collaborators of [sharedOp].  [World] is everything outside the
    solver that a call into an [Op] can read or change: the op's own state,
    the resources it holds, and the cancellation status of contexts. *)
Class Collab := {
  Result : Type;
  SharedResult : Type;
  ExportableCacheKey : Type;
  CacheMap : Type;
  Error : Type;
  Ctx : Type;
  World : Type;
  (* NewSharedResult(r) and the Clone method of SharedResult *)
  NewSharedResult : Result → SharedResult;
  Clone : SharedResult → Result;
  (* select { case <-ctx.Done(): ... default: } *)
  ctxDone : Ctx → World → bool;
  (* errdefs.IsCanceled(ctx, err): the error carries the cancelled marker *)
  IsCanceled : Ctx → World → Error → bool;
  (* errors.Wrap(context.Cause(ctx), err.Error()) *)
  wrapCause : Ctx → World → Error → Error;
  (* errors.Wrap(err, "acquire op resources") *)
  wrapAcquire : Error → Error;
  (* errdefs.WrapVertex(errdefs.WithOp(err, sys, desc), origDigest), err non-nil *)
  wrapOpVertex : Error → Error;
  (* progress.WithProgress, trace.ContextWithSpan, withAncestorCacheOpts, StartSpan *)
  stateCtx : Ctx → Ctx;
  (* res.Opts[progressKey{}] = &controller.Controller{...} *)
  withProgressOpt : Ctx → CacheMap → CacheMap;
  (* len(s.st.vtx.Inputs()) of the state the sharedOp belongs to *)
  numInputs : nat;
  (* The Op interface.  Op_Exec also reports the cache keys of the sub-builds
     the op ran through its Builder during the call: subBuilder.Build appends
     them to subBuilder.exporters.  Op_release is the release function that
     Acquire returned. *)
  Op : Type;
  Op_CacheMap : Op → Ctx → nat → World →
                (option CacheMap * bool * option Error) * World;
  Op_Exec : Op → Ctx → list Result → World →
            (option (list Result) * option Error * list ExportableCacheKey) * World;
  Op_Acquire : Op → Ctx → World → option Error * World;
  Op_release : Op → World → World;
  (* ResolveOpFunc applied to the state's vertex and sub-builder *)
  resolver : World → (option Op * option Error) * World;
}.

Section Model.
Context `{Collab}.

Record execRes := {
  execRes_execRes : list SharedResult;
  execExporters : list ExportableCacheKey;
}.

Record sharedOp := {
  opOnce : bool;                                   (* opOnce has fired *)
  op : option Op;
  subBuilder_exporters : list ExportableCacheKey;  (* s.subBuilder.exporters *)
  err : option Error;
  so_execRes : option execRes;
  execDone : bool;
  execErr : option Error;
  cacheRes : list CacheMap;                        (* nil is the empty list *)
  cacheDone : bool;
  cacheErr : option Error;
}.

Definition newSharedOp : sharedOp :=
  {| opOnce := false; op := None; subBuilder_exporters := []; err := None;
     so_execRes := None; execDone := false; execErr := None;
     cacheRes := []; cacheDone := false; cacheErr := None |}.

(** What a call does outside the sharedOp, in order. *)
Inductive Event :=
| EvResolve
| EvAcquire
| EvRelease
| EvOpExec (inputs : list Result) (e : option Error)
| EvOpCacheMap (index : nat) (e : option Error)
| EvReleaseError (e : Error)
| EvNotifyStarted
| EvNotifyCompleted (e : option Error).

Record Machine := {
  so : sharedOp;
  world : World;
  trace : list Event;
}.

Definition emit (e : Event) (m : Machine) : Machine :=
  {| so := so m; world := world m; trace := trace m ++ [e] |}.

Definition setWorld (w : World) (m : Machine) : Machine :=
  {| so := so m; world := w; trace := trace m |}.

Definition setSo (s : sharedOp) (m : Machine) : Machine :=
  {| so := s; world := world m; trace := trace m |}.

Definition wrapShared (inp : list Result) : list SharedResult :=
  map NewSharedResult inp.

Definition unwrapShared (inp : list SharedResult) : list Result :=
  map Clone inp.

(** [getOp]: the resolver runs once; its op and error are kept. *)
Definition getOp (m : Machine) : (option Op * option Error) * Machine :=
  let m1 :=
    if opOnce (so m) then m
    else
      let '((o, e), w) := resolver (world m) in
      let s := so m in
      emit EvResolve (setWorld w (setSo
        {| opOnce := true; op := o; subBuilder_exporters := [];
           err := e; so_execRes := so_execRes s; execDone := execDone s;
           execErr := execErr s; cacheRes := cacheRes s;
           cacheDone := cacheDone s; cacheErr := cacheErr s |} m)) in
  match err (so m1) with
  | Some e => ((None, Some e), m1)
  | None => ((op (so m1), None), m1)
  end.

(** Modelled from the spec: [flightcontrol.Group.Do], the single-flight
    primitive (its code is outside [jobs.go]).  For a caller that finds no
    call in flight under [key] it runs [fn] itself and returns what [fn]
    returns; calls are taken one after another. *)
Definition Do {T : Type} (ctx : Ctx) (key : string) (fn : Ctx → Machine → T)
  (m : Machine) : T := fn ctx m.

(** The error is pure cancellation: the context is done and the error
    carries the cancelled marker. *)
Definition cancelled (ctx : Ctx) (w : World) (e : option Error) : bool :=
  match e with
  | Some e => ctxDone ctx w && IsCanceled ctx w e
  | None => false
  end.

Definition storeExec (res : option (list Result)) (e : option Error)
  (s : sharedOp) : sharedOp :=
  {| opOnce := opOnce s; op := op s;
     subBuilder_exporters := subBuilder_exporters s; err := err s;
     so_execRes :=
       match res with
       | Some r => Some {| execRes_execRes := wrapShared r;
                           execExporters := subBuilder_exporters s |}
       | None => so_execRes s
       end;
     execDone := true; execErr := e;
     cacheRes := cacheRes s; cacheDone := cacheDone s; cacheErr := cacheErr s |}.

Definition addExporters (l : list ExportableCacheKey) (s : sharedOp) : sharedOp :=
  {| opOnce := opOnce s; op := op s;
     subBuilder_exporters := subBuilder_exporters s ++ l; err := err s;
     so_execRes := so_execRes s; execDone := execDone s; execErr := execErr s;
     cacheRes := cacheRes s; cacheDone := cacheDone s; cacheErr := cacheErr s |}.

(** The function [sharedOp.Exec] hands to the single-flight group. *)
Definition execFlight (o : option Op) (inputs : list Result) (ctx : Ctx)
  (m : Machine) : outcome ((option execRes * option Error) * Machine) :=
  if execDone (so m) then
    match execErr (so m) with
    | Some e => Done ((None, Some e), m)
    | None => Done ((so_execRes (so m), None), m)
    end
  else
    match o with
    | None => Panic
    | Some o =>
      let '(aerr, w1) := Op_Acquire o ctx (world m) in
      let m1 := emit EvAcquire (setWorld w1 m) in
      match aerr with
      | Some e => Done ((None, Some (wrapAcquire e)), m1)
      | None =>
        let ctx' := stateCtx ctx in
        let m2 := emit EvNotifyStarted m1 in
        let '((res, e, subs), w2) := Op_Exec o ctx' inputs (world m2) in
        let m3 := emit (EvOpExec inputs e)
                    (setSo (addExporters subs (so m2)) (setWorld w2 m2)) in
        let complete := negb (cancelled ctx' w2 e) in
        let m4 :=
          match e with
          | Some e0 => if complete then m3 else emit (EvReleaseError e0) m3
          | None => m3
          end in
        let e' := if complete then e else wrapCause ctx' w2 <$> e in
        let m5 := if complete then setSo (storeExec res e' (so m4)) m4 else m4 in
        let ret :=
          match so_execRes (so m5), e' with
          | Some r, None => (Some r, None)
          | _, _ => (None, e')
          end in
        let m6 := emit (EvNotifyCompleted (snd ret)) m5 in
        let m7 := emit EvRelease (setWorld (Op_release o (world m6)) m6) in
        Done (ret, m7)
      end
    end.

(** [sharedOp.Exec]. *)
Definition sharedOp_Exec (ctx : Ctx) (inputs : list Result) (m : Machine)
  : outcome ((option (list Result) * list ExportableCacheKey * option Error) * Machine) :=
  let '((o, e), m1) := getOp m in
  match e with
  | Some e => Done ((None, [], Some (wrapOpVertex e)), m1)
  | None =>
    do ((res, e), m2) <- Do ctx "exec"%string (execFlight o inputs) m1;
    match res, e with
    | Some r, None =>
      Done ((Some (unwrapShared (execRes_execRes r)), execExporters r, None), m2)
    | _, _ => Done ((None, [], wrapOpVertex <$> e), m2)
    end
  end.

Record cacheMapResp := {
  resp_CacheMap : CacheMap;
  complete : bool;
}.

Definition storeCache (cm : CacheMap) (done : bool) (s : sharedOp) : sharedOp :=
  {| opOnce := opOnce s; op := op s;
     subBuilder_exporters := subBuilder_exporters s; err := err s;
     so_execRes := so_execRes s; execDone := execDone s; execErr := execErr s;
     cacheRes := cacheRes s ++ [cm]; cacheDone := done; cacheErr := None |}.

Definition storeCacheErr (e : option Error) (s : sharedOp) : sharedOp :=
  {| opOnce := opOnce s; op := op s;
     subBuilder_exporters := subBuilder_exporters s; err := err s;
     so_execRes := so_execRes s; execDone := execDone s; execErr := execErr s;
     cacheRes := cacheRes s; cacheDone := cacheDone s; cacheErr := e |}.

(** [s.cacheRes != nil]: the slice is only ever grown by [append]. *)
Definition nonNil {A : Type} (l : list A) : bool :=
  match l with [] => false | _ => true end.

(** The function [sharedOp.CacheMap] hands to the single-flight group. *)
Definition cacheMapFlight (o : option Op) (index : nat) (ctx : Ctx)
  (m : Machine) : outcome ((list CacheMap * option Error) * Machine) :=
  let s := so m in
  if nonNil (cacheRes s) && cacheDone s || bool_decide (index < length (cacheRes s))
  then Done ((cacheRes s, None), m)
  else
    match cacheErr s with
    | Some e => Done (([], Some e), m)
    | None =>
      let ctx' := stateCtx ctx in
      let leaf := bool_decide (numInputs = 0) in
      let m1 := if leaf then emit EvNotifyStarted m else m in
      match o with
      | None => Panic
      | Some o =>
        let '((res, done, e), w1) := Op_CacheMap o ctx' (length (cacheRes s)) (world m1) in
        let m2 := emit (EvOpCacheMap (length (cacheRes s)) e) (setWorld w1 m1) in
        let complete := negb (cancelled ctx' w1 e) in
        let m3 :=
          match e with
          | Some e0 => if complete then m2 else emit (EvReleaseError e0) m2
          | None => m2
          end in
        let e' := if complete then e else wrapCause ctx' w1 <$> e in
        do m4 <-
          (if complete then
             match e', res with
             | None, Some cm =>
               Done (setSo (storeCache (withProgressOpt ctx' cm) done (so m3)) m3)
             | None, None => Panic        (* res.Opts on a nil *CacheMap *)
             | Some _, _ => Done (setSo (storeCacheErr e' (so m3)) m3)
             end
           else Done m3);
        let m5 := if leaf then emit (EvNotifyCompleted e') m4 else m4 in
        Done ((cacheRes (so m5), e'), m5)
      end
    end.

(** [sharedOp.CacheMap].  The method calls itself when the array it got
    back is still too short; [fuel] bounds the depth of that recursion. *)
Fixpoint sharedOp_CacheMap (fuel : nat) (ctx : Ctx) (index : nat) (m : Machine)
  : outcome ((option cacheMapResp * option Error) * Machine) :=
  match fuel with
  | 0 => OutOfFuel
  | S fuel' =>
    let '((o, e), m1) := getOp m in
    match e with
    | Some e => Done ((None, Some (wrapOpVertex e)), m1)
    | None =>
      do ((res, e), m2) <-
        Do ctx ("cachemap-" +:+ pretty index)%string (cacheMapFlight o index) m1;
      match e with
      | Some e => Done ((None, Some (wrapOpVertex e)), m2)
      | None =>
        if bool_decide (length res ≤ index) then
          do ((r, e), m3) <- sharedOp_CacheMap fuel' ctx index m2;
          Done ((r, wrapOpVertex <$> e), m3)
        else
          match res !! index with
          | Some cm =>
            Done ((Some {| resp_CacheMap := cm; complete := cacheDone (so m2) |},
                   None), m2)
          | None => Panic
          end
      end
    end
  end.

(** The calls made on one sharedOp over the life of its state. *)
Inductive Call :=
| CallExec (ctx : Ctx) (inputs : list Result)
| CallCacheMap (fuel : nat) (ctx : Ctx) (index : nat).

Definition step (c : Call) (m : Machine) : outcome Machine :=
  match c with
  | CallExec ctx inputs => do (_, m') <- sharedOp_Exec ctx inputs m; Done m'
  | CallCacheMap fuel ctx index =>
    do (_, m') <- sharedOp_CacheMap fuel ctx index m; Done m'
  end.

Fixpoint run (cs : list Call) (m : Machine) : outcome Machine :=
  match cs with
  | [] => Done m
  | c :: cs => do m' <- step c m; run cs m'
  end.

Definition initial (w : World) : Machine :=
  {| so := newSharedOp; world := w; trace := [] |}.

(** Calls into [Op.Acquire] and [Op.Exec] recorded in a trace. *)
Definition isExecEvent (e : Event) : bool :=
  match e with
  | EvAcquire | EvOpExec _ _ => true
  | _ => false
  end.

(** Invocations of [Op.Exec] that returned without error. *)
Definition isExecSuccess (e : Event) : bool :=
  match e with
  | EvOpExec _ None => true
  | _ => false
  end.

Definition isCacheMapEvent (e : Event) : bool :=
  match e with
  | EvOpCacheMap _ _ => true
  | _ => false
  end.

(** A successful result is memoised: what [Exec] returns from it. *)
Definition memoised (outs : list Result) (exps : list ExportableCacheKey)
  (m : Machine) : Prop :=
  opOnce (so m) = true ∧ err (so m) = None ∧
  execDone (so m) = true ∧ execErr (so m) = None ∧
  ∃ r, so_execRes (so m) = Some r ∧
       outs = unwrapShared (execRes_execRes r) ∧ exps = execExporters r.

(** A failure of [Op.Exec] is memoised. *)
Definition errMemoised (e : Error) (m : Machine) : Prop :=
  opOnce (so m) = true ∧ err (so m) = None ∧
  execDone (so m) = true ∧ execErr (so m) = Some e.

(** Cache maps are only memoised once the op has been resolved. *)
Definition cacheWf (m : Machine) : Prop :=
  cacheRes (so m) ≠ [] → opOnce (so m) = true ∧ err (so m) = None.

End Model.

(** A small instance to run the model on.  Results, keys, cache maps and
    errors are numbers; a context is its own done flag; error 1 carries
    the cancelled marker; the world counts the calls into the op.  The
    resolver yields op [w] in world [w]: op 0 always succeeds, op 2 cannot
    acquire its resources, every other op fails in [Exec] and [CacheMap]
    (with the cancelled error when the context is done). *)
Definition demo : Collab :=
  {| Result := nat; SharedResult := nat; ExportableCacheKey := nat;
     CacheMap := nat; Error := nat; Ctx := bool; World := nat;
     NewSharedResult := λ r, r;
     Clone := λ r, r;
     ctxDone := λ ctx _, ctx;
     IsCanceled := λ _ _ e, bool_decide (e = 1);
     wrapCause := λ _ _ e, e + 100;
     wrapAcquire := λ e, e + 200;
     wrapOpVertex := λ e, e + 1000;
     stateCtx := λ ctx, ctx;
     withProgressOpt := λ _ cm, cm;
     numInputs := 0;
     Op := nat;
     Op_CacheMap := λ o _ index w,
       match o with
       | 0 => ((Some index, false, None), S w)
       | _ => ((None, false, Some 5), S w)
       end;
     Op_Exec := λ o ctx inputs w,
       match o with
       | 0 => ((Some (map S inputs), None, [w]), S w)
       | _ => ((None, Some (if ctx then 1 else 5), []), S w)
       end;
     Op_Acquire := λ o _ w,
       match o with
       | 2 => (Some 7, w)
       | _ => (None, w)
       end;
     Op_release := λ _ w, w;
     resolver := λ w, ((Some w, None), 0) |}.

(** *** Counting what a sharedOp does *)

Section Accounting.
Context `{Collab}.

(** Runs of the resolver recorded in a trace. *)
Definition isResolveEvent (e : Event) : bool :=
  match e with
  | EvResolve => true
  | _ => false
  end.

(** Calls of the release function that [Op.Acquire] returned. *)
Definition isReleaseEvent (e : Event) : bool :=
  match e with
  | EvRelease => true
  | _ => false
  end.

(** Invocations of [Op.Exec]. *)
Definition isOpExecEvent (e : Event) : bool :=
  match e with
  | EvOpExec _ _ => true
  | _ => false
  end.

(** The index arguments of the invocations of [Op.CacheMap] that returned
    without error, in the order of the calls. *)
Definition cacheMapSuccesses (tr : list Event) : list nat :=
  omap (λ e, match e with EvOpCacheMap i None => Some i | _ => None end) tr.

End Accounting.

(** A second instance to run the model on: as [demo], but the resolver
    fails with [resolveErr] when that is an error, op 0 reports its
    sequence of cache maps complete from index [lastIndex] on, and the
    failing ops fail in [CacheMap] with the cancelled error when the
    context is done. *)
Definition demoWith (resolveErr : option nat) (lastIndex : nat) : Collab :=
  {| Result := nat; SharedResult := nat; ExportableCacheKey := nat;
     CacheMap := nat; Error := nat; Ctx := bool; World := nat;
     NewSharedResult := λ r, r;
     Clone := λ r, r;
     ctxDone := λ ctx _, ctx;
     IsCanceled := λ _ _ e, bool_decide (e = 1);
     wrapCause := λ _ _ e, e + 100;
     wrapAcquire := λ e, e + 200;
     wrapOpVertex := λ e, e + 1000;
     stateCtx := λ ctx, ctx;
     withProgressOpt := λ _ cm, cm;
     numInputs := 0;
     Op := nat;
     Op_CacheMap := λ o (ctx : bool) index w,
       match o with
       | 0 => ((Some index, bool_decide (lastIndex ≤ index), None), S w)
       | _ => ((None, false, Some (if ctx then 1 else 5)), S w)
       end;
     Op_Exec := λ o (ctx : bool) inputs w,
       match o with
       | 0 => ((Some (map S inputs), None, [w]), S w)
       | _ => ((None, Some (if ctx then 1 else 5), []), S w)
       end;
     Op_Acquire := λ o _ w,
       match o with
       | 2 => (Some 7, w)
       | _ => (None, w)
       end;
     Op_release := λ _ w, w;
     resolver := λ w, ((Some w, resolveErr), 0) |}.

End SharedOp.

(** ** The registry of active vertices *)

Module Registry.

(** A [digest.Digest] is a [string]; an [Index] is a [nat]; a [*Job] and an
    [*edge] are addresses, of type [nat]; an [Edge{Index, Vertex}] is a
    pair. *)

(** A [CacheManager] as the registry sees it: its [ID()] and the object. *)
Record CacheManager := {
  cm_ID : string;
  cm_obj : nat;
}.

Record VertexOptions := {
  IgnoreCache : bool;
  CacheSources : list CacheManager;
}.

(** A [Vertex] is a client vertex or the wrapper [vertexWithCacheOptions]
    that [load] puts around it, which overrides [Digest] and [Inputs] and
    passes every other method on to the vertex it embeds. *)
Inductive Vertex :=
| clientVertex (dgst : string) (name : string) (opts : VertexOptions)
               (inputs : list (nat * Vertex))
| vertexWithCacheOptions (v : Vertex) (dgst : string)
                         (inputs : list (nat * Vertex)).

Definition Vertex_Digest (v : Vertex) : string :=
  match v with
  | clientVertex d _ _ _ => d
  | vertexWithCacheOptions _ d _ => d
  end.

Definition Vertex_Inputs (v : Vertex) : list (nat * Vertex) :=
  match v with
  | clientVertex _ _ _ ins => ins
  | vertexWithCacheOptions _ _ ins => ins
  end.

Fixpoint Vertex_Options (v : Vertex) : VertexOptions :=
  match v with
  | clientVertex _ _ o _ => o
  | vertexWithCacheOptions v _ _ => Vertex_Options v
  end.

Fixpoint Vertex_Name (v : Vertex) : string :=
  match v with
  | clientVertex _ n _ _ => n
  | vertexWithCacheOptions v _ _ => Vertex_Name v
  end.

Definition CacheManager_eqb (a b : CacheManager) : bool :=
  String.eqb (cm_ID a) (cm_ID b) && Nat.eqb (cm_obj a) (cm_obj b).

Fixpoint list_eqb {A : Type} (eqb : A → A → bool) (l l' : list A) : bool :=
  match l, l' with
  | [], [] => true
  | x :: l, x' :: l' => eqb x x' && list_eqb eqb l l'
  | _, _ => false
  end.

Definition VertexOptions_eqb (a b : VertexOptions) : bool :=
  Bool.eqb (IgnoreCache a) (IgnoreCache b) &&
  list_eqb CacheManager_eqb (CacheSources a) (CacheSources b).

(** The size of a vertex: the measure for inductions over its inputs. *)
Fixpoint vsize (v : Vertex) : nat :=
  match v with
  | clientVertex _ _ _ ins =>
    S ((fix go (l : list (nat * Vertex)) : nat :=
          match l with
          | [] => 0
          | e :: l => vsize (snd e) + go l
          end) ins)
  | vertexWithCacheOptions v _ ins =>
    S (vsize v +
       (fix go (l : list (nat * Vertex)) : nat :=
          match l with
          | [] => 0
          | e :: l => vsize (snd e) + go l
          end) ins)
  end.

(** Equality of the keys of [map[Vertex]Vertex].  Vertices are immutable
    values here, so the identity of a vertex object is its content. *)
Fixpoint Vertex_eqb (a b : Vertex) : bool :=
  match a, b with
  | clientVertex d n o ins, clientVertex d' n' o' ins' =>
    String.eqb d d' && String.eqb n n' && VertexOptions_eqb o o' &&
    (fix go (l l' : list (nat * Vertex)) : bool :=
       match l, l' with
       | [], [] => true
       | (i, x) :: l, (i', x') :: l' => Nat.eqb i i' && Vertex_eqb x x' && go l l'
       | _, _ => false
       end) ins ins'
  | vertexWithCacheOptions v d ins, vertexWithCacheOptions v' d' ins' =>
    Vertex_eqb v v' && String.eqb d d' &&
    (fix go (l l' : list (nat * Vertex)) : bool :=
       match l, l' with
       | [], [] => true
       | (i, x) :: l, (i', x') :: l' => Nat.eqb i i' && Vertex_eqb x x' && go l l'
       | _, _ => false
       end) ins ins'
  | _, _ => false
  end.

(** A [progress.Writer] held in [allPw]: the writer of a job ([j.pw],
    created with the job and never replaced) or the multi-writer of a state
    ([st.mpw]), named by the address of the object that owns it. *)
Inductive Writer :=
| JobPw (j : nat)
| StateMpw (sid : nat).

Global Instance Writer_eq_dec : EqDecision Writer.
Proof. solve_decision. Defined.

Global Instance Writer_countable : Countable Writer.
Proof.
  refine (inj_countable'
            (λ w, match w with JobPw j => inl j | StateMpw s => inr s end)
            (λ x, match x with inl j => JobPw j | inr s => StateMpw s end) _).
  by intros [].
Defined.

(** The resolved [Op] of a sharedOp, as far as the registry looks at it:
    whether it implements [ProvenanceProvider]. *)
Record Op := {
  op_id : nat;
  op_provenance : bool;
}.

(** The fields of [sharedOp] that the registry reads. *)
Record sharedOp := {
  so_op : option Op;
}.

Definition newSharedOp : sharedOp := {| so_op := None |}.

(** An [*edge] object.  [edge_op] is the sharedOp it was created with, named
    by the address of the state that owns that sharedOp. *)
Record edge := {
  edge_edge : nat * Vertex;
  edge_op : option nat;
  owner : option nat;
}.

Record state := {
  sid : nat;                        (* the address of this state object *)
  jobs : gset nat;
  parents : gset string;
  childVtx : gset string;
  mpw : list Writer;                (* the writers added to the MultiWriter *)
  allPw : gset Writer;
  vtx : Vertex;
  origDigest : string;
  op : option sharedOp;
  edges : gmap nat nat;
  cache : gmap string CacheManager;
  mainCache : CacheManager;
}.

Record Solver := {
  solver_jobs : gmap string nat;    (* jl.jobs *)
  actives : gmap string state;
  DefaultCache : CacheManager;      (* opts.DefaultCache *)
  heap : gmap nat edge;             (* the edge objects *)
  next : nat;                       (* the next fresh address *)
  released : list state;            (* the states on which Release ran *)
  releasedEdges : list nat;         (* the edges on which release ran *)
  written : list (Writer * string); (* pw.Write(id, clientVertex): writer, Digest *)
}.

Definition setActives (a : gmap string state) (σ : Solver) : Solver :=
  {| solver_jobs := solver_jobs σ; actives := a; DefaultCache := DefaultCache σ;
     heap := heap σ; next := next σ; released := released σ;
     releasedEdges := releasedEdges σ; written := written σ |}.

Definition setState (k : string) (st : state) (σ : Solver) : Solver :=
  setActives (<[k := st]> (actives σ)) σ.

Definition setJobs (js : gset nat) (st : state) : state :=
  {| sid := sid st; jobs := js; parents := parents st; childVtx := childVtx st;
     mpw := mpw st; allPw := allPw st; vtx := vtx st; origDigest := origDigest st;
     op := op st; edges := edges st; cache := cache st; mainCache := mainCache st |}.

Definition setParents (ps : gset string) (st : state) : state :=
  {| sid := sid st; jobs := jobs st; parents := ps; childVtx := childVtx st;
     mpw := mpw st; allPw := allPw st; vtx := vtx st; origDigest := origDigest st;
     op := op st; edges := edges st; cache := cache st; mainCache := mainCache st |}.

Definition setChildVtx (cs : gset string) (st : state) : state :=
  {| sid := sid st; jobs := jobs st; parents := parents st; childVtx := cs;
     mpw := mpw st; allPw := allPw st; vtx := vtx st; origDigest := origDigest st;
     op := op st; edges := edges st; cache := cache st; mainCache := mainCache st |}.

Definition setPw (ws : list Writer) (all : gset Writer) (st : state) : state :=
  {| sid := sid st; jobs := jobs st; parents := parents st; childVtx := childVtx st;
     mpw := ws; allPw := all; vtx := vtx st; origDigest := origDigest st;
     op := op st; edges := edges st; cache := cache st; mainCache := mainCache st |}.

Definition setCache (c : gmap string CacheManager) (st : state) : state :=
  {| sid := sid st; jobs := jobs st; parents := parents st; childVtx := childVtx st;
     mpw := mpw st; allPw := allPw st; vtx := vtx st; origDigest := origDigest st;
     op := op st; edges := edges st; cache := c; mainCache := mainCache st |}.

Definition setOpEdges (o : option sharedOp) (es : gmap nat nat) (st : state) : state :=
  {| sid := sid st; jobs := jobs st; parents := parents st; childVtx := childVtx st;
     mpw := mpw st; allPw := allPw st; vtx := vtx st; origDigest := origDigest st;
     op := o; edges := es; cache := cache st; mainCache := mainCache st |}.

(** [newEdge(e, op, index)] put at a fresh address. *)
Definition allocEdge (e : edge) (σ : Solver) : nat * Solver :=
  (next σ,
   {| solver_jobs := solver_jobs σ; actives := actives σ;
      DefaultCache := DefaultCache σ; heap := <[next σ := e]> (heap σ);
      next := S (next σ); released := released σ;
      releasedEdges := releasedEdges σ; written := written σ |}).

Definition setHeap (h : gmap nat edge) (σ : Solver) : Solver :=
  {| solver_jobs := solver_jobs σ; actives := actives σ;
     DefaultCache := DefaultCache σ; heap := h; next := next σ;
     released := released σ; releasedEdges := releasedEdges σ;
     written := written σ |}.

(** A [CachedResult] as the registry sees it: the object and its
    [CacheKeys()]. *)
Record CachedResult := {
  cr_id : nat;
  CacheKeys : list nat;
}.

(** What the registry takes from outside [jobs.go]. *)
Class Runtime := {
  (* digest.FromBytes *)
  FromBytes : string → string;
  (* the order in which a range statement visits the keys of a Go map *)
  rangeDigest : gset string → list string;
  rangeDigest_perm : ∀ X, rangeDigest X ≡ₚ elements X;
  rangeNat : gset nat → list nat;
  rangeNat_perm : ∀ X, rangeNat X ≡ₚ elements X;
  (* scheduler.build: the scheduler drives the edge to its result *)
  sched_build : nat * Vertex → Solver → outcome ((CachedResult + string) * Solver);
}.

Section Operations.
Context `{Runtime}.

(** [for e.owner != nil { e = e.owner }]. *)
Fixpoint ownerRoot (fuel : nat) (h : gmap nat edge) (p : nat) : outcome nat :=
  match fuel with
  | 0 => OutOfFuel
  | S fuel =>
    match h !! p with
    | None => Panic
    | Some e =>
      match owner e with
      | None => Done p
      | Some q => ownerRoot fuel h q
      end
    end
  end.

(** [state.getEdge].  [held] are the states whose mutex the goroutine
    holds; the state is named by its key in [actives]. *)
Definition state_getEdge (fuel : nat) (held : list string) (k : string)
  (index : nat) (σ : Solver) : outcome (nat * Solver) :=
  if decide (k ∈ held) then Deadlock
  else
    match actives σ !! k with
    | None => Panic
    | Some s =>
      match edges s !! index with
      | Some e => do r <- ownerRoot fuel (heap σ) e; Done (r, σ)
      | None =>
        let o := match op s with Some o => Some o | None => Some newSharedOp end in
        let '(e, σ1) :=
          allocEdge {| edge_edge := (index, vtx s); edge_op := Some (sid s);
                       owner := None |} σ in
        Done (e, setState k (setOpEdges o (<[index := e]> (edges s)) s) σ1)
      end
    end.

(** Modelled from the spec: [edge.takeOwnership] (its code is in [edge.go]).
    After [target.takeOwnership(old)] lookups of [old] follow the owner
    chain to [target]. *)
Definition takeOwnership (target old : nat) (σ : Solver) : outcome Solver :=
  match heap σ !! old with
  | None => Panic
  | Some e =>
    Done (setHeap (<[old := {| edge_edge := edge_edge e; edge_op := edge_op e;
                               owner := Some target |}]> (heap σ)) σ)
  end.

(** [state.addJobs]: [s] and [srcState] are keys in [actives], [memo] the
    states already visited. *)
Fixpoint addJobs (fuel : nat) (held : list string) (s srcState : string)
  (memo : gset string) (σ : Solver) : outcome (gset string * Solver) :=
  match fuel with
  | 0 => OutOfFuel
  | S fuel =>
    if decide (s ∈ memo) then Done (memo, σ)
    else
      let memo := {[s]} ∪ memo in
      if decide (s ∈ held) then Deadlock
      else
        match actives σ !! s, actives σ !! srcState with
        | Some st, Some src =>
          let σ := setState s (setJobs (jobs st ∪ jobs src) st) σ in
          (fix inputsLoop (ins : list (nat * Vertex)) (memo : gset string)
               (σ : Solver) : outcome (gset string * Solver) :=
             match ins with
             | [] => Done (memo, σ)
             | inputEdge :: ins =>
               let d := Vertex_Digest (snd inputEdge) in
               match actives σ !! d with
               | None => inputsLoop ins memo σ
               | Some _ =>
                 do (memo, σ) <- addJobs fuel (s :: held) d srcState memo σ;
                 do (mergedInputEdge, σ) <-
                   state_getEdge fuel (s :: held) d (fst inputEdge) σ;
                 match heap σ !! mergedInputEdge with
                 | None => Panic
                 | Some me =>
                   let d' := Vertex_Digest (snd (edge_edge me)) in
                   if decide (d' = d) then inputsLoop ins memo σ
                   else
                     match actives σ !! d' with
                     | None => inputsLoop ins memo σ
                     | Some _ =>
                       do (memo, σ) <- addJobs fuel (s :: held) d' srcState memo σ;
                       inputsLoop ins memo σ
                     end
                 end
               end
             end) (Vertex_Inputs (vtx st)) memo σ
        | _, _ => Panic
        end
  end.

(** [state.setEdge]; [targetState] is the key of the target state or
    [None] for nil. *)
Definition state_setEdge (fuel : nat) (s : string) (index : nat)
  (targetEdge : nat) (targetState : option string) (σ : Solver) : outcome Solver :=
  match actives σ !! s with
  | None => Panic
  | Some st =>
    do r <-
      match edges st !! index with
      | Some e =>
        do e <- ownerRoot fuel (heap σ) e;
        if decide (e = targetEdge) then Done None else Done (Some (e, σ))
      | None =>
        let '(e, σ1) :=
          allocEdge {| edge_edge := (index, vtx st);
                       edge_op := match op st with Some _ => Some (sid st) | None => None end;
                       owner := None |} σ in
        Done (Some (e, setState s (setOpEdges (op st) (<[index := e]> (edges st)) st) σ1))
      end;
    match r with
    | None => Done σ
    | Some (e, σ) =>
      do σ <- takeOwnership targetEdge e σ;
      match targetState with
      | None => Done σ
      | Some t =>
        do (_, σ) <- addJobs fuel [s] t s ∅ σ;
        match actives σ !! t with
        | None => Panic
        | Some tst =>
          if decide (StateMpw (sid st) ∈ allPw tst) then Done σ
          else Done (setState t (setPw (mpw tst ++ [StateMpw (sid st)])
                                       ({[StateMpw (sid st)]} ∪ allPw tst) tst) σ)
        end
      end
    end
  end.

(** [Solver.setEdge]. *)
Definition Solver_setEdge (fuel : nat) (e : nat * Vertex) (targetEdge : nat)
  (σ : Solver) : outcome Solver :=
  match actives σ !! Vertex_Digest (snd e) with
  | None => Done σ
  | Some _ =>
    match heap σ !! targetEdge with
    | None => Panic
    | Some te =>
      let d := Vertex_Digest (snd (edge_edge te)) in
      let targetSt := match actives σ !! d with Some _ => Some d | None => None end in
      state_setEdge fuel (Vertex_Digest (snd e)) (fst e) targetEdge targetSt σ
    end
  end.

(** The body of the loop over [src.jobs] in [connectProgressFromState]:
    attach the writer [pw] to [target] unless [allPw] already has it. *)
Definition attach (target : string) (pw : Writer) (σ : Solver) : Solver :=
  match actives σ !! target with
  | None => σ
  | Some t =>
    if decide (pw ∈ allPw t) then σ
    else
      let σ1 := setState target (setPw (mpw t ++ [pw]) ({[pw]} ∪ allPw t) t) σ in
      {| solver_jobs := solver_jobs σ1; actives := actives σ1;
         DefaultCache := DefaultCache σ1; heap := heap σ1; next := next σ1;
         released := released σ1; releasedEdges := releasedEdges σ1;
         written := written σ1 ++ [(pw, Vertex_Digest (vtx t))] |}
  end.

(** [Solver.connectProgressFromState(target, src)].  A parent without a
    state is a nil [src]: reading [src.jobs] panics. *)
Fixpoint connectProgressFromState (fuel : nat) (target src : string)
  (σ : Solver) : outcome Solver :=
  match fuel with
  | 0 => OutOfFuel
  | S fuel =>
    match actives σ !! src with
    | None => Panic
    | Some srcSt =>
      let σ1 := foldl (λ σ j, attach target (JobPw j) σ) σ (rangeNat (jobs srcSt)) in
      (fix parentsLoop (ps : list string) (σ : Solver) : outcome Solver :=
         match ps with
         | [] => Done σ
         | p :: ps =>
           do σ <- connectProgressFromState fuel target p σ;
           parentsLoop ps σ
         end) (rangeDigest (parents srcSt)) σ1
    end
  end.

(** [cache map[Vertex]Vertex], the memo of one [load]. *)
Fixpoint memoLookup (cache : list (Vertex * Vertex)) (v : Vertex) : option Vertex :=
  match cache with
  | [] => None
  | (k, x) :: cache => if Vertex_eqb k v then Some x else memoLookup cache v
  end.

(** [dgstWithoutCache] of a digest. *)
Definition ignoreCacheDigest (dgst : string) : string :=
  FromBytes (dgst +:+ "-ignorecache").

(** The loop over [v.Options().CacheSources] in [loadUnlocked]. *)
Definition addCacheSources (srcs : list CacheManager) (st : state) : state :=
  foldl (λ st c,
           if decide (cm_ID c = cm_ID (mainCache st)) then st
           else match cache st !! cm_ID c with
                | Some _ => st
                | None => setCache (<[cm_ID c := c]> (cache st)) st
                end) st srcs.

(** [loadUnlocked], the look-up of an active state for the vertex: the
    vertex [v] to go on with, [dgst], and the key of the state found, if
    one was. *)
Definition dedup (origVtx : Vertex) (inputs : list (nat * Vertex)) (σ : Solver)
  : Vertex * string * option string :=
  let dgst := Vertex_Digest origVtx in
  let dgstWithoutCache := ignoreCacheDigest dgst in
  match actives σ !! dgstWithoutCache with
  | Some st => (vtx st, dgst, Some dgstWithoutCache)
  | None =>
    let dgst :=
      match actives σ !! dgst with
      | Some st =>
        if negb (IgnoreCache (Vertex_Options (vtx st))) &&
           IgnoreCache (Vertex_Options origVtx)
        then dgstWithoutCache else dgst
      | None => dgst
      end in
    (vertexWithCacheOptions origVtx dgst inputs, dgst,
     match actives σ !! dgst with Some _ => Some dgst | None => None end)
  end.

(** [loadUnlocked], [if !ok]: a new state for [v] under [dgst]. *)
Definition newState (dgst : string) (v origVtx : Vertex) (σ : Solver) : Solver :=
  {| solver_jobs := solver_jobs σ;
     actives :=
       <[dgst := {| sid := next σ; jobs := ∅; parents := ∅; childVtx := ∅;
                    mpw := []; allPw := ∅; vtx := v;
                    origDigest := Vertex_Digest origVtx; op := None;
                    edges := ∅; cache := ∅; mainCache := DefaultCache σ |}]>
         (actives σ);
     DefaultCache := DefaultCache σ; heap := heap σ; next := S (next σ);
     released := released σ; releasedEdges := releasedEdges σ;
     written := written σ |}.

(** [loadUnlocked], the cache sources and the job: what happens to the
    state [st] between [st.mu.Lock()] and [st.mu.Unlock()]. *)
Definition joinState (v : Vertex) (j : option nat) (st : state) : state :=
  let st := addCacheSources (CacheSources (Vertex_Options v)) st in
  match j with
  | Some j => setJobs ({[j]} ∪ jobs st) st
  | None => st
  end.

(** [loadUnlocked], [if parent != nil]: the error, if any, and the
    registry; [k] is the key of [st]. *)
Definition linkParent (k dgst : string) (parent : option Vertex) (σ : Solver)
  : outcome (option string * Solver) :=
  match parent with
  | None => Done (None, σ)
  | Some parent =>
    let pd := Vertex_Digest parent in
    match actives σ !! k with
    | None => Panic
    | Some st =>
      if decide (pd ∈ parents st) then Done (None, σ)
      else
        let σ := setState k (setParents ({[pd]} ∪ parents st) st) σ in
        match actives σ !! pd with
        | None => Done (Some ("inactive parent " +:+ pd)%string, σ)
        | Some parentState =>
          let σ := setState pd (setChildVtx ({[dgst]} ∪ childVtx parentState)
                                            parentState) σ in
          match actives σ !! k, actives σ !! pd with
          | Some st, Some parentState =>
            Done (None, setState k (setCache (cache parentState ∪ cache st) st) σ)
          | _, _ => Panic
          end
        end
    end
  end.

(** [loadUnlocked] from [st.mu.Lock()] on, with the state [st] at key [k]
    in hand.  The result is the vertex or the error. *)
Definition enterState (fuel : nat) (k dgst : string) (v origVtx : Vertex)
  (parent : option Vertex) (j : option nat) (memo : list (Vertex * Vertex))
  (st : state) (σ : Solver)
  : outcome ((Vertex + string) * list (Vertex * Vertex) * Solver) :=
  let σ := setState k (joinState v j st) σ in
  do (err, σ) <- linkParent k dgst parent σ;
  match err with
  | Some e => Done (inr e, memo, σ)
  | None =>
    do σ <- connectProgressFromState fuel k k σ;
    Done (inl v, (origVtx, v) :: memo, σ)
  end.

(** [loadUnlocked] from [dgst := v.Digest()] on: [v] with its inputs
    already loaded into [inputs]. *)
Definition loadVertex (fuel : nat) (origVtx : Vertex) (inputs : list (nat * Vertex))
  (parent : option Vertex) (j : option nat) (memo : list (Vertex * Vertex))
  (σ : Solver) : outcome ((Vertex + string) * list (Vertex * Vertex) * Solver) :=
  let '(v, dgst, found) := dedup origVtx inputs σ in
  let '(k, σ) :=
    match found with
    | Some k => (k, σ)
    | None => (dgst, newState dgst v origVtx σ)
    end in
  match actives σ !! k with
  | None => Panic
  | Some st => enterState fuel k dgst v origVtx parent j memo st σ
  end.

(** [Solver.loadUnlocked]. *)
Fixpoint loadUnlocked (fuel : nat) (v : Vertex) (parent : option Vertex)
  (j : option nat) (cache : list (Vertex * Vertex)) (σ : Solver) {struct v}
  : outcome ((Vertex + string) * list (Vertex * Vertex) * Solver) :=
  match memoLookup cache v with
  | Some v' => Done (inl v', cache, σ)
  | None =>
    do r <-
      (fix inputsLoop (es : list (nat * Vertex)) (inputs : list (nat * Vertex))
           (cache : list (Vertex * Vertex)) (σ : Solver)
         : outcome ((list (nat * Vertex) + string) * list (Vertex * Vertex) * Solver) :=
         match es with
         | [] => Done (inl inputs, cache, σ)
         | e :: es =>
           do r <- loadUnlocked fuel (snd e) parent j cache σ;
           match r with
           | (inl v', cache, σ) => inputsLoop es (inputs ++ [(fst e, v')]) cache σ
           | (inr err, cache, σ) => Done (inr err, cache, σ)
           end
         end)
        match v with
        | clientVertex _ _ _ ins => ins
        | vertexWithCacheOptions _ _ ins => ins
        end [] cache σ;
    match r with
    | (inl inputs, cache, σ) => loadVertex fuel v inputs parent j cache σ
    | (inr err, cache, σ) => Done (inr err, cache, σ)
    end
  end.

(** The loop over [v.Inputs()] in [loadUnlocked], by itself. *)
Fixpoint loadInputs (fuel : nat) (es : list (nat * Vertex))
  (inputs : list (nat * Vertex)) (parent : option Vertex) (j : option nat)
  (cache : list (Vertex * Vertex)) (σ : Solver)
  : outcome ((list (nat * Vertex) + string) * list (Vertex * Vertex) * Solver) :=
  match es with
  | [] => Done (inl inputs, cache, σ)
  | e :: es =>
    do r <- loadUnlocked fuel (snd e) parent j cache σ;
    match r with
    | (inl v', cache, σ) => loadInputs fuel es (inputs ++ [(fst e, v')]) parent j cache σ
    | (inr err, cache, σ) => Done (inr err, cache, σ)
    end
  end.

(** [Solver.load]: a fresh memo, then [loadUnlocked]. *)
Definition load (fuel : nat) (v : Vertex) (parent : option Vertex)
  (j : option nat) (σ : Solver) : outcome ((Vertex + string) * Solver) :=
  do r <- loadUnlocked fuel v parent j [] σ;
  Done (fst (fst r), snd r).

(** [state.Release]: every edge of the state is followed to the end of its
    owner chain and released there.  [edge.release] and the asynchronous
    release of the exec results are outside [jobs.go]; the model records on
    which objects they ran. *)
Fixpoint ownerRoots (fuel : nat) (h : gmap nat edge) (es : list nat)
  : outcome (list nat) :=
  match es with
  | [] => Done []
  | e :: es =>
    do r <- ownerRoot fuel h e;
    do rs <- ownerRoots fuel h es;
    Done (r :: rs)
  end.

Definition Release (fuel : nat) (st : state) (σ : Solver) : outcome Solver :=
  do roots <- ownerRoots fuel (heap σ)
                (omap (λ i, edges st !! i) (rangeNat (dom (edges st))));
  Done {| solver_jobs := solver_jobs σ; actives := actives σ;
          DefaultCache := DefaultCache σ; heap := heap σ; next := next σ;
          released := released σ ++ [st];
          releasedEdges := releasedEdges σ ++ roots;
          written := written σ |}.

(** [Solver.deleteIfUnreferenced(k, st)]; [st] is the state at [k]. *)
Fixpoint deleteIfUnreferenced (fuel : nat) (k : string) (st : state)
  (σ : Solver) : outcome Solver :=
  match fuel with
  | 0 => OutOfFuel
  | S fuel =>
    if decide (size (jobs st) = 0 ∧ size (parents st) = 0) then
      do σ <-
        (fix childLoop (cs : list string) (σ : Solver) : outcome Solver :=
           match cs with
           | [] => Done σ
           | chKey :: cs =>
             match actives σ !! chKey with
             | None => Panic
             | Some chState =>
               let chState := setParents (parents chState ∖ {[k]}) chState in
               do σ <- deleteIfUnreferenced fuel chKey chState
                         (setState chKey chState σ);
               childLoop cs σ
             end
           end) (rangeDigest (childVtx st)) σ;
      do σ <- Release fuel st σ;
      Done (setActives (delete k (actives σ)) σ)
    else Done σ
  end.

(** The loop of [Job.Discard] over [j.list.actives]: an entry removed
    before the loop reaches it is not visited. *)
Fixpoint discardLoop (fuel : nat) (j : nat) (ks : list string) (σ : Solver)
  : outcome Solver :=
  match ks with
  | [] => Done σ
  | k :: ks =>
    match actives σ !! k with
    | None => discardLoop fuel j ks σ
    | Some st =>
      do σ <-
        (if decide (j ∈ jobs st) then
           let st := setJobs (jobs st ∖ {[j]}) st in
           deleteIfUnreferenced fuel k st (setState k st σ)
         else Done σ);
      let σ :=
        match actives σ !! k with
        | Some st => setState k (setPw (mpw st) (allPw st ∖ {[JobPw j]}) st) σ
        | None => σ
        end in
      discardLoop fuel j ks σ
    end
  end.

(** [Job.Discard], up to the goroutine it starts. *)
Definition Discard (fuel : nat) (j : nat) (σ : Solver) : outcome Solver :=
  discardLoop fuel j (rangeDigest (dom (actives σ))) σ.

(** The goroutine [Job.Discard] starts: ten seconds later the job leaves
    [jl.jobs]. *)
Definition Discard_later (id : string) (σ : Solver) : Solver :=
  {| solver_jobs := delete id (solver_jobs σ); actives := actives σ;
     DefaultCache := DefaultCache σ; heap := heap σ; next := next σ;
     released := released σ; releasedEdges := releasedEdges σ;
     written := written σ |}.

(** [Solver.NewJob]: the new job's address, or the error. *)
Definition NewJob (id : string) (σ : Solver) : (nat + string) * Solver :=
  match solver_jobs σ !! id with
  | Some _ => (inr ("job ID " +:+ id +:+ " exists")%string, σ)
  | None =>
    (inl (next σ),
     {| solver_jobs := <[id := next σ]> (solver_jobs σ); actives := actives σ;
        DefaultCache := DefaultCache σ; heap := heap σ; next := S (next σ);
        released := released σ; releasedEdges := releasedEdges σ;
        written := written σ |})
  end.

(** [errdefs.NewUnknownJobError(id)]. *)
Inductive GetError :=
| UnknownJobError (id : string).

(** What [Solver.Get] finds each time it holds the read lock at the top of
    its loop: whether its context (cancelled after six seconds) is done,
    and the registry.  The first entry is what it finds on entry, each
    further one what it finds after [updateCond.Wait()] returned. *)
Record Wakeup := {
  ctx_done : bool;
  registry : Solver;
}.

(** [Solver.Get]: the loop, run over the wake-ups of the goroutine.  When
    the list ends the goroutine is still in [Wait]. *)
Fixpoint Get (id : string) (wakeups : list Wakeup) : outcome (nat + GetError) :=
  match wakeups with
  | [] => OutOfFuel
  | w :: wakeups =>
    if ctx_done w then Done (inr (UnknownJobError id))
    else
      match solver_jobs (registry w) !! id with
      | None => Get id wakeups
      | Some j => Done (inl j)
      end
  end.

(** [withProvenance]: [wp_e] is [None] for the zero [Edge]. *)
Record withProvenance := {
  wp_CachedResult : CachedResult;
  wp_j : option nat;
  wp_e : option (nat * Vertex);
}.

(** [subBuilder]: of the state it embeds, [vtx] is what [Build] reads. *)
Record subBuilder := {
  sb_vtx : Vertex;
  sb_exporters : list nat;
}.

(** [Solver.subBuild]. *)
Definition subBuild (fuel : nat) (e : nat * Vertex) (parent : Vertex)
  (σ : Solver) : outcome ((CachedResult + string) * Solver) :=
  do (r, σ) <- load fuel (snd e) (Some parent) None σ;
  match r with
  | inr err => Done (inr err, σ)
  | inl v => sched_build (fst e, v) σ
  end.

(** [subBuilder.Build]. *)
Definition subBuilder_Build (fuel : nat) (sb : subBuilder) (e : nat * Vertex)
  (σ : Solver) : outcome ((withProvenance + string) * subBuilder * Solver) :=
  do (r, σ) <- subBuild fuel e (sb_vtx sb) σ;
  match r with
  | inr err => Done (inr err, sb, σ)
  | inl res =>
    match CacheKeys res with
    | [] => Panic
    | key :: _ =>
      Done (inl {| wp_CachedResult := res; wp_j := None; wp_e := None |},
            {| sb_vtx := sb_vtx sb; sb_exporters := sb_exporters sb ++ [key] |},
            σ)
    end
  end.

(** [Job.Build]. *)
Definition Job_Build (fuel : nat) (j : nat) (e : nat * Vertex) (σ : Solver)
  : outcome ((withProvenance + string) * Solver) :=
  do (r, σ) <- load fuel (snd e) None (Some j) σ;
  match r with
  | inr err => Done (inr err, σ)
  | inl v =>
    do (r, σ) <- sched_build (fst e, v) σ;
    match r with
    | inr err => Done (inr err, σ)
    | inl res =>
      Done (inl {| wp_CachedResult := res; wp_j := Some j;
                   wp_e := Some (fst e, v) |}, σ)
    end
  end.

Section Callbacks.
Context {F : Type}.

(** [Job.walkProvenance].  The callback [f] has a state of its own; the
    walk threads the visited set, that state and the list of the providers
    [f] was called on. *)
Fixpoint walkProvenance (v : Vertex) (f : Op → F → option string * F)
  (σ : Solver) (w : gset string * F * list Op) {struct v}
  : option string * (gset string * F * list Op) :=
  let '(visited, a, log) := w in
  if decide (Vertex_Digest v ∈ visited) then (None, w)
  else
    let visited := {[Vertex_Digest v]} ∪ visited in
    let '(err, a, log) :=
      match actives σ !! Vertex_Digest v with
      | Some st =>
        match op st with
        | Some so =>
          match so_op so with
          | Some o =>
            if op_provenance o then
              let '(err, a) := f o a in (err, a, log ++ [o])
            else (None, a, log)
          | None => (None, a, log)
          end
        | None => (None, a, log)
        end
      | None => (None, a, log)
      end in
    match err with
    | Some err => (Some err, (visited, a, log))
    | None =>
      (fix inputsLoop (ins : list (nat * Vertex)) (w : gset string * F * list Op)
         : option string * (gset string * F * list Op) :=
         match ins with
         | [] => (None, w)
         | inp :: ins =>
           match walkProvenance (snd inp) f σ w with
           | (Some err, w) => (Some err, w)
           | (None, w) => inputsLoop ins w
           end
         end)
        match v with
        | clientVertex _ _ _ ins => ins
        | vertexWithCacheOptions _ _ ins => ins
        end (visited, a, log)
    end.

(** [withProvenance.WalkProvenance]: the error, the callback's state, and
    the providers the callback was called on. *)
Definition WalkProvenance (wp : withProvenance) (f : Op → F → option string * F)
  (a : F) (σ : Solver) : outcome (option string * F * list Op) :=
  match wp_j wp with
  | None => Done (None, a, [])
  | Some j =>
    match wp_e wp with
    | None => Panic
    | Some e =>
      let '(err, (_, a, log)) := walkProvenance (snd e) f σ (∅, a, []) in
      Done (err, a, log)
    end
  end.

End Callbacks.

(** [p] is owned by [t]: following [owner] from [p] leads to [t] (in no
    step when [p] is [t]). *)
Inductive ownedBy (h : gmap nat edge) : nat → nat → Prop :=
| ownedBy_here p : ownedBy h p p
| ownedBy_next p e q t :
    h !! p = Some e → owner e = Some q → ownedBy h q t → ownedBy h p t.

(** [t] is the representative of [p]: the end of its owner chain. *)
Definition representative (h : gmap nat edge) (p t : nat) : Prop :=
  ownedBy h p t ∧ ∃ e, h !! t = Some e ∧ owner e = None.

(** One step from an active state to an active state below it: to the state
    of one of its vertex's inputs or, when the edge of that input state is
    merged, to the state of the vertex of the representative edge. *)
Definition inputStep (σ : Solver) (a b : string) : Prop :=
  ∃ sa idx iv si,
    actives σ !! a = Some sa ∧ (idx, iv) ∈ Vertex_Inputs (vtx sa) ∧
    actives σ !! Vertex_Digest iv = Some si ∧
    (b = Vertex_Digest iv ∨
     ∃ p r er,
       edges si !! idx = Some p ∧ representative (heap σ) p r ∧
       heap σ !! r = Some er ∧ b = Vertex_Digest (snd (edge_edge er)) ∧
       is_Some (actives σ !! b)).

(** Every edge object lies below the next fresh address. *)
Definition heapFresh (σ : Solver) : Prop :=
  ∀ p, is_Some (heap σ !! p) → p < next σ.

(** From [σ] to [σ'] jobs were added and edges were made: the same states
    are active, with their vertices, and no edge object changed. *)
Definition grows (σ σ' : Solver) : Prop :=
  (∀ k, option_Forall2 (λ s s', vtx s' = vtx s ∧ jobs s ⊆ jobs s' ∧
                                 edges s ⊆ edges s')
          (actives σ !! k) (actives σ' !! k)) ∧
  heap σ ⊆ heap σ'.

(** The input edge [(idx, iv)] of a visited state is accounted for: its
    state is in [M], it has an edge at [idx], and the state of the vertex
    of the representative of that edge, when active, is in [M]. *)
Definition inputDone (σ : Solver) (M : gset string) (idx : nat) (iv : Vertex) : Prop :=
  Vertex_Digest iv ∈ M ∧
  ∃ si p r er,
    actives σ !! Vertex_Digest iv = Some si ∧ edges si !! idx = Some p ∧
    representative (heap σ) p r ∧ heap σ !! r = Some er ∧
    (is_Some (actives σ !! Vertex_Digest (snd (edge_edge er))) →
     Vertex_Digest (snd (edge_edge er)) ∈ M).

(** The state at [x] holds the jobs [J] and all its active inputs are
    accounted for. *)
Definition visitedOk (σ : Solver) (M : gset string) (J : gset nat) (x : string) : Prop :=
  ∃ sx, actives σ !! x = Some sx ∧ J ⊆ jobs sx ∧
        ∀ idx iv, (idx, iv) ∈ Vertex_Inputs (vtx sx) →
                  is_Some (actives σ !! Vertex_Digest iv) →
                  inputDone σ M idx iv.

(** Between two registries only progress writers were attached, and only
    to the state at [target]. *)
Definition pwOnly (target : string) (σ σ' : Solver) : Prop :=
  (∀ k, option_Forall2 (λ s s', (∃ ws all, s' = setPw ws all s) ∧
                                 (k ≠ target → s' = s))
          (actives σ !! k) (actives σ' !! k)) ∧
  heap σ' = heap σ ∧ next σ' = next σ ∧ solver_jobs σ' = solver_jobs σ ∧
  released σ' = released σ.

(** Two states differ at most in their parents, children and caches. *)
Definition sameButLinks (s s' : state) : Prop :=
  sid s' = sid s ∧ jobs s' = jobs s ∧ mpw s' = mpw s ∧ allPw s' = allPw s ∧
  vtx s' = vtx s ∧ origDigest s' = origDigest s ∧ op s' = op s ∧
  edges s' = edges s ∧ mainCache s' = mainCache s.

(** The parents of every active state are active and of lower rank: the
    parent links form no cycle. *)
Definition parentsRanked (rank : string → nat) (σ : Solver) : Prop :=
  ∀ k st p, actives σ !! k = Some st → p ∈ parents st →
            is_Some (actives σ !! p) ∧ rank p < rank k.



(** A state no job and no parent holds. *)
Definition unreferenced (st : state) : Prop :=
  jobs st = ∅ ∧ parents st = ∅.



End Operations.

(** A small runtime to run the model on: digests are hashed by putting
    "sha256:" in front, maps are visited in the order of [elements], and
    the scheduler builds every edge at once, to a result with one cache
    key. *)
Definition demoRuntime : Runtime :=
  {| FromBytes := λ s, ("sha256:" +:+ s)%string;
     rangeDigest := elements;
     rangeDigest_perm := λ X, reflexivity _;
     rangeNat := elements;
     rangeNat_perm := λ X, reflexivity _;
     sched_build := λ e σ, Done (inl {| cr_id := 0; CacheKeys := [7] |}, σ) |}.

Definition emptySolver : Solver :=
  {| solver_jobs := ∅; actives := ∅;
     DefaultCache := {| cm_ID := "main"; cm_obj := 0 |};
     heap := ∅; next := 1; released := []; releasedEdges := []; written := [] |}.

(** A client vertex without inputs. *)
Definition leaf (d : string) (ignoreCache : bool) : Vertex :=
  clientVertex d d {| IgnoreCache := ignoreCache; CacheSources := [] |} [].

(** The registry of an [outcome], [emptySolver] if there is none. *)
Definition solverOf {A : Type} (o : outcome (A * Solver)) : Solver :=
  match o with
  | Done (_, σ) => σ
  | _ => emptySolver
  end.

(** ** Registries to run the model on *)

#[local] Existing Instance demoRuntime.

Definition demoS : Vertex := leaf "s" false.
Definition demoU : Vertex := leaf "u" false.
Definition demoT : Vertex :=
  clientVertex "t" "t" {| IgnoreCache := false; CacheSources := [] |} [(0, demoU)].

(** Job 1 ("a") built [demoS], job 3 ("b") built [demoT], whose input is
    [demoU], and edge 0 of the state of [demoT] was asked for: it is the
    edge object 6. *)
Definition twoBuilds : Solver :=
  let σ := snd (NewJob "a" emptySolver) in
  let σ := solverOf (Job_Build 5 1 (0, demoS) σ) in
  let σ := snd (NewJob "b" σ) in
  let σ := solverOf (Job_Build 5 3 (0, demoT) σ) in
  solverOf (state_getEdge 5 [] "t" 0 σ).

(** Then edge 0 of [demoS] was merged into the edge object 6. *)
Definition merged : Solver :=
  match Solver_setEdge 5 (0, demoS) 6 twoBuilds with
  | Done σ => σ
  | _ => emptySolver
  end.

(** Then job 9 ("c") built [demoS] as well. *)
Definition mergedThenBuilt : Solver :=
  solverOf (Job_Build 5 9 (0, demoS) (snd (NewJob "c" merged))).

(** [twoBuilds] after job 3 was discarded: the states of [demoT] and
    [demoU] are gone, the edge object 6 is still there. *)
Definition targetGone : Solver :=
  match Discard 5 3 twoBuilds with
  | Done σ => σ
  | _ => emptySolver
  end.


(** Job 1 built the vertex "d" with IgnoreCache unset; then it loaded "d"
    with IgnoreCache set. *)
Definition builtD : Solver :=
  solverOf (Job_Build 5 1 (0, leaf "d" false) (snd (NewJob "a" emptySolver))).

Definition rekeyed : Solver :=
  solverOf (load 5 (leaf "d" true) None (Some 1) builtD).

(** ** The value store of a job *)

Section JobValues.
Context {Value F : Type}.

(** A [Job], as far as its value store goes: [values] is the [sync.Map]. *)
Record Job := {
  job_id : string;
  SessionID : string;
  values : gmap string Value;
}.

(** [Job.SetValue]. *)
Definition SetValue (key : string) (v : Value) (j : Job) : Job :=
  {| job_id := job_id j; SessionID := SessionID j;
     values := <[key := v]> (values j) |}.

(** [Job.EachValue]: what [fn] returned (nil without a value), the state
    of [fn], and the values [fn] was called on. *)
Definition EachValue (key : string) (fn : Value → F → option string * F)
  (j : Job) (a : F) : option string * F * list Value :=
  match values j !! key with
  | Some v => let '(err, a) := fn v a in (err, a, [v])
  | None => (None, a, [])
  end.

(** A fresh job: nothing stored. *)
Definition newJob (id : string) : Job :=
  {| job_id := id; SessionID := ""; values := ∅ |}.

(** The value most recently stored under [key] by a sequence of
    [SetValue] calls, oldest first. *)
Definition lastStored (key : string) (calls : list (string * Value)) : option Value :=
  last (omap (λ c, if decide (fst c = key) then Some (snd c) else None) calls).

Definition setValues (calls : list (string * Value)) (j : Job) : Job :=
  foldl (λ j c, SetValue (fst c) (snd c) j) j calls.

End JobValues.

(** ** Looking up states and edges *)

Section Lookups.
Context `{Runtime}.

(** [Solver.getState]: the state of the vertex of [e], nil without one. *)
Definition Solver_getState (e : nat * Vertex) (σ : Solver) : option state :=
  actives σ !! Vertex_Digest (snd e).

(** [Solver.getEdge]: nil when the vertex of [e] has no state. *)
Definition Solver_getEdge (fuel : nat) (e : nat * Vertex) (σ : Solver)
  : outcome (option nat * Solver) :=
  match actives σ !! Vertex_Digest (snd e) with
  | None => Done (None, σ)
  | Some _ =>
    do (r, σ) <- state_getEdge fuel [] (Vertex_Digest (snd e)) (fst e) σ;
    Done (Some r, σ)
  end.

End Lookups.

(** ** Relations on the registry used to state what progress and
    provenance do *)

Section Relations.
Context `{Runtime}.

(** One step from an active state to one of its parents. *)
Definition parentStep (σ : Solver) (a b : string) : Prop :=
  ∃ sa, actives σ !! a = Some sa ∧ b ∈ parents sa.

(** Two registries have the same states with the same jobs and parents. *)
Definition sameLinks (σ σ' : Solver) : Prop :=
  ∀ k, option_Forall2 (λ s s', jobs s' = jobs s ∧ parents s' = parents s)
         (actives σ !! k) (actives σ' !! k).

End Relations.

(** ** What teardown does to writers *)

Section Writers.
Context `{Runtime}.

(** From [σ] to [σ'] no state appeared and no state gained a writer. *)
Definition pwKept (σ σ' : Solver) : Prop :=
  ∀ k s', actives σ' !! k = Some s' →
          ∃ s, actives σ !! k = Some s ∧ allPw s' ⊆ allPw s.

End Writers.

(** ** Walking the provenance *)

Section Provenance.
Context `{Runtime}.
Context {F : Type}.

(** The loop over [e.Vertex.Inputs()] in [walkProvenance], by itself. *)
Fixpoint walkInputs (ins : list (nat * Vertex)) (f : Op → F → option string * F)
  (σ : Solver) (w : gset string * F * list Op)
  : option string * (gset string * F * list Op) :=
  match ins with
  | [] => (None, w)
  | inp :: ins =>
    match walkProvenance (snd inp) f σ w with
    | (Some err, w) => (Some err, w)
    | (None, w) => walkInputs ins f σ w
    end
  end.

(** What [walkProvenance] does at one vertex: it calls [f] on the op of the
    state of the vertex if there is such a state, its op is resolved and
    that op is a [ProvenanceProvider]. *)
Definition walkVisit (d : string) (f : Op → F → option string * F)
  (σ : Solver) (a : F) (log : list Op) : option string * F * list Op :=
  match actives σ !! d with
  | Some st =>
    match op st with
    | Some so =>
      match so_op so with
      | Some o =>
        if op_provenance o then
          let '(err, a) := f o a in (err, a, log ++ [o])
        else (None, a, log)
      | None => (None, a, log)
      end
    | None => (None, a, log)
    end
  | None => (None, a, log)
  end.

(** The digests of the vertices reached from [v] through [Inputs()]. *)
Fixpoint digestsOf (v : Vertex) : gset string :=
  match v with
  | clientVertex d _ _ ins =>
    {[d]} ∪ (fix go (l : list (nat * Vertex)) : gset string :=
               match l with
               | [] => ∅
               | e :: l => digestsOf (snd e) ∪ go l
               end) ins
  | vertexWithCacheOptions _ d ins =>
    {[d]} ∪ (fix go (l : list (nat * Vertex)) : gset string :=
               match l with
               | [] => ∅
               | e :: l => digestsOf (snd e) ∪ go l
               end) ins
  end.

(** The calls of the callback: [Calls f a os err a'] says that [f], started
    in state [a] and called on the providers [os] one after the other, ends
    in state [a'], that every call but the last returned nil, and that
    [err] is what the last call returned (nil when there was no call). *)
Inductive Calls (f : Op → F → option string * F)
  : F → list Op → option string → F → Prop :=
| Calls_nil a : Calls f a [] None a
| Calls_last a o err a' : f o a = (err, a') → Calls f a [o] err a'
| Calls_cons a o a1 os err a' :
    f o a = (None, a1) → Calls f a1 os err a' → Calls f a (o :: os) err a'.

(** [o] is the resolved op of an active state whose digest is in [D], and
    a [ProvenanceProvider]. *)
Definition providerIn (σ : Solver) (D : gset string) (o : Op) : Prop :=
  op_provenance o = true ∧
  ∃ d st so, d ∈ D ∧ actives σ !! d = Some st ∧ op st = Some so ∧ so_op so = Some o.

End Provenance.

(** ** More registries to run the model on *)

(** [twoBuilds] after a sub-build of the vertex "x" under [demoT]: the
    state of "x" has the parent "t" and no job. *)
Definition subBuilt : Solver :=
  solverOf (subBuild 5 (0, leaf "x" false) demoT twoBuilds).

(** [twoBuilds] with the op of the state of [demoS] resolved to a
    provenance provider. *)
Definition resolvedS : Solver :=
  match actives twoBuilds !! "s" with
  | Some st =>
    setState "s"
      (setOpEdges (Some {| so_op := Some {| op_id := 1; op_provenance := true |} |})
                  (edges st) st) twoBuilds
  | None => twoBuilds
  end.

(** ** What a load leaves for a job *)

Section Holding.
Context `{Runtime}.

(** The job [j] holds a state for the digest [d]: a state under [d] or
    under the ignore-cache digest of [d] has [j] among its jobs. *)
Definition holdsFor (σ : Solver) (j : nat) (d : string) : Prop :=
  ∃ k st, (k = d ∨ k = ignoreCacheDigest d) ∧
          actives σ !! k = Some st ∧ j ∈ jobs st.

(** From [σ] to [σ'] no state went and no state lost a job. *)
Definition jobsKept (σ σ' : Solver) : Prop :=
  ∀ k st, actives σ !! k = Some st →
          ∃ st', actives σ' !! k = Some st' ∧ jobs st ⊆ jobs st'.

End Holding.

End Registry.

(** ** sharedOp: the slow cache keys *)

Module SlowCache.
Import SharedOp.

(** What [CalcSlowCache] takes from outside [jobs.go], besides the
    collaborators of [sharedOp]. *)
Class SlowCollab `{Collab} := {
  (* errors.Errorf("failed to get state for index %d on %v", index, name) *)
  stateError : nat → string → Error;
  (* &SlowCacheError{Index: index, Result: res, error: err}, as an error *)
  SlowCacheError : Error → nat → Result → Error;
  (* ctx2: progress.WithProgress(ctx, st.mpw) with the span of the state st
     of the input *)
  inputCtx : Ctx → Registry.state → Ctx;
  (* progress.WithProgress(ctx, s.st.mpw) with trace.ContextWithSpan *)
  progressCtx : Ctx → Ctx;
  (* withAncestorCacheOpts(ctx, s.st) *)
  ancestorCtx : Ctx → Ctx;
}.

Section Model.
Context `{SlowCollab}.

(** [PreprocessFunc] and [ResultBasedCacheFunc]: the context, the result,
    the state handed over, the world. *)
Definition PreprocessFunc : Type :=
  Ctx → Result → Registry.state → World → option Error * World.

Definition ResultBasedCacheFunc : Type :=
  Ctx → Result → Registry.state → World → (string * option Error) * World.

(** The fields of [sharedOp] that [CalcSlowCache] uses.  An entry of
    [slowCacheErr] can hold nil. *)
Record slowCache := {
  slowCacheRes : gmap nat string;
  slowCacheErr : gmap nat (option Error);
}.

(** As [newSharedOp] makes them. *)
Definition newSlowCache : slowCache :=
  {| slowCacheRes := ∅; slowCacheErr := ∅ |}.

(** What a call does outside the sharedOp, in order. *)
Inductive SlowEvent :=
| SvPreprocess (index : nat) (e : option Error)
| SvCompute (index : nat) (e : option Error)
| SvReleaseError (e : Error)
| SvNotifyStarted
| SvNotifyCompleted (e : Error).

Record SlowMachine := {
  sc : slowCache;
  sworld : World;
  strace : list SlowEvent;
}.

Definition semit (e : SlowEvent) (m : SlowMachine) : SlowMachine :=
  {| sc := sc m; sworld := sworld m; strace := strace m ++ [e] |}.

Definition ssetWorld (w : World) (m : SlowMachine) : SlowMachine :=
  {| sc := sc m; sworld := w; strace := strace m |}.

Definition ssetSc (s : slowCache) (m : SlowMachine) : SlowMachine :=
  {| sc := s; sworld := sworld m; strace := strace m |}.

(** [WrapSlowCache]. *)
Definition WrapSlowCache (err : option Error) (index : nat) (res : Result)
  : option Error :=
  match err with
  | None => None
  | Some e => Some (SlowCacheError e index res)
  end.

(** Modelled from the spec: [flightcontrol.Group.Do], as [SharedOp.Do]: a
    caller that finds no call in flight under [key] runs [fn] itself. *)
Definition DoSlow {T : Type} (ctx : Ctx) (key : string)
  (fn : Ctx → SlowMachine → T) (m : SlowMachine) : T := fn ctx m.

(** The flight function of [CalcSlowCache] from [complete := true] to the
    call of [f]: the key, the error, the context that the check for
    cancellation will look at; or the error it returns at once when the
    state of the input is missing.  [σ] is the registry, [st] the state the
    sharedOp belongs to. *)
Definition slowCompute (σ : Registry.Solver) (st : Registry.state) (index : nat)
  (p : option PreprocessFunc) (f : option ResultBasedCacheFunc) (res : Result)
  (ctx : Ctx) (m : SlowMachine)
  : outcome ((string * option Error * Ctx * SlowMachine) + Error) :=
  do pre <-
    match p with
    | None => Done (inl (None, f, ctx, m))
    | Some p =>
      match Registry.Vertex_Inputs (Registry.vtx st) !! index with
      | None => Panic              (* s.st.vtx.Inputs()[index] out of range *)
      | Some e =>
        match Registry.Solver_getState e σ with
        | None => Done (inr (stateError index (Registry.Vertex_Name (Registry.vtx st))))
        | Some ist =>
          let ctx2 := inputCtx ctx ist in
          let '(err, w) := p ctx2 res ist (sworld m) in
          let m := semit (SvPreprocess index err) (ssetWorld w m) in
          match err with
          | Some _ => Done (inl (err, None, ctx2, m))
          | None => Done (inl (None, f, ctx, m))
          end
        end
      end
    end;
  match pre with
  | inr e => Done (inr e)
  | inl (err, f, ctx, m) =>
    match f with
    | None => Done (inl (""%string, err, ctx, m))
    | Some f =>
      let ctx := progressCtx ctx in
      let '((key, err), w) := f (ancestorCtx ctx) res st (sworld m) in
      Done (inl (key, err, ctx, semit (SvCompute index err) (ssetWorld w m)))
    end
  end.

(** The flight function of [CalcSlowCache] from the check for cancellation
    on: a pure cancellation is released and not stored; anything else is
    stored, the key when there is no error, and the error (nil too). *)
Definition slowSettle (index : nat) (key : string) (err : option Error)
  (ctx : Ctx) (m : SlowMachine) : (string * option Error) * SlowMachine :=
  if cancelled ctx (sworld m) err then
    ((key, wrapCause ctx (sworld m) <$> err),
     match err with
     | Some e0 => semit (SvReleaseError e0) m
     | None => m
     end)
  else
    ((key, err),
     ssetSc {| slowCacheRes :=
                 match err with
                 | None => <[index := key]> (slowCacheRes (sc m))
                 | Some _ => slowCacheRes (sc m)
                 end;
               slowCacheErr := <[index := err]> (slowCacheErr (sc m)) |} m).

(** The function [CalcSlowCache] hands to the single-flight group. *)
Definition slowFlight (σ : Registry.Solver) (st : Registry.state) (index : nat)
  (p : option PreprocessFunc) (f : option ResultBasedCacheFunc) (res : Result)
  (ctx : Ctx) (m : SlowMachine) : outcome ((string * option Error) * SlowMachine) :=
  match slowCacheRes (sc m) !! index with
  | Some r => Done ((r, None), m)
  | None =>
    match slowCacheErr (sc m) !! index with
    | Some (Some e) => Done ((""%string, Some e), m)
    | _ =>
      do r <- slowCompute σ st index p f res ctx m;
      match r with
      | inr e => Done ((""%string, Some e), m)
      | inl (key, err, ctx, m) => Done (slowSettle index key err ctx m)
      end
    end
  end.

(** [sharedOp.CalcSlowCache]. *)
Definition sharedOp_CalcSlowCache (σ : Registry.Solver) (st : Registry.state)
  (ctx : Ctx) (index : nat) (p : option PreprocessFunc)
  (f : option ResultBasedCacheFunc) (res : Result) (m : SlowMachine)
  : outcome ((string * option Error) * SlowMachine) :=
  do ((key, err), m) <-
    DoSlow ctx ("slow-compute-" +:+ pretty index)%string
      (slowFlight σ st index p f res) m;
  match err with
  | Some e =>
    let m := semit (SvNotifyCompleted e) (semit SvNotifyStarted m) in
    Done ((""%string,
           wrapOpVertex <$> WrapSlowCache (Some e) index (Clone (NewSharedResult res))),
          m)
  | None => Done ((key, None), m)
  end.

(** The calls of [CalcSlowCache] made on one sharedOp, each with the
    registry and the state as they are at the call. *)
Record SlowCall := {
  call_σ : Registry.Solver;
  call_st : Registry.state;
  call_ctx : Ctx;
  call_index : nat;
  call_p : option PreprocessFunc;
  call_f : option ResultBasedCacheFunc;
  call_res : Result;
}.

Definition slowStep (c : SlowCall) (m : SlowMachine) : outcome SlowMachine :=
  do (_, m') <- sharedOp_CalcSlowCache (call_σ c) (call_st c) (call_ctx c)
                  (call_index c) (call_p c) (call_f c) (call_res c) m;
  Done m'.

Fixpoint runSlow (cs : list SlowCall) (m : SlowMachine) : outcome SlowMachine :=
  match cs with
  | [] => Done m
  | c :: cs => do m' <- slowStep c m; runSlow cs m'
  end.

(** Invocations of the preprocess function and of the cache function. *)
Definition isSlowInvocation (e : SlowEvent) : bool :=
  match e with
  | SvPreprocess _ _ | SvCompute _ _ => true
  | _ => false
  end.

End Model.

(** An instance over [SharedOp.demo]. *)
Definition demoSlow : @SlowCollab demo :=
  @Build_SlowCollab demo
    (λ index _, 40 + index)
    (λ e index _, e + 300 * S index)
    (λ ctx _, ctx)
    (λ ctx, ctx)
    (λ ctx, ctx).

(** A state to run the model on: the state of [demoT], whose input 0 is
    [demoU], as [load] makes it. *)
Definition demoState : Registry.state :=
  {| Registry.sid := 0; Registry.jobs := ∅; Registry.parents := ∅;
     Registry.childVtx := ∅; Registry.mpw := []; Registry.allPw := ∅;
     Registry.vtx := Registry.demoT; Registry.origDigest := "t";
     Registry.op := None; Registry.edges := ∅; Registry.cache := ∅;
     Registry.mainCache := Registry.DefaultCache Registry.emptySolver |}.

(** A cache function that returns the digest "k" and one that fails with
    the error [e]; a preprocess function that fails with [e].  Each counts
    its calls in the world. *)
Definition demoKey : @ResultBasedCacheFunc demo :=
  λ _ _ _ w, (("k"%string, None), S w).

Definition demoKeyFails (e : nat) : @ResultBasedCacheFunc demo :=
  λ _ _ _ w, ((""%string, Some e), S w).

Definition demoPreFails (e : nat) : @PreprocessFunc demo :=
  λ _ _ _ w, (Some e, S w).

Definition slowInitial : @SlowMachine demo :=
  {| sc := @newSlowCache demo; sworld := 0; strace := [] |}.

End SlowCache.

(** * Properties *)

Lemma obind_Done {A B : Type} (m : outcome A) (k : A → outcome B) (b : B) :
  obind m k = Done b → ∃ a, m = Done a ∧ k a = Done b.
Proof. destruct m; simpl; intros; try discriminate; eauto. Qed.

Ltac obind_inv H :=
  let a := fresh "a" in
  let Ha := fresh "Ha" in
  apply obind_Done in H; destruct H as (a & Ha & H).

Tactic Notation "obind_as" hyp(H) "as" simple_intropattern(a) ident(Ha) :=
  apply obind_Done in H; destruct H as (a & Ha & H).

(** ** Memoisation in sharedOp *)

Module SharedOpFacts.
Import SharedOp.

Section Facts.
Context `{Collab}.

Lemma getOp_resolved (m : Machine) :
  opOnce (so m) = true →
  getOp m = ((match err (so m) with Some _ => None | None => op (so m) end,
              err (so m)), m).
Proof. intros Ho. unfold getOp. rewrite Ho. destruct (err (so m)); reflexivity. Qed.

(** After [getOp] the op is resolved, and stays so. *)
Lemma getOp_opOnce (m m1 : Machine) r :
  getOp m = (r, m1) → opOnce (so m1) = true.
Proof.
  unfold getOp. destruct (opOnce (so m)) eqn:Ho.
  - destruct (err (so m)); intros [= <- <-]; exact Ho.
  - destruct (resolver (world m)) as [[o e] w]; simpl.
    destruct e; intros [= <- <-]; reflexivity.
Qed.

Lemma getOp_result (m m1 : Machine) o e :
  getOp m = ((o, e), m1) →
  err (so m1) = e ∧ (e = None → op (so m1) = o).
Proof.
  unfold getOp. destruct (opOnce (so m)) eqn:Ho.
  - destruct (err (so m)) eqn:He; intros [= <- <- <-]; rewrite He; split; congruence.
  - destruct (resolver (world m)) as [[o' e'] w]; simpl.
    destruct e'; intros [= <- <- <-]; simpl; split; congruence.
Qed.

(** [getOp] leaves the exec and cache-map memo fields and the exec events
    alone. *)
Lemma getOp_frame (m m1 : Machine) r :
  getOp m = (r, m1) →
  so_execRes (so m1) = so_execRes (so m) ∧ execDone (so m1) = execDone (so m) ∧
  execErr (so m1) = execErr (so m) ∧ cacheRes (so m1) = cacheRes (so m) ∧
  cacheDone (so m1) = cacheDone (so m) ∧ cacheErr (so m1) = cacheErr (so m) ∧
  filter isExecEvent (trace m1) = filter isExecEvent (trace m) ∧
  filter isCacheMapEvent (trace m1) = filter isCacheMapEvent (trace m).
Proof.
  unfold getOp. destruct (opOnce (so m)) eqn:Ho.
  - destruct (err (so m)); intros [= <- <-]; repeat split; reflexivity.
  - destruct (resolver (world m)) as [[o e] w]; simpl.
    destruct e; intros [= <- <-]; simpl; rewrite !filter_app; simpl;
      rewrite !app_nil_r; repeat split; reflexivity.
Qed.

(** A memoised success is returned as it is: no call into the op, no
    change of the sharedOp. *)
Lemma Exec_of_memoised (m : Machine) outs exps ctx inputs :
  memoised outs exps m →
  sharedOp_Exec ctx inputs m = Done ((Some outs, exps, None), m).
Proof.
  intros (Ho & He & Hd & Hee & r & Hr & -> & ->).
  unfold sharedOp_Exec. rewrite (getOp_resolved m Ho), He.
  unfold Do, execFlight. rewrite Hd, Hee, Hr. reflexivity.
Qed.

Ltac flight_cases :=
  repeat match goal with
  | |- context [let '(_, _) := ?x in _] => destruct x as [? ?] eqn:?
  | |- context [match ?x with _ => _ end] =>
      lazymatch type of x with
      | option _ => destruct x eqn:?
      | bool => destruct x eqn:?
      | prod _ _ => destruct x as [? ?] eqn:?
      end
  | |- context [if ?x then _ else _] => destruct x eqn:?
  end; simpl in *.

(** What the flight function of [Exec] leaves behind. *)
Lemma execFlight_inv o inputs ctx (m m' : Machine) r e :
  execFlight o inputs ctx m = Done ((r, e), m') →
  opOnce (so m') = opOnce (so m) ∧ err (so m') = err (so m) ∧
  cacheRes (so m') = cacheRes (so m) ∧ cacheDone (so m') = cacheDone (so m) ∧
  cacheErr (so m') = cacheErr (so m) ∧
  filter isCacheMapEvent (trace m') = filter isCacheMapEvent (trace m) ∧
  (e = None → r = so_execRes (so m') ∧ execDone (so m') = true ∧
              execErr (so m') = None) ∧
  (execDone (so m) = true → m' = m).
Proof.
  unfold execFlight. flight_cases; intros Heq; simplify_eq; simpl;
    rewrite ?filter_app; simpl; rewrite ?app_nil_r;
    repeat split; try congruence; try reflexivity; try discriminate.
Qed.

Lemma Exec_success_memoised (m m1 : Machine) ctx inputs outs exps :
  sharedOp_Exec ctx inputs m = Done ((Some outs, exps, None), m1) →
  memoised outs exps m1.
Proof.
  unfold sharedOp_Exec. destruct (getOp m) as [[o e] m0] eqn:Hg.
  destruct e as [e|]; [discriminate|].
  intros Hx. obind_inv Hx. destruct a as [[r e] m2].
  unfold Do in Ha.
  destruct (execFlight_inv _ _ _ _ _ _ _ Ha) as (Ho & He & _ & _ & _ & _ & Hs & _).
  destruct r as [r|]; [|discriminate]. destruct e as [e|]; [discriminate|].
  injection Hx as <- <- <-.
  destruct (Hs eq_refl) as (Hr & Hd & Hee).
  destruct (getOp_result _ _ _ _ Hg) as [He0 _].
  unfold memoised. rewrite Ho, He, (getOp_opOnce _ _ _ Hg), He0, Hd, Hee.
  repeat split. exists r. rewrite <- Hr. repeat split.
Qed.

Lemma getOp_trace (m m1 : Machine) r :
  getOp m = (r, m1) → trace m1 = trace m ∨ trace m1 = trace m ++ [EvResolve].
Proof.
  unfold getOp. destruct (opOnce (so m)).
  - destruct (err (so m)); intros [= <- <-]; auto.
  - destruct (resolver (world m)) as [[o e] w]; simpl.
    destruct e; intros [= <- <-]; auto.
Qed.

(** At most one successful [Op.Exec] is on record, and none before
    [execDone] is set. *)
Definition onceInv (m : Machine) : Prop :=
  length (filter isExecSuccess (trace m)) ≤ (if execDone (so m) then 1 else 0).

Lemma getOp_onceInv (m m1 : Machine) r :
  getOp m = (r, m1) → onceInv m → onceInv m1.
Proof.
  intros Hg. unfold onceInv.
  destruct (getOp_frame _ _ _ Hg) as (_ & -> & _).
  destruct (getOp_trace _ _ _ Hg) as [-> | ->]; [auto|].
  rewrite filter_app; simpl. rewrite app_nil_r. auto.
Qed.

Lemma execFlight_onceInv o inputs ctx (m m' : Machine) r :
  execFlight o inputs ctx m = Done (r, m') → onceInv m → onceInv m'.
Proof.
  unfold execFlight, onceInv.
  destruct (execDone (so m)) eqn:Hd.
  - destruct (execErr (so m)); intros [= <- <-]; rewrite Hd; auto.
  - flight_cases; intros Heq Hc; simplify_eq; simpl;
      rewrite ?filter_app; simpl; rewrite ?app_nil_r, ?length_app; simpl;
      rewrite ?Hd; simpl; lia.
Qed.

Lemma cacheMapFlight_inv o index ctx (m m' : Machine) r :
  cacheMapFlight o index ctx m = Done (r, m') →
  opOnce (so m') = opOnce (so m) ∧ err (so m') = err (so m) ∧
  op (so m') = op (so m) ∧
  so_execRes (so m') = so_execRes (so m) ∧ execDone (so m') = execDone (so m) ∧
  execErr (so m') = execErr (so m) ∧
  filter isExecEvent (trace m') = filter isExecEvent (trace m) ∧
  filter isExecSuccess (trace m') = filter isExecSuccess (trace m).
Proof.
  unfold cacheMapFlight. flight_cases; intros Heq; simplify_eq; simpl;
    rewrite ?filter_app; simpl; rewrite ?app_nil_r;
    repeat split; reflexivity.
Qed.

(** [CacheMap] does not touch what [Exec] memoised. *)
Lemma CacheMap_frame fuel ctx index (m m' : Machine) r :
  sharedOp_CacheMap fuel ctx index m = Done (r, m') →
  (opOnce (so m) = true → opOnce (so m') = true ∧ err (so m') = err (so m)) ∧
  so_execRes (so m') = so_execRes (so m) ∧ execDone (so m') = execDone (so m) ∧
  execErr (so m') = execErr (so m) ∧
  filter isExecEvent (trace m') = filter isExecEvent (trace m) ∧
  filter isExecSuccess (trace m') = filter isExecSuccess (trace m).
Proof.
  revert m m' r. induction fuel as [|fuel IH]; intros m m' r; [discriminate|].
  simpl. destruct (getOp m) as [[o e] m0] eqn:Hg.
  assert (Hg0 : (opOnce (so m) = true → opOnce (so m0) = true ∧ err (so m0) = err (so m)) ∧
    so_execRes (so m0) = so_execRes (so m) ∧ execDone (so m0) = execDone (so m) ∧
    execErr (so m0) = execErr (so m) ∧
    filter isExecEvent (trace m0) = filter isExecEvent (trace m) ∧
    filter isExecSuccess (trace m0) = filter isExecSuccess (trace m)).
  { destruct (getOp_frame _ _ _ Hg) as (E1 & E2 & E3 & _ & _ & _ & E4 & _).
    split; [intros Hon; split|repeat split; auto].
    - eapply getOp_opOnce; eauto.
    - rewrite (getOp_resolved m Hon) in Hg. by injection Hg as _ _ <-.
    - destruct (getOp_trace _ _ _ Hg) as [-> | ->]; [auto|].
      rewrite filter_app; simpl. by rewrite app_nil_r. }
  destruct e as [e|]; [intros [= <- <-]; exact Hg0|].
  intros Hx. obind_inv Hx. destruct a as [[res e] m2]. unfold Do in Ha.
  destruct (cacheMapFlight_inv _ _ _ _ _ _ Ha) as (F1 & F2 & F3 & F4 & F5 & F6 & F7 & F8).
  destruct Hg0 as (G1 & G2 & G3 & G4 & G5 & G6).
  assert (Hm2 : (opOnce (so m) = true → opOnce (so m2) = true ∧ err (so m2) = err (so m)) ∧
    so_execRes (so m2) = so_execRes (so m) ∧ execDone (so m2) = execDone (so m) ∧
    execErr (so m2) = execErr (so m) ∧
    filter isExecEvent (trace m2) = filter isExecEvent (trace m) ∧
    filter isExecSuccess (trace m2) = filter isExecSuccess (trace m)).
  { split; [intros Hon; split|repeat split; congruence].
    - rewrite F1. by apply G1.
    - rewrite F2. by apply G1. }
  destruct e as [e|]; [injection Hx as <- <-; exact Hm2|].
  case_bool_decide.
  - obind_inv Hx. destruct a as [[r' e'] m3]. injection Hx as <- <-.
    destruct (IH _ _ _ Ha0) as (I1 & I2 & I3 & I4 & I5 & I6).
    destruct Hm2 as (J1 & J2 & J3 & J4 & J5 & J6).
    split; [intros Hon; split|repeat split; congruence].
    + apply I1, J1, Hon.
    + destruct (J1 Hon) as [K1 K2]. destruct (I1 K1) as [_ K3]. congruence.
  - destruct (res !! index); [|discriminate]. injection Hx as <- <-. exact Hm2.
Qed.

Lemma Exec_onceInv ctx inputs (m m' : Machine) r :
  sharedOp_Exec ctx inputs m = Done (r, m') → onceInv m → onceInv m'.
Proof.
  unfold sharedOp_Exec. destruct (getOp m) as [[o e] m0] eqn:Hg.
  intros Hx Hi. pose proof (getOp_onceInv _ _ _ Hg Hi) as Hi0.
  destruct e as [e|]; [by injection Hx as _ <-|].
  obind_inv Hx. destruct a as [[res e] m2]. unfold Do in Ha.
  pose proof (execFlight_onceInv _ _ _ _ _ _ Ha Hi0) as Hi2.
  destruct res, e; by injection Hx as _ <-.
Qed.

Lemma step_onceInv c (m m' : Machine) :
  step c m = Done m' → onceInv m → onceInv m'.
Proof.
  destruct c as [ctx inputs | fuel ctx index]; simpl; intros Hs Hi;
    obind_inv Hs; destruct a as [r m0]; injection Hs as <-.
  - eapply Exec_onceInv; eauto.
  - destruct (CacheMap_frame _ _ _ _ _ _ Ha) as (_ & _ & Hd & _ & _ & Hf).
    unfold onceInv. by rewrite Hd, Hf.
Qed.

Lemma run_onceInv cs (m m' : Machine) :
  run cs m = Done m' → onceInv m → onceInv m'.
Proof.
  revert m. induction cs as [|c cs IH]; simpl; intros m Hr Hi.
  - by injection Hr as <-.
  - obind_inv Hr. eapply IH; eauto using step_onceInv.
Qed.

Lemma step_memoised c (m m' : Machine) outs exps :
  step c m = Done m' → memoised outs exps m →
  memoised outs exps m' ∧
  filter isExecEvent (trace m') = filter isExecEvent (trace m).
Proof.
  destruct c as [ctx inputs | fuel ctx index]; simpl; intros Hs Hm;
    obind_inv Hs; destruct a as [r m0]; injection Hs as <-.
  - rewrite (Exec_of_memoised m outs exps ctx inputs Hm) in Ha.
    by injection Ha as _ <-.
  - destruct (CacheMap_frame _ _ _ _ _ _ Ha) as (Ho & Hr & Hd & He & Hf & _).
    destruct Hm as (M1 & M2 & M3 & M4 & M5). destruct (Ho M1) as [O1 O2].
    split; [|exact Hf]. unfold memoised. rewrite O1, O2, Hr, Hd, He. auto.
Qed.

Lemma run_memoised cs (m m' : Machine) outs exps :
  run cs m = Done m' → memoised outs exps m →
  memoised outs exps m' ∧
  filter isExecEvent (trace m') = filter isExecEvent (trace m).
Proof.
  revert m. induction cs as [|c cs IH]; simpl; intros m Hr Hm.
  - by injection Hr as <-.
  - obind_inv Hr. destruct (step_memoised _ _ _ _ _ Ha Hm) as [Hm' Hf].
    destruct (IH _ Hr Hm') as [Hm'' Hf']. split; [done|congruence].
Qed.

(** C1.  Once a call of [sharedOp.Exec] has returned successfully, every
    later [Exec] on that sharedOp, whatever calls came in between, returns
    the same outputs and exporters and leaves the machine as it is, and no
    call after the successful one adds a call of [Op.Acquire] or [Op.Exec]
    to the trace.  Over any sequence of calls on a fresh sharedOp at most
    one invocation of [Op.Exec] returns without error. *)
Theorem Exec_memoised_at_most_once :
  (∀ (m m1 : Machine) ctx inputs outs exps,
      sharedOp_Exec ctx inputs m = Done ((Some outs, exps, None), m1) →
      ∀ cs m2, run cs m1 = Done m2 →
        (∀ ctx' inputs',
            sharedOp_Exec ctx' inputs' m2 = Done ((Some outs, exps, None), m2)) ∧
        filter isExecEvent (trace m2) = filter isExecEvent (trace m1)) ∧
  (∀ w cs (m : Machine),
      run cs (initial w) = Done m →
      length (filter isExecSuccess (trace m)) ≤ 1).
Proof.
  split.
  - intros m m1 ctx inputs outs exps Hx cs m2 Hr.
    pose proof (Exec_success_memoised _ _ _ _ _ _ Hx) as Hm.
    destruct (run_memoised _ _ _ _ _ Hr Hm) as [Hm2 Hf].
    split; [|exact Hf]. intros ctx' inputs'. by apply Exec_of_memoised.
  - intros w cs m Hr.
    assert (Hi : onceInv (initial w)) by (unfold onceInv; simpl; lia).
    pose proof (run_onceInv _ _ _ Hr Hi) as Hm. unfold onceInv in Hm.
    destruct (execDone (so m)); lia.
Qed.

Lemma Exec_of_errMemoised (m : Machine) e ctx inputs :
  errMemoised e m →
  sharedOp_Exec ctx inputs m = Done ((None, [], Some (wrapOpVertex e)), m).
Proof.
  intros (Ho & He & Hd & Hee).
  unfold sharedOp_Exec. rewrite (getOp_resolved m Ho), He.
  unfold Do, execFlight. rewrite Hd, Hee. reflexivity.
Qed.

Lemma run_errMemoised cs (m m' : Machine) e :
  run cs m = Done m' → errMemoised e m →
  errMemoised e m' ∧
  filter isExecEvent (trace m') = filter isExecEvent (trace m).
Proof.
  revert m. induction cs as [|c cs IH]; simpl; intros m Hr Hm.
  - by injection Hr as <-.
  - obind_inv Hr.
    assert (Hs : errMemoised e a ∧
                 filter isExecEvent (trace a) = filter isExecEvent (trace m)).
    { destruct c as [ctx inputs | fuel ctx index]; simpl in Ha;
        obind_inv Ha; destruct a0 as [r m0]; injection Ha as <-.
      - rewrite (Exec_of_errMemoised m e ctx inputs Hm) in Ha0.
        by injection Ha0 as _ <-.
      - destruct (CacheMap_frame _ _ _ _ _ _ Ha0) as (Ho & _ & Hd & He & Hf & _).
        destruct Hm as (M1 & M2 & M3 & M4). destruct (Ho M1) as [O1 O2].
        split; [|exact Hf]. unfold errMemoised. rewrite O1, O2, Hd, He. auto. }
    destruct Hs as [Hm' Hf]. destruct (IH _ Hr Hm') as [Hm'' Hf'].
    split; [done|congruence].
Qed.

(** One run of the flight function of [Exec] that reaches [Op.Exec]. *)
Lemma execFlight_run o inputs ctx (m : Machine) w1 res e subs w2 :
  execDone (so m) = false →
  Op_Acquire o ctx (world m) = (None, w1) →
  Op_Exec o (stateCtx ctx) inputs w1 = ((res, e, subs), w2) →
  ∃ r m' evs,
    execFlight (Some o) inputs ctx m = Done (r, m') ∧
    trace m' = trace m ++ EvAcquire :: EvNotifyStarted :: EvOpExec inputs e :: evs ∧
    opOnce (so m') = opOnce (so m) ∧ err (so m') = err (so m) ∧
    op (so m') = op (so m) ∧
    (if cancelled (stateCtx ctx) w2 e
     then r = (None, wrapCause (stateCtx ctx) w2 <$> e) ∧
          execDone (so m') = false ∧ execErr (so m') = execErr (so m)
     else execDone (so m') = true ∧ execErr (so m') = e ∧
          (∀ e0, e = Some e0 → r = (None, Some e0))).
Proof.
  intros Hd Ha Hx. unfold execFlight. rewrite Hd, Ha. simpl. rewrite Hx. simpl.
  destruct (cancelled (stateCtx ctx) w2 e) eqn:Hc; simpl.
  - destruct e as [e|]; [|discriminate]. simpl.
    eexists _, _, _. split; [reflexivity|]. simpl.
    rewrite <- !app_assoc. simpl. repeat split; try reflexivity.
    + destruct (so_execRes (so m)); reflexivity.
    + exact Hd.
  - destruct e as [e|]; simpl.
    + eexists _, _, _. split; [reflexivity|]. simpl.
      rewrite <- !app_assoc. simpl. repeat split; try reflexivity.
      intros e0 [= <-]. destruct res, (so_execRes (so m)); reflexivity.
    + eexists _, _, _. split; [reflexivity|]. simpl.
      rewrite <- !app_assoc. simpl. repeat split; try reflexivity.
      intros e0; discriminate.
Qed.

(** C3 (amended).  Take an [Exec] call that finds the op resolved and
    nothing memoised.  If [Op.Acquire] fails, its error is wrapped and
    returned and nothing is memoised.  If [Op.Acquire] succeeds and
    [Op.Exec] fails: when the error is pure cancellation (the context is
    done and the error carries the cancelled marker) nothing is memoised,
    and a later [Exec] whose [Op.Acquire] succeeds invokes [Op.Exec] again;
    any other error of [Op.Exec] is memoised and handed to every later
    caller with no further call of [Op.Acquire] or [Op.Exec]. *)
Theorem Exec_failure_memoisation (m m0 : Machine) ctx inputs o :
  getOp m = ((Some o, None), m0) →
  execDone (so m) = false →
  (∀ ea w1,
      Op_Acquire o ctx (world m0) = (Some ea, w1) →
      ∃ m1,
        sharedOp_Exec ctx inputs m
          = Done ((None, [], Some (wrapOpVertex (wrapAcquire ea))), m1) ∧
        execDone (so m1) = false ∧ execErr (so m1) = execErr (so m) ∧
        trace m1 = trace m0 ++ [EvAcquire]) ∧
  (∀ w1 res e subs w2,
      Op_Acquire o ctx (world m0) = (None, w1) →
      Op_Exec o (stateCtx ctx) inputs w1 = ((res, Some e, subs), w2) →
      ∃ m1 r,
        sharedOp_Exec ctx inputs m = Done ((None, [], Some r), m1) ∧
        if ctxDone (stateCtx ctx) w2 && IsCanceled (stateCtx ctx) w2 e
        then
          r = wrapOpVertex (wrapCause (stateCtx ctx) w2 e) ∧
          execDone (so m1) = false ∧ execErr (so m1) = execErr (so m) ∧
          (∀ ctx2 inputs2 w3 res2 e2 subs2 w4,
              Op_Acquire o ctx2 (world m1) = (None, w3) →
              Op_Exec o (stateCtx ctx2) inputs2 w3 = ((res2, e2, subs2), w4) →
              ∃ r2 m2 evs,
                sharedOp_Exec ctx2 inputs2 m1 = Done (r2, m2) ∧
                trace m2 = trace m1 ++
                  EvAcquire :: EvNotifyStarted :: EvOpExec inputs2 e2 :: evs)
        else
          r = wrapOpVertex e ∧ errMemoised e m1 ∧
          (∀ cs m2, run cs m1 = Done m2 →
              (∀ ctx2 inputs2,
                  sharedOp_Exec ctx2 inputs2 m2
                    = Done ((None, [], Some (wrapOpVertex e)), m2)) ∧
              filter isExecEvent (trace m2) = filter isExecEvent (trace m1))).
Proof.
  intros Hg Hd.
  destruct (getOp_frame _ _ _ Hg) as (_ & Hd0 & He0 & _).
  rewrite Hd in Hd0.
  pose proof (getOp_opOnce _ _ _ Hg) as Hon.
  destruct (getOp_result _ _ _ _ Hg) as [Herr Hop]. specialize (Hop eq_refl).
  split.
  - intros ea w1 Ha. unfold sharedOp_Exec. rewrite Hg. unfold Do, execFlight.
    rewrite Hd0, Ha. simpl. eexists. split; [reflexivity|]. simpl. auto.
  - intros w1 res e subs w2 Ha Hx.
    destruct (execFlight_run o inputs ctx m0 w1 res (Some e) subs w2 Hd0 Ha Hx)
      as (r & m1 & evs & Hf & Ht & Ho1 & He1 & Hop1 & Hc).
    unfold sharedOp_Exec. rewrite Hg. unfold Do. rewrite Hf. simpl.
    simpl in Hc. destruct (ctxDone (stateCtx ctx) w2 && IsCanceled (stateCtx ctx) w2 e).
    + destruct Hc as (-> & Hd1 & Hee1). simpl.
      eexists _, _. split; [reflexivity|]. repeat split; [done|congruence|].
      intros ctx2 inputs2 w3 res2 e2 subs2 w4 Ha2 Hx2.
      destruct (execFlight_run o inputs2 ctx2 m1 w3 res2 e2 subs2 w4 Hd1 Ha2 Hx2)
        as (r2 & m2 & evs2 & Hf2 & Ht2 & _).
      unfold sharedOp_Exec. rewrite getOp_resolved by congruence.
      rewrite He1, Herr, Hop1, Hop. unfold Do. rewrite Hf2. simpl.
      destruct r2 as [[r2|] [e3|]]; eexists _, _, _; (split; [reflexivity|exact Ht2]).
    + destruct Hc as (Hd1 & Hee1 & Hr). rewrite (Hr e eq_refl). simpl.
      eexists _, _. split; [reflexivity|].
      assert (Hm : errMemoised e m1) by (unfold errMemoised; repeat split; congruence).
      split; [reflexivity|]. split; [exact Hm|].
      intros cs m2 Hrun. destruct (run_errMemoised _ _ _ _ Hrun Hm) as [Hm2 Hfe].
      split; [|exact Hfe]. intros ctx2 inputs2. by apply Exec_of_errMemoised.
Qed.

Lemma cacheMapFlight_grows o index ctx (m m' : Machine) r :
  cacheMapFlight o index ctx m = Done (r, m') →
  cacheRes (so m') = cacheRes (so m) ∨ ∃ cm, cacheRes (so m') = cacheRes (so m) ++ [cm].
Proof.
  unfold cacheMapFlight. flight_cases; intros Heq; simplify_eq; simpl; eauto.
Qed.

Lemma CacheMap_cacheWf fuel ctx index (m m' : Machine) r :
  sharedOp_CacheMap fuel ctx index m = Done (r, m') → cacheWf m → cacheWf m'.
Proof.
  revert m m' r. induction fuel as [|fuel IH]; intros m m' r; [discriminate|].
  simpl. destruct (getOp m) as [[o e] m0] eqn:Hg. intros Hx Hw.
  destruct (getOp_frame _ _ _ Hg) as (_ & _ & _ & Hc & _).
  pose proof (getOp_opOnce _ _ _ Hg) as Hon.
  destruct (getOp_result _ _ _ _ Hg) as [Herr _].
  destruct e as [e|].
  - injection Hx as _ <-. intros Hne. rewrite Hc in Hne.
    destruct (Hw Hne) as [Ho He]. rewrite (getOp_resolved m Ho) in Hg.
    injection Hg as _ Hg _. congruence.
  - assert (Hw0 : opOnce (so m0) = true ∧ err (so m0) = None) by done.
    obind_inv Hx. destruct a as [[res e] m2]. unfold Do in Ha.
    destruct (cacheMapFlight_inv _ _ _ _ _ _ Ha) as (F1 & F2 & _).
    assert (Hw2 : cacheWf m2) by (intros _; split; congruence).
    destruct e as [e|]; [by injection Hx as _ <-|].
    case_bool_decide.
    + obind_inv Hx. destruct a as [[r' e'] m3]. injection Hx as _ <-. eauto.
    + destruct (res !! index); [|discriminate]. by injection Hx as _ <-.
Qed.

Lemma run_cacheWf cs (m m' : Machine) :
  run cs m = Done m' → cacheWf m → cacheWf m'.
Proof.
  revert m. induction cs as [|c cs IH]; simpl; intros m Hr Hw.
  - by injection Hr as <-.
  - obind_as Hr as mm Hs. apply (IH _ Hr).
    destruct c as [ctx inputs | fuel ctx index]; simpl in Hs;
      obind_as Hs as [r m0] Hc0; injection Hs as <-.
    + unfold sharedOp_Exec in Hc0. destruct (getOp m) as [[o e] m1] eqn:Hg.
      destruct (getOp_frame _ _ _ Hg) as (_ & _ & _ & Hc & _).
      pose proof (getOp_opOnce _ _ _ Hg) as Hon.
      destruct (getOp_result _ _ _ _ Hg) as [Herr _].
      destruct e as [e|].
      * injection Hc0 as _ <-. intros Hne. rewrite Hc in Hne.
        destruct (Hw Hne) as [Ho He]. rewrite (getOp_resolved m Ho) in Hg.
        injection Hg as _ Hg _. congruence.
      * obind_as Hc0 as [[res e] m2] Hf. unfold Do in Hf.
        destruct (execFlight_inv _ _ _ _ _ _ _ Hf) as (F1 & F2 & _).
        assert (Hw2 : cacheWf m2) by (intros _; split; congruence).
        destruct res, e; by injection Hc0 as _ <-.
    + eapply CacheMap_cacheWf; eauto.
Qed.

(** C6 (amended).  On a sharedOp reached by calls from a fresh one:
    (1) if [cacheRes] already holds position [index], [CacheMap] returns
    that entry with [complete = cacheDone], changes nothing and calls
    nothing; (2) when a failure is memoised in [cacheErr] and the position
    is missing, the memoised error is returned and [Op.CacheMap] is not
    called; (3) when the position is missing, no failure is memoised, the
    sequence is not complete and the op is resolved, the flight function
    calls [Op.CacheMap] with [len(cacheRes)] as index; (4) whenever the
    flight returns without error an array still shorter than [index+1],
    [CacheMap] calls itself again: there is no "not enough cache maps"
    error. *)
Theorem CacheMap_memoised_or_next w cs (m : Machine) ctx index :
  run cs (initial w) = Done m →
  (∀ cm fuel,
      cacheRes (so m) !! index = Some cm →
      sharedOp_CacheMap (S fuel) ctx index m
        = Done ((Some {| resp_CacheMap := cm; complete := cacheDone (so m) |},
                 None), m)) ∧
  (∀ e o m0 fuel,
      getOp m = ((o, None), m0) →
      length (cacheRes (so m)) ≤ index →
      nonNil (cacheRes (so m)) && cacheDone (so m) = false →
      cacheErr (so m) = Some e →
      sharedOp_CacheMap (S fuel) ctx index m
        = Done ((None, Some (wrapOpVertex e)), m0) ∧
      filter isCacheMapEvent (trace m0) = filter isCacheMapEvent (trace m)) ∧
  (∀ o m0 res done e w1,
      getOp m = ((Some o, None), m0) →
      length (cacheRes (so m)) ≤ index →
      nonNil (cacheRes (so m)) && cacheDone (so m) = false →
      cacheErr (so m) = None →
      Op_CacheMap o (stateCtx ctx) (length (cacheRes (so m))) (world m0)
        = ((res, done, e), w1) →
      (e = None → is_Some res) →
      ∃ r m1,
        cacheMapFlight (Some o) index ctx m0 = Done (r, m1) ∧
        filter isCacheMapEvent (trace m1)
          = filter isCacheMapEvent (trace m)
              ++ [EvOpCacheMap (length (cacheRes (so m))) e]) ∧
  (∀ o m0 res m2 fuel,
      getOp m = ((o, None), m0) →
      cacheMapFlight o index ctx m0 = Done ((res, None), m2) →
      length res ≤ index →
      sharedOp_CacheMap (S fuel) ctx index m
        = (do ((r, e), m3) <- sharedOp_CacheMap fuel ctx index m2;
           Done ((r, wrapOpVertex <$> e), m3))).
Proof.
  intros Hrun.
  assert (Hw : cacheWf m).
  { eapply run_cacheWf; [exact Hrun|]. intros Hne. by destruct Hne. }
  repeat split.
  - intros cm fuel Hcm.
    assert (Hlt : index < length (cacheRes (so m))) by (eapply lookup_lt_Some; eauto).
    destruct Hw as [Ho He]; [intros Hn; rewrite Hn in Hlt; simpl in Hlt; lia|].
    simpl. rewrite (getOp_resolved m Ho), He. unfold Do, cacheMapFlight.
    rewrite (bool_decide_true _ Hlt), orb_true_r. simpl.
    rewrite bool_decide_false by lia. by rewrite Hcm.
  - simpl. rewrite H0. unfold Do, cacheMapFlight.
    destruct (getOp_frame _ _ _ H0) as (_ & _ & _ & -> & -> & -> & _).
    rewrite H2, H3. rewrite bool_decide_false by lia. reflexivity.
  - by destruct (getOp_frame _ _ _ H0) as (_ & _ & _ & _ & _ & _ & _ & ?).
  - intros o m0 res done e w1 Hg Hle Hnd Hce Hop Hres.
    destruct (getOp_frame _ _ _ Hg) as (_ & _ & _ & Hc & Hcd & Hcerr & _ & Hf).
    unfold cacheMapFlight. rewrite Hc, Hcd, Hcerr, Hnd, Hce.
    rewrite bool_decide_false by lia. simpl.
    assert (Hw0 : world (if bool_decide (numInputs = 0)
                         then emit EvNotifyStarted m0 else m0) = world m0)
      by (case_bool_decide; reflexivity).
    rewrite Hw0, Hop. simpl.
    destruct e as [e|]; simpl.
    + destruct (ctxDone (stateCtx ctx) w1 && IsCanceled (stateCtx ctx) w1 e); simpl;
        eexists _, _; (split; [reflexivity|]); case_bool_decide; simpl;
        rewrite ?filter_app; simpl; rewrite ?app_nil_r, ?Hf; reflexivity.
    + destruct (Hres eq_refl) as [cm ->]. simpl.
      eexists _, _; (split; [reflexivity|]); case_bool_decide; simpl;
        rewrite ?filter_app; simpl; rewrite ?app_nil_r, ?Hf; reflexivity.
  - intros o m0 res m2 fuel Hg Hfl Hle. simpl. rewrite Hg. unfold Do.
    rewrite Hfl. simpl. by rewrite bool_decide_true.
Qed.

End Facts.

(** C1 at work: op 0 runs once; a later [Exec], after a [CacheMap] call in
    between and with other inputs, gets the memoised outputs. *)
Lemma Exec_memoised_at_most_once_witness :
  ∃ m1 m2 : @Machine demo,
    @sharedOp_Exec demo false [1; 2] (@initial demo 0) = Done ((Some [2; 3], [0], None), m1) ∧
    @run demo [@CallCacheMap demo 1 false 0] m1 = Done m2 ∧
    @sharedOp_Exec demo true [9] m2 = Done ((Some [2; 3], [0], None), m2) ∧
    filter (@isExecEvent demo) (trace m2) = filter (@isExecEvent demo) (trace m1).
Proof.
  eexists _, _.
  split; [reflexivity|]. split; [reflexivity|].
  pose proof (proj1 (@Exec_memoised_at_most_once demo)
                (@initial demo 0) _ false [1; 2] [2; 3] [0] eq_refl
                [@CallCacheMap demo 1 false 0] _ eq_refl) as [Hx Hf].
  split; [exact (Hx true [9])|exact Hf].
Defined.

(** C3, the claim as stated fails: op 2 cannot acquire its resources, the
    context is not done, so the error is no cancellation; yet nothing is
    memoised and the next caller calls [Op.Acquire] again. *)
Lemma Exec_acquire_error_not_memoised :
  ∃ m1 m2 : @Machine demo,
    @sharedOp_Exec demo false [] (@initial demo 2) = Done ((None, [], Some 1207), m1) ∧
    @cancelled demo false (world m1) (Some 207) = false ∧
    execDone (so m1) = false ∧ execErr (so m1) = None ∧
    @sharedOp_Exec demo false [] m1 = Done ((None, [], Some 1207), m2) ∧
    trace m2 = [@EvResolve demo; EvAcquire; EvAcquire].
Proof. eexists _, _. repeat split; reflexivity. Qed.

(** C3 (amended) at work: op 1 fails in [Exec] under a done context with
    the cancelled error; nothing is memoised. *)
Lemma Exec_failure_memoisation_witness :
  ∃ m1 : @Machine demo,
    @sharedOp_Exec demo true [] (@initial demo 1) = Done ((None, [], Some 1101), m1) ∧
    execDone (so m1) = false.
Proof.
  destruct (proj2 (@Exec_failure_memoisation demo (@initial demo 1) _ true [] 1
                     eq_refl eq_refl) 0 None 1 [] 1 eq_refl eq_refl)
    as (m1 & r & Hx & Hc).
  simpl in Hc. destruct Hc as (-> & Hd & _).
  exists m1. split; [exact Hx|exact Hd].
Defined.

(** C6, the claim as stated fails: op 1 fails in [CacheMap] with an error
    that is no cancellation; the failure is memoised, and the second call,
    for a position [cacheRes] does not hold, returns it without calling
    [Op.CacheMap]. *)
Lemma CacheMap_error_memoised_no_call :
  ∃ m1 m2 : @Machine demo,
    @sharedOp_CacheMap demo 1 false 0 (@initial demo 1) = Done ((None, Some 1005), m1) ∧
    length (cacheRes (so m1)) = 0 ∧
    @sharedOp_CacheMap demo 1 false 0 m1 = Done ((None, Some 1005), m2) ∧
    filter (@isCacheMapEvent demo) (trace m1) = [@EvOpCacheMap demo 0 (Some 5)] ∧
    filter (@isCacheMapEvent demo) (trace m2) = [@EvOpCacheMap demo 0 (Some 5)].
Proof. eexists _, _. repeat split; reflexivity. Qed.

(** C6 (amended) at work: after one [CacheMap] call on op 0, position 0 is
    memoised and returned as it is. *)
Lemma CacheMap_memoised_or_next_witness :
  ∃ m : @Machine demo,
    @run demo [@CallCacheMap demo 1 false 0] (@initial demo 0) = Done m ∧
    @sharedOp_CacheMap demo 1 true 0 m
      = Done ((Some (@Build_cacheMapResp demo 0 false), None), m).
Proof.
  eexists. split; [reflexivity|].
  exact (proj1 (@CacheMap_memoised_or_next demo 0 [@CallCacheMap demo 1 false 0] _
                  true 0 eq_refl) 0 0 eq_refl).
Defined.

(** *** The resolver, the resources and the order of cache maps *)

Section Accounts.
Context `{Collab}.

Ltac flight_split :=
  repeat match goal with
  | |- context [let '(_, _) := ?x in _] => destruct x as [? ?] eqn:?
  | |- context [match ?x with _ => _ end] =>
      lazymatch type of x with
      | option _ => destruct x eqn:?
      | bool => destruct x eqn:?
      | prod _ _ => destruct x as [? ?] eqn:?
      end
  | |- context [if ?x then _ else _] => destruct x eqn:?
  end; simpl in *.

(** A property of the machine kept by [getOp] and by the two flight
    functions is kept by every sequence of calls. *)
Lemma run_invariant (P : Machine → Prop) :
  (∀ m r m1, getOp m = (r, m1) → P m → P m1) →
  (∀ o inputs ctx m r m', execFlight o inputs ctx m = Done (r, m') → P m → P m') →
  (∀ o index ctx m r m', cacheMapFlight o index ctx m = Done (r, m') → P m → P m') →
  ∀ cs m m', run cs m = Done m' → P m → P m'.
Proof.
  intros Hg Hx Hc.
  assert (HC : ∀ fuel ctx index m r m',
             sharedOp_CacheMap fuel ctx index m = Done (r, m') → P m → P m').
  { induction fuel as [|fuel IH]; intros ctx index m r m'; [discriminate|].
    simpl. destruct (getOp m) as [[o e] m0] eqn:Hg0. intros Hr HP.
    pose proof (Hg _ _ _ Hg0 HP) as HP0.
    destruct e as [e|]; [by injection Hr as _ <-|].
    obind_as Hr as [[res e] m2] Hf. unfold Do in Hf.
    pose proof (Hc _ _ _ _ _ _ Hf HP0) as HP2.
    destruct e as [e|]; [by injection Hr as _ <-|].
    case_bool_decide.
    - obind_as Hr as [[r' e'] m3] Hrec. injection Hr as _ <-. eauto.
    - destruct (res !! index); [|discriminate]. by injection Hr as _ <-. }
  induction cs as [|c cs IH]; simpl; intros m m' Hr HP.
  - by injection Hr as <-.
  - obind_as Hr as m1 Hs. apply (IH _ _ Hr).
    destruct c as [ctx inputs | fuel ctx index]; simpl in Hs;
      obind_as Hs as [r m0] Hc0; injection Hs as <-.
    + unfold sharedOp_Exec in Hc0. destruct (getOp m) as [[o e] m2] eqn:Hg0.
      pose proof (Hg _ _ _ Hg0 HP) as HP0.
      destruct e as [e|]; [by injection Hc0 as _ <-|].
      obind_as Hc0 as [[res e] m3] Hf. unfold Do in Hf.
      pose proof (Hx _ _ _ _ _ _ Hf HP0) as HP3.
      destruct res, e; by injection Hc0 as _ <-.
    + eauto.
Qed.

Lemma resolver_failed_fixed (m : Machine) e c m' :
  opOnce (so m) = true → err (so m) = Some e →
  step c m = Done m' → m' = m.
Proof.
  intros Ho He Hs. destruct c as [ctx inputs | fuel ctx index]; simpl in Hs.
  - unfold sharedOp_Exec in Hs. rewrite (getOp_resolved m Ho), He in Hs.
    simpl in Hs. by injection Hs as <-.
  - destruct fuel as [|fuel]; [discriminate|]. simpl in Hs.
    rewrite (getOp_resolved m Ho), He in Hs. simpl in Hs. by injection Hs as <-.
Qed.

Lemma execFlight_no_resolve o inputs ctx (m m' : Machine) r :
  execFlight o inputs ctx m = Done (r, m') →
  filter isResolveEvent (trace m') = filter isResolveEvent (trace m).
Proof.
  unfold execFlight. flight_split; intros Heq; simplify_eq; simpl;
    rewrite ?filter_app; simpl; rewrite ?app_nil_r; reflexivity.
Qed.

Lemma cacheMapFlight_no_resolve o index ctx (m m' : Machine) r :
  cacheMapFlight o index ctx m = Done (r, m') →
  filter isResolveEvent (trace m') = filter isResolveEvent (trace m).
Proof.
  unfold cacheMapFlight. flight_split; intros Heq; simplify_eq; simpl;
    rewrite ?filter_app; simpl; rewrite ?app_nil_r; reflexivity.
Qed.

(** The resolver runs at most once on a sharedOp, whatever calls are made;
    and when it failed, the first call leaves the sharedOp resolved with
    that error, after which no call does anything but return the error:
    the trace stays the one run of the resolver, the world stays as the
    resolver left it. *)
Theorem resolver_runs_at_most_once :
  (∀ w cs (m : Machine),
      run cs (initial w) = Done m →
      length (filter isResolveEvent (trace m)) ≤ 1) ∧
  (∀ w o e w' c cs (m : Machine),
      resolver w = ((o, Some e), w') →
      run (c :: cs) (initial w) = Done m →
      trace m = [EvResolve] ∧ world m = w' ∧
      (∀ ctx inputs,
          sharedOp_Exec ctx inputs m = Done ((None, [], Some (wrapOpVertex e)), m)) ∧
      (∀ fuel ctx index,
          sharedOp_CacheMap (S fuel) ctx index m
            = Done ((None, Some (wrapOpVertex e)), m))).
Proof.
  split.
  - intros w cs m Hr.
    pose (P := λ m : Machine, length (filter isResolveEvent (trace m))
                              ≤ if opOnce (so m) then 1 else 0).
    assert (HP : P m).
    { apply (run_invariant P) with cs (initial w); [| | |exact Hr|unfold P; simpl; lia].
      - intros m0 r m1. unfold getOp, P. destruct (opOnce (so m0)) eqn:Ho.
        + destruct (err (so m0)); intros [= <- <-]; by rewrite Ho.
        + destruct (resolver (world m0)) as [[o e] w0]; simpl.
          destruct e; intros [= <- <-]; simpl; rewrite filter_app, length_app; simpl; lia.
      - intros o inputs ctx m0 [r e] m' Hf. unfold P.
        rewrite (execFlight_no_resolve _ _ _ _ _ _ Hf).
        by destruct (execFlight_inv _ _ _ _ _ _ _ Hf) as (-> & _).
      - intros o index ctx m0 r m' Hf. unfold P.
        rewrite (cacheMapFlight_no_resolve _ _ _ _ _ _ Hf).
        by destruct (cacheMapFlight_inv _ _ _ _ _ _ Hf) as (-> & _). }
    unfold P in HP. destruct (opOnce (so m)); lia.
  - intros w o e w' c cs m Hres Hr. simpl in Hr. obind_as Hr as m1 Hs.
    assert (H1 : opOnce (so m1) = true ∧ err (so m1) = Some e ∧
                 trace m1 = [EvResolve] ∧ world m1 = w').
    { destruct c as [ctx inputs | fuel ctx index]; simpl in Hs.
      - unfold sharedOp_Exec, getOp in Hs. simpl in Hs. rewrite Hres in Hs.
        simpl in Hs. by injection Hs as <-.
      - destruct fuel as [|fuel]; [discriminate|]. simpl in Hs.
        unfold getOp in Hs. simpl in Hs. rewrite Hres in Hs.
        simpl in Hs. by injection Hs as <-. }
    destruct H1 as (Ho & He & Ht & Hw).
    assert (Hm : m = m1).
    { clear Hs. revert m1 Ho He Ht Hw Hr. induction cs as [|c' cs IH]; simpl; intros m1 Ho He Ht Hw Hr.
      - by injection Hr as <-.
      - obind_as Hr as m2 Hs. pose proof (resolver_failed_fixed _ _ _ _ Ho He Hs) as ->.
        eauto. }
    subst m. split_and!; [done|done| |].
    + intros ctx inputs. unfold sharedOp_Exec. rewrite (getOp_resolved m1 Ho), He. reflexivity.
    + intros fuel ctx index. simpl. rewrite (getOp_resolved m1 Ho), He. reflexivity.
Qed.

(** Resources never leak: over any sequence of calls on a fresh sharedOp
    the release function of [Op.Acquire] has run exactly once for every
    invocation of [Op.Exec], whether that succeeded, failed or was
    cancelled. *)
Theorem Exec_releases_what_it_acquired w cs (m : Machine) :
  run cs (initial w) = Done m →
  length (filter isReleaseEvent (trace m)) = length (filter isOpExecEvent (trace m)).
Proof.
  intros Hr.
  apply (run_invariant (λ m : Machine, length (filter isReleaseEvent (trace m))
                                       = length (filter isOpExecEvent (trace m))))
    with cs (initial w); [| | |exact Hr|reflexivity].
  - intros m0 r m1. unfold getOp. destruct (opOnce (so m0)) eqn:Ho.
    + destruct (err (so m0)); by intros [= <- <-].
    + destruct (resolver (world m0)) as [[o e] w0]; simpl.
      destruct e; intros [= <- <-]; simpl; rewrite !filter_app; simpl;
        rewrite !app_nil_r; done.
  - intros o inputs ctx m0 r m'. unfold execFlight.
    flight_split; intros Heq; simplify_eq; simpl;
      rewrite ?filter_app; simpl; rewrite ?app_nil_r, ?length_app; simpl; lia.
  - intros o index ctx m0 r m'. unfold cacheMapFlight.
    flight_split; intros Heq; simplify_eq; simpl;
      rewrite ?filter_app; simpl; rewrite ?app_nil_r; done.
Qed.

(** With a failure memoised, or with the sequence complete, the flight
    function of [CacheMap] returns at once. *)
Lemma cacheMapFlight_settled o index ctx (m m' : Machine) r :
  is_Some (cacheErr (so m)) ∨ nonNil (cacheRes (so m)) && cacheDone (so m) = true →
  cacheMapFlight o index ctx m = Done (r, m') → m' = m.
Proof.
  intros Hs. unfold cacheMapFlight.
  destruct (nonNil (cacheRes (so m)) && cacheDone (so m)
            || bool_decide (index < length (cacheRes (so m)))) eqn:Hc.
  - by intros [= _ <-].
  - apply orb_false_elim in Hc as [Hc _].
    destruct Hs as [[e He]|Hs]; [|congruence].
    rewrite He. by intros [= _ <-].
Qed.

(** A failure of [Op.CacheMap].  Take a [CacheMap] call for a position
    that is not memoised, on a sharedOp with no memoised failure and an
    incomplete sequence, and let [Op.CacheMap] fail.  The memoised cache
    maps stay as they are.  A pure cancellation is released and not
    memoised.  Any other error is memoised, and from then on [Op.CacheMap]
    is never invoked again on this sharedOp: whatever calls follow, every
    [CacheMap] call for a position that is not memoised returns that
    error. *)
Theorem CacheMap_failure_memoisation
  (m m0 : Machine) ctx index o res done e w1 fuel :
  getOp m = ((Some o, None), m0) →
  length (cacheRes (so m)) ≤ index →
  nonNil (cacheRes (so m)) && cacheDone (so m) = false →
  cacheErr (so m) = None →
  Op_CacheMap o (stateCtx ctx) (length (cacheRes (so m))) (world m0)
    = ((res, done, Some e), w1) →
  ∃ m1 r,
    sharedOp_CacheMap (S fuel) ctx index m = Done ((None, Some r), m1) ∧
    cacheRes (so m1) = cacheRes (so m) ∧ cacheDone (so m1) = cacheDone (so m) ∧
    filter isCacheMapEvent (trace m1)
      = filter isCacheMapEvent (trace m)
          ++ [EvOpCacheMap (length (cacheRes (so m))) (Some e)] ∧
    if ctxDone (stateCtx ctx) w1 && IsCanceled (stateCtx ctx) w1 e
    then
      r = wrapOpVertex (wrapCause (stateCtx ctx) w1 e) ∧
      cacheErr (so m1) = None ∧ EvReleaseError e ∈ trace m1
    else
      r = wrapOpVertex e ∧ cacheErr (so m1) = Some e ∧
      ∀ cs m2, run cs m1 = Done m2 →
        cacheRes (so m2) = cacheRes (so m) ∧ cacheErr (so m2) = Some e ∧
        filter isCacheMapEvent (trace m2) = filter isCacheMapEvent (trace m1) ∧
        ∀ fuel' ctx' index',
          length (cacheRes (so m)) ≤ index' →
          sharedOp_CacheMap (S fuel') ctx' index' m2
            = Done ((None, Some (wrapOpVertex e)), m2).
Proof.
  intros Hg Hle Hnd Hce Hop.
  destruct (getOp_frame _ _ _ Hg) as (_ & _ & _ & Hc & Hcd & Hcerr & _ & Hf).
  pose proof (getOp_opOnce _ _ _ Hg) as Hon.
  destruct (getOp_result _ _ _ _ Hg) as [Herr Hopf]. specialize (Hopf eq_refl).
  simpl. rewrite Hg. unfold Do, cacheMapFlight.
  rewrite Hc, Hcd, Hcerr, Hnd, Hce. rewrite bool_decide_false by lia. simpl.
  assert (Hw0 : world (if bool_decide (numInputs = 0)
                       then emit EvNotifyStarted m0 else m0) = world m0)
    by (case_bool_decide; reflexivity).
  rewrite Hw0, Hop. simpl.
  destruct (ctxDone (stateCtx ctx) w1 && IsCanceled (stateCtx ctx) w1 e) eqn:Hcan; simpl.
  - eexists _, _. split; [reflexivity|].
    case_bool_decide; simpl; rewrite ?filter_app; simpl; rewrite ?app_nil_r, ?Hf;
      (split_and!; try done; try congruence);
      rewrite !elem_of_app, !list_elem_of_singleton; auto.
  - eexists _, _. split; [reflexivity|].
    set (m1 := if bool_decide (numInputs = 0) then _ else _).
    assert (H1 : opOnce (so m1) = true ∧ err (so m1) = None ∧
                 cacheRes (so m1) = cacheRes (so m) ∧
                 cacheDone (so m1) = cacheDone (so m) ∧
                 cacheErr (so m1) = Some e ∧
                 filter isCacheMapEvent (trace m1)
                 = filter isCacheMapEvent (trace m)
                     ++ [EvOpCacheMap (length (cacheRes (so m))) (Some e)]).
    { unfold m1. case_bool_decide; simpl; rewrite ?filter_app; simpl;
        rewrite ?app_nil_r, ?Hf; split_and!; try congruence; reflexivity. }
    destruct H1 as (A1 & A2 & A3 & A4 & A5 & A6).
    split_and!; [done..|].
    intros cs m2 Hrun.
    pose (P := λ m' : Machine,
            opOnce (so m') = true ∧ err (so m') = None ∧
            cacheRes (so m') = cacheRes (so m) ∧ cacheDone (so m') = cacheDone (so m) ∧
            cacheErr (so m') = Some e ∧
            filter isCacheMapEvent (trace m') = filter isCacheMapEvent (trace m1)).
    assert (HP : P m2).
    { apply (run_invariant P) with cs m1; [| | |exact Hrun|by unfold P].
      - intros m' r m'' Hg' (P1 & P2 & P3 & P4 & P5 & P6).
        rewrite (getOp_resolved m' P1) in Hg'. injection Hg' as _ <-. by unfold P.
      - intros o' inputs ctx' m' [r' e'] m'' Hx (P1 & P2 & P3 & P4 & P5 & P6).
        destruct (execFlight_inv _ _ _ _ _ _ _ Hx) as (E1 & E2 & E3 & E4 & E5 & E6 & _).
        unfold P. split_and!; congruence.
      - intros o' index' ctx' m' r' m'' Hx HP.
        assert (Hs : is_Some (cacheErr (so m')))
          by (destruct HP as (_ & _ & _ & _ & -> & _); eauto).
        by rewrite (cacheMapFlight_settled _ _ _ _ _ _ (or_introl Hs) Hx). }
    destruct HP as (P1 & P2 & P3 & P4 & P5 & P6).
    split_and!; [done..|].
    intros fuel' ctx' index' Hle'. simpl.
    rewrite (getOp_resolved m2 P1), P2. unfold Do, cacheMapFlight.
    rewrite P3, P4, Hnd, P5. rewrite bool_decide_false by lia. reflexivity.
Qed.

Lemma execFlight_no_cacheMap o inputs ctx (m m' : Machine) r :
  execFlight o inputs ctx m = Done (r, m') →
  cacheMapSuccesses (trace m') = cacheMapSuccesses (trace m).
Proof.
  unfold execFlight, cacheMapSuccesses. flight_split; intros Heq; simplify_eq; simpl;
    rewrite ?omap_app; simpl; rewrite ?app_nil_r; reflexivity.
Qed.

(** Cache maps are asked for in order: over any sequence of calls on a
    fresh sharedOp, the invocations of [Op.CacheMap] that succeeded had the
    index arguments 0, 1, 2, ... in this order, one for each memoised cache
    map; and memoised cache maps are never changed or dropped. *)
Theorem CacheMap_asked_in_order w cs (m : Machine) :
  run cs (initial w) = Done m →
  cacheMapSuccesses (trace m) = seq 0 (length (cacheRes (so m))) ∧
  ∀ cs' m', run cs' m = Done m' → cacheRes (so m) `prefix_of` cacheRes (so m').
Proof.
  intros Hr. split.
  - apply (run_invariant (λ m : Machine, cacheMapSuccesses (trace m)
                                         = seq 0 (length (cacheRes (so m)))))
      with cs (initial w); [| | |exact Hr|reflexivity].
    + intros m0 r m1 Hg HP.
      destruct (getOp_frame _ _ _ Hg) as (_ & _ & _ & -> & _).
      destruct (getOp_trace _ _ _ Hg) as [-> | ->]; [done|].
      unfold cacheMapSuccesses in *. rewrite omap_app. simpl. by rewrite app_nil_r.
    + intros o inputs ctx m0 [r e] m' Hx HP.
      rewrite (execFlight_no_cacheMap _ _ _ _ _ _ Hx).
      by destruct (execFlight_inv _ _ _ _ _ _ _ Hx) as (_ & _ & -> & _).
    + intros o index ctx m0 r m'. unfold cacheMapFlight, cacheMapSuccesses.
      flight_split; intros Heq HP; simplify_eq; simpl;
        rewrite ?omap_app; simpl; rewrite ?app_nil_r, ?length_app, ?seq_app; simpl;
        rewrite ?app_nil_r; congruence.
  - intros cs' m' Hr'.
    apply (run_invariant (λ m' : Machine, cacheRes (so m) `prefix_of` cacheRes (so m')))
      with cs' m; [| | |exact Hr'|done].
    + intros m0 r m1 Hg HP. by destruct (getOp_frame _ _ _ Hg) as (_ & _ & _ & -> & _).
    + intros o inputs ctx m0 [r e] m1 Hx HP.
      by destruct (execFlight_inv _ _ _ _ _ _ _ Hx) as (_ & _ & -> & _).
    + intros o index ctx m0 r m1 Hx HP.
      destruct (cacheMapFlight_grows _ _ _ _ _ _ Hx) as [-> | [cm ->]]; [done|].
      by apply prefix_app_r.
Qed.

(** A complete sequence of cache maps is final.  Once [Op.CacheMap] has
    declared the sequence complete ([cacheDone] with at least one cache
    map), no call changes the memoised cache maps or invokes [Op.CacheMap]
    again; and a [CacheMap] call for a position past the end does not
    return: it calls itself again and again without calling anything
    else. *)
Theorem CacheMap_complete_is_final w cs0 (m : Machine) :
  run cs0 (initial w) = Done m →
  cacheRes (so m) ≠ [] → cacheDone (so m) = true →
  (∀ cs m', run cs m = Done m' →
      cacheRes (so m') = cacheRes (so m) ∧ cacheDone (so m') = true ∧
      filter isCacheMapEvent (trace m') = filter isCacheMapEvent (trace m)) ∧
  (∀ fuel ctx index,
      length (cacheRes (so m)) ≤ index →
      sharedOp_CacheMap fuel ctx index m = OutOfFuel).
Proof.
  intros Hr0 Hne Hd.
  assert (Hw : cacheWf m).
  { eapply run_cacheWf; [exact Hr0|]. intros Hn. by destruct Hn. }
  destruct (Hw Hne) as [Ho He].
  assert (Hnn : nonNil (cacheRes (so m)) = true) by (by destruct (cacheRes (so m))).
  split.
  - intros cs m' Hr.
    apply (run_invariant (λ m' : Machine,
             cacheRes (so m') = cacheRes (so m) ∧ cacheDone (so m') = true ∧
             filter isCacheMapEvent (trace m') = filter isCacheMapEvent (trace m)))
      with cs m; [| | |exact Hr|done].
    + intros m0 r m1 Hg (P1 & P2 & P3).
      destruct (getOp_frame _ _ _ Hg) as (_ & _ & _ & -> & -> & _ & _ & ->). done.
    + intros o inputs ctx m0 [r e] m1 Hx (P1 & P2 & P3).
      destruct (execFlight_inv _ _ _ _ _ _ _ Hx) as (_ & _ & -> & -> & _ & -> & _). done.
    + intros o index ctx m0 r m1 Hx (P1 & P2 & P3).
      assert (Hs : nonNil (cacheRes (so m0)) && cacheDone (so m0) = true)
        by (by rewrite P1, P2, Hnn).
      by rewrite (cacheMapFlight_settled _ _ _ _ _ _ (or_intror Hs) Hx).
  - intros fuel ctx index Hle. induction fuel as [|fuel IH]; [reflexivity|].
    simpl. rewrite (getOp_resolved m Ho), He. unfold Do, cacheMapFlight.
    rewrite Hnn, Hd. simpl. rewrite bool_decide_true by lia. by rewrite IH.
Qed.

End Accounts.

(** The resolver at work on [demoWith (Some 3) 0], whose resolver fails
    with error 3: after an [Exec] and a [CacheMap] call the trace is the
    one run of the resolver, and [Exec] returns the wrapped error. *)
Lemma resolver_runs_at_most_once_witness :
  ∃ m : @Machine (demoWith (Some 3) 0),
    @run (demoWith (Some 3) 0)
      [@CallExec (demoWith (Some 3) 0) false []; @CallCacheMap (demoWith (Some 3) 0) 1 false 0]
      (@initial (demoWith (Some 3) 0) 0) = Done m ∧
    trace m = [@EvResolve (demoWith (Some 3) 0)] ∧
    @sharedOp_Exec (demoWith (Some 3) 0) true [4] m = Done ((None, [], Some 1003), m).
Proof.
  eexists. split; [reflexivity|].
  destruct (proj2 (@resolver_runs_at_most_once (demoWith (Some 3) 0))
              0 (Some 0) 3 0 (@CallExec (demoWith (Some 3) 0) false [])
              [@CallCacheMap (demoWith (Some 3) 0) 1 false 0] _ eq_refl eq_refl)
    as (Ht & _ & Hx & _).
  split; [exact Ht|exact (Hx true [4])].
Defined.

(** Two [Exec] calls on op 1, the first cancelled, the second failing:
    [Op.Exec] ran twice and the resources were released twice. *)
Lemma Exec_releases_what_it_acquired_witness :
  ∃ m : @Machine demo,
    @run demo [@CallExec demo true []; @CallExec demo false []; @CallExec demo false []]
      (@initial demo 1) = Done m ∧
    length (filter (@isOpExecEvent demo) (trace m)) = 2 ∧
    length (filter (@isReleaseEvent demo) (trace m)) = 2.
Proof.
  eexists. split; [vm_compute; reflexivity|].
  split; [vm_compute; reflexivity|].
  rewrite (@Exec_releases_what_it_acquired demo 1
             [@CallExec demo true []; @CallExec demo false []; @CallExec demo false []]);
    vm_compute; reflexivity.
Defined.

(** Op 1 fails in [CacheMap] with error 5 under a context that is not
    done: the failure is memoised and returned to a later call for
    position 3. *)
Lemma CacheMap_failure_memoisation_witness :
  ∃ m1 : @Machine (demoWith None 0),
    @sharedOp_CacheMap (demoWith None 0) 1 false 0 (@initial (demoWith None 0) 1)
      = Done ((None, Some 1005), m1) ∧
    cacheErr (so m1) = Some 5 ∧
    @sharedOp_CacheMap (demoWith None 0) 1 true 3 m1 = Done ((None, Some 1005), m1).
Proof.
  destruct (@CacheMap_failure_memoisation (demoWith None 0)
              (@initial (demoWith None 0) 1) _ false 0 1 None false 5 1 0
              eq_refl (le_n 0) eq_refl eq_refl eq_refl)
    as (m1 & r & Hx & _ & _ & _ & Hc).
  simpl in Hc. destruct Hc as (-> & He & Hlater).
  exists m1. split; [exact Hx|]. split; [exact He|].
  destruct (Hlater [] m1 eq_refl) as (_ & _ & _ & Hl).
  exact (Hl 0 true 3 (Nat.le_0_l 3)).
Defined.

(** One [CacheMap] call for position 1 on op 0 asks for cache map 0, then
    for cache map 1. *)
Lemma CacheMap_asked_in_order_witness :
  ∃ m : @Machine demo,
    @run demo [@CallCacheMap demo 2 false 1] (@initial demo 0) = Done m ∧
    @cacheMapSuccesses demo (trace m) = [0; 1] ∧ cacheRes (so m) = [0; 1].
Proof.
  eexists. split; [vm_compute; reflexivity|].
  split; [|vm_compute; reflexivity].
  rewrite (proj1 (@CacheMap_asked_in_order demo 0 [@CallCacheMap demo 2 false 1] _
                    ltac:(vm_compute; reflexivity))).
  vm_compute. reflexivity.
Defined.

(** On [demoWith None 0] op 0 declares the sequence complete with cache
    map 0; a call for position 1 then runs out of any fuel. *)
Lemma CacheMap_complete_is_final_witness :
  ∃ m : @Machine (demoWith None 0),
    @run (demoWith None 0) [@CallCacheMap (demoWith None 0) 1 false 0]
      (@initial (demoWith None 0) 0) = Done m ∧
    cacheRes (so m) = [0] ∧
    @sharedOp_CacheMap (demoWith None 0) 50 false 1 m = OutOfFuel.
Proof.
  eexists. split; [reflexivity|]. split; [reflexivity|].
  refine (proj2 (@CacheMap_complete_is_final (demoWith None 0) 0
                   [@CallCacheMap (demoWith None 0) 1 false 0] _ eq_refl _ eq_refl)
            50 false 1 _).
  - discriminate.
  - simpl. lia.
Defined.

End SharedOpFacts.

(** ** The registry *)

Module RegistryFacts.
Import Registry.

Section ValueFacts.
Context {Value F : Type}.

Lemma setValues_lookup (calls : list (string * Value)) (j : @Job Value) key :
  values (setValues calls j) !! key
  = match lastStored key calls with
    | Some v => Some v
    | None => values j !! key
    end.
Proof.
  revert j. induction calls as [|c calls IH] using rev_ind; intros j.
  - reflexivity.
  - unfold setValues, lastStored. rewrite foldl_app, omap_app. simpl.
    destruct (decide (c.1 = key)) as [<-|Hne]; simpl.
    + rewrite last_snoc. apply lookup_insert_eq.
    + rewrite app_nil_r, lookup_insert_ne by done. apply IH.
Qed.

(** C9.  [Job.EachValue] calls [fn] at most once: on a job that has seen
    any sequence of [SetValue] calls, it calls [fn] exactly once, on the
    value most recently stored under the key, and returns what [fn]
    returned; when nothing was stored under the key it does not call [fn]
    and returns nil. *)
Theorem EachValue_last_stored_once (id key : string)
  (calls : list (string * Value)) (fn : Value → F → option string * F) (a : F) :
  EachValue key fn (setValues calls (newJob id)) a
  = match lastStored key calls with
    | Some v => (fn v a, [v])
    | None => (None, a, [])
    end ∧
  length (snd (EachValue key fn (setValues calls (newJob id)) a)) ≤ 1.
Proof.
  assert (Hl := setValues_lookup calls (newJob id) key).
  unfold EachValue. rewrite Hl. simpl. rewrite lookup_empty.
  destruct (lastStored key calls) as [v|]; simpl.
  - destruct (fn v a) as [e a']. simpl. split; [reflexivity|lia].
  - split; [reflexivity|lia].
Qed.

End ValueFacts.

Section Facts.
Context `{RT : Runtime}.

(** C8.  [Solver.Get] over the wake-ups of its goroutine.  (1) A job
    registered under the id when [Get] first looks, its context not yet
    done, is returned.  (2) A job that [NewJob] registers while [Get]
    waits is returned at the first wake-up that finds it, the context not
    yet done.  (3) If no wake-up found the job before one finds the
    context done, [Get] returns the typed [UnknownJob] error.  (4) The
    timer wakes [Get] with the context done at the latest, so these are
    the only outcomes. *)
Theorem Get_job_or_UnknownJob (id : string) :
  (∀ w ws j,
      ctx_done w = false → solver_jobs (registry w) !! id = Some j →
      Get id (w :: ws) = Done (inl j)) ∧
  (∀ pre σ σ' j post,
      Forall (λ w, ctx_done w = false ∧ solver_jobs (registry w) !! id = None) pre →
      NewJob id σ = (inl j, σ') →
      Get id (pre ++ {| ctx_done := false; registry := σ' |} :: post)
      = Done (inl j)) ∧
  (∀ pre w post,
      Forall (λ w, ctx_done w = false ∧ solver_jobs (registry w) !! id = None) pre →
      ctx_done w = true →
      Get id (pre ++ w :: post) = Done (inr (UnknownJobError id))) ∧
  (∀ ws,
      Exists (λ w, ctx_done w = true) ws →
      (∃ j w, Get id ws = Done (inl j) ∧ w ∈ ws ∧ ctx_done w = false ∧
              solver_jobs (registry w) !! id = Some j) ∨
      Get id ws = Done (inr (UnknownJobError id))).
Proof.
  assert (Hpre : ∀ pre rest,
    Forall (λ w, ctx_done w = false ∧ solver_jobs (registry w) !! id = None) pre →
    Get id (pre ++ rest) = Get id rest).
  { intros pre rest Hp. induction Hp as [|w pre [Hd Hj] _ IH]; [reflexivity|].
    simpl. by rewrite Hd, Hj. }
  repeat split.
  - intros w ws j Hd Hj. simpl. by rewrite Hd, Hj.
  - intros pre σ σ' j post Hp Hn. rewrite (Hpre _ _ Hp). simpl.
    unfold NewJob in Hn. destruct (solver_jobs σ !! id); [discriminate|].
    injection Hn as <- <-. simpl. by rewrite lookup_insert_eq.
  - intros pre w post Hp Hd. rewrite (Hpre _ _ Hp). simpl. by rewrite Hd.
  - intros ws Hex. induction ws as [|w ws IH]; [by apply Exists_nil in Hex|].
    simpl. destruct (ctx_done w) eqn:Hd; [by right|].
    destruct (solver_jobs (registry w) !! id) as [j|] eqn:Hj.
    + left. exists j, w. repeat split; auto. apply list_elem_of_here.
    + apply Exists_cons in Hex as [Hw|Hex]; [congruence|].
      destruct (IH Hex) as [(j & w' & Hg & Hin & Hd' & Hj')|Hu]; [left|by right].
      exists j, w'. repeat split; auto. by apply list_elem_of_further.
Qed.

Lemma ownerRoot_representative fuel (h : gmap nat edge) p r :
  ownerRoot fuel h p = Done r → representative h p r.
Proof.
  revert p. induction fuel as [|fuel IH]; intros p; [discriminate|]. simpl.
  destruct (h !! p) as [e|] eqn:Hp; [|discriminate].
  destruct (owner e) as [q|] eqn:Ho.
  - intros Hr. destruct (IH _ Hr) as [Hq He].
    split; [by eapply ownedBy_next|exact He].
  - intros [= <-]. split; [constructor|eauto].
Qed.

Lemma ownedBy_snoc (h : gmap nat edge) p r e t :
  ownedBy h p r → h !! r = Some e → owner e = Some t → ownedBy h p t.
Proof.
  induction 1 as [p|p e' q r' Hp Ho _ IH]; intros Hr Hot.
  - eapply ownedBy_next; eauto. constructor.
  - eapply ownedBy_next; eauto.
Qed.

(** Giving the end of a chain a new content keeps the chain. *)
Lemma ownedBy_insert_root (h : gmap nat edge) p r e e' :
  ownedBy h p r → h !! r = Some e → owner e = None →
  ownedBy (<[r := e']> h) p r.
Proof.
  induction 1 as [p|p e0 q r' Hp Ho _ IH]; intros Hr Hn; [constructor|].
  eapply ownedBy_next; [|exact Ho|by apply IH].
  rewrite lookup_insert_ne; [done|]. intros <-. congruence.
Qed.

(** C7.  [Solver.setEdge(e, targetEdge)] when the vertex of the
    representative edge has no state: provided the state of [e] is active
    and the owner chain of its edge at [e.Index] ends within the fuel, the
    call returns; afterwards that state has an edge at [e.Index] which is
    owned by [targetEdge]; and no state appears or disappears, and every
    state keeps its jobs, its parents, its children and its progress
    writers ([allPw] and the writers of [mpw]). *)
Theorem setEdge_nil_target_pointer_only fuel (e : nat * Vertex) targetEdge σ st te :
  actives σ !! Vertex_Digest (snd e) = Some st →
  heap σ !! targetEdge = Some te →
  actives σ !! Vertex_Digest (snd (edge_edge te)) = None →
  (∀ p, edges st !! fst e = Some p → ∃ r, ownerRoot fuel (heap σ) p = Done r) →
  ∃ σ',
    Solver_setEdge fuel e targetEdge σ = Done σ' ∧
    (∃ st' p, actives σ' !! Vertex_Digest (snd e) = Some st' ∧
              edges st' !! fst e = Some p ∧ ownedBy (heap σ') p targetEdge) ∧
    (∀ k, actives σ' !! k = None ↔ actives σ !! k = None) ∧
    (∀ k s s', actives σ !! k = Some s → actives σ' !! k = Some s' →
       jobs s' = jobs s ∧ parents s' = parents s ∧ childVtx s' = childVtx s ∧
       allPw s' = allPw s ∧ mpw s' = mpw s).
Proof.
  intros Hst Hte Hnil Hroot.
  unfold Solver_setEdge. rewrite Hst, Hte, Hnil. unfold state_setEdge. rewrite Hst.
  destruct (edges st !! e.1) as [p|] eqn:Hp.
  - destruct (Hroot p eq_refl) as [r Hr]. rewrite Hr. simpl.
    destruct (ownerRoot_representative _ _ _ _ Hr) as [Hown (er & Her & Hno)].
    destruct (decide (r = targetEdge)) as [->|Hne]; simpl.
    + exists σ. split; [reflexivity|]. split; [eauto|].
      split; [done|]. intros k s s' Hs Hs'. by simplify_eq.
    + unfold takeOwnership. rewrite Her. simpl.
      eexists. split; [reflexivity|]. simpl. split; [|split].
      * exists st, p. repeat split; [done..|].
        eapply ownedBy_snoc.
        -- eapply ownedBy_insert_root; eauto.
        -- apply lookup_insert_eq.
        -- reflexivity.
      * done.
      * intros k s s' Hs Hs'. by simplify_eq.
  - simpl. unfold takeOwnership. simpl. rewrite lookup_insert_eq. simpl.
    eexists. split; [reflexivity|]. simpl. split; [|split].
    + eexists _, _. rewrite lookup_insert_eq. split; [reflexivity|]. simpl.
      rewrite lookup_insert_eq. split; [reflexivity|].
      eapply ownedBy_next; [apply lookup_insert_eq|reflexivity|constructor].
    + intros k. destruct (decide (k = Vertex_Digest e.2)) as [->|Hne].
      * rewrite lookup_insert_eq, Hst. split; discriminate.
      * by rewrite lookup_insert_ne.
    + intros k s s'. destruct (decide (k = Vertex_Digest e.2)) as [->|Hne].
      * rewrite lookup_insert_eq, Hst. intros [= <-] [= <-]. done.
      * rewrite lookup_insert_ne by done. intros Hs Hs'. by simplify_eq.
Qed.

(** *** Merging edges *)

Lemma grows_refl σ : grows σ σ.
Proof.
  split; [|done]. intros k. destruct (actives σ !! k); constructor. done.
Qed.

Lemma grows_trans σ1 σ2 σ3 : grows σ1 σ2 → grows σ2 σ3 → grows σ1 σ3.
Proof.
  intros [A1 A2] [B1 B2]. split; [|by etrans].
  intros k. specialize (A1 k). specialize (B1 k).
  destruct A1 as [s1 s2 (? & ? & ?)|]; inversion B1 as [? s3 (? & ? & ?)|];
    constructor. split_and!; [congruence|set_solver|by etrans].
Qed.

Lemma grows_lookup σ σ' k s :
  grows σ σ' → actives σ !! k = Some s →
  ∃ s', actives σ' !! k = Some s' ∧ vtx s' = vtx s ∧ jobs s ⊆ jobs s' ∧
        edges s ⊆ edges s'.
Proof.
  intros [Hg _] Hs. specialize (Hg k). rewrite Hs in Hg.
  inversion Hg as [? s' ?|]. eauto.
Qed.

Lemma grows_is_Some σ σ' k :
  grows σ σ' → is_Some (actives σ' !! k) ↔ is_Some (actives σ !! k).
Proof.
  intros [Hg _]. specialize (Hg k). destruct Hg; split; intros [? ?]; eauto; done.
Qed.

Lemma ownedBy_weaken (h h' : gmap nat edge) p r :
  h ⊆ h' → ownedBy h p r → ownedBy h' p r.
Proof.
  intros Hsub. induction 1 as [p|p e q r Hp Ho _ IH]; [constructor|].
  eapply ownedBy_next; [|exact Ho|exact IH]. by eapply lookup_weaken.
Qed.

Lemma representative_weaken (h h' : gmap nat edge) p r :
  h ⊆ h' → representative h p r → representative h' p r.
Proof.
  intros Hsub [Ho (e & He & Hn)]. split; [by eapply ownedBy_weaken|].
  exists e. split; [by eapply lookup_weaken|done].
Qed.

Lemma representative_unique (h : gmap nat edge) p r r' :
  representative h p r → representative h p r' → r = r'.
Proof.
  intros [Ho (e & He & Hn)] [Ho' (e' & He' & Hn')].
  induction Ho as [p|p e0 q r Hp Hq _ IH].
  - destruct Ho' as [|p e1 q r' Hp1 Hq1 _]; [done|]. congruence.
  - destruct Ho' as [|p e1 q1 r' Hp1 Hq1 Ho']; [congruence|].
    rewrite Hp in Hp1. injection Hp1 as <-. rewrite Hq in Hq1. injection Hq1 as <-.
    by apply IH.
Qed.

Lemma inputDone_mono σ σ' M M' idx iv :
  grows σ σ' → M ⊆ M' → inputDone σ M idx iv → inputDone σ' M' idx iv.
Proof.
  intros Hg HM (Hin & si & p & r & er & Hsi & Hp & Hr & Her & Hact).
  split; [set_solver|].
  destruct (grows_lookup _ _ _ _ Hg Hsi) as (si' & Hsi' & _ & _ & He).
  exists si', p, r, er. destruct Hg as [Hg Hh]. split_and!.
  - done.
  - by eapply lookup_weaken.
  - by eapply representative_weaken.
  - by eapply lookup_weaken.
  - intros Hs. apply (grows_is_Some σ σ' _ (conj Hg Hh)) in Hs. set_solver.
Qed.

Lemma visitedOk_mono σ σ' M M' J x :
  grows σ σ' → M ⊆ M' → visitedOk σ M J x → visitedOk σ' M' J x.
Proof.
  intros Hg HM (sx & Hsx & HJ & Hins).
  destruct (grows_lookup _ _ _ _ Hg Hsx) as (sx' & Hsx' & Hv & Hj & _).
  exists sx'. split_and!; [done|set_solver|].
  intros idx iv Hin Hact. rewrite Hv in Hin.
  apply (grows_is_Some _ _ _ Hg) in Hact.
  eapply inputDone_mono; eauto.
Qed.

(** [getEdge] gives the representative of the edge at [index], making the
    edge if there is none. *)
Lemma state_getEdge_inv fuel held k index σ r σ' :
  state_getEdge fuel held k index σ = Done (r, σ') →
  heapFresh σ →
  grows σ σ' ∧ heapFresh σ' ∧
  ∃ s' p, actives σ' !! k = Some s' ∧ edges s' !! index = Some p ∧
          representative (heap σ') p r.
Proof.
  unfold state_getEdge. destruct (decide (k ∈ held)); [discriminate|].
  destruct (actives σ !! k) as [s|] eqn:Hk; [|discriminate].
  destruct (edges s !! index) as [e|] eqn:He.
  - intros Hg Hf. obind_as Hg as r0 Hr. injection Hg as <- <-.
    split_and!; [apply grows_refl|done|].
    exists s, e. split_and!; [done..|]. by eapply ownerRoot_representative.
  - intros [= <- <-] Hf. simpl.
    assert (Hnone : heap σ !! next σ = None).
    { destruct (heap σ !! next σ) eqn:Hn; [|done].
      specialize (Hf (next σ) (ex_intro _ _ Hn)). lia. }
    split_and!.
    + split; simpl; [|by apply insert_subseteq].
      intros k'. destruct (decide (k' = k)) as [->|Hne].
      * rewrite lookup_insert_eq, Hk. constructor. simpl.
        split_and!; [done..|]. by apply insert_subseteq.
      * rewrite lookup_insert_ne by done. destruct (actives σ !! k'); constructor. done.
    + intros p [e Hp]. simpl in *. destruct (decide (p = next σ)) as [->|Hne]; [lia|].
      rewrite lookup_insert_ne in Hp by done. specialize (Hf p (ex_intro _ _ Hp)). lia.
    + eexists _, _. rewrite lookup_insert_eq. split; [reflexivity|]. simpl.
      rewrite lookup_insert_eq. split; [reflexivity|].
      split; [constructor|]. eexists. rewrite lookup_insert_eq. eauto.
Qed.

(** [addJobs] is a sound traversal: every state it adds to the memo
    holds the jobs of the source afterwards, and all the active inputs of
    such a state, and the states their edges were merged into, are in the
    memo too. *)
Lemma addJobs_sound fuel held s src memo σ memo' σ' J :
  addJobs fuel held s src memo σ = Done (memo', σ') →
  heapFresh σ →
  (∃ srcSt, actives σ !! src = Some srcSt ∧ J ⊆ jobs srcSt) →
  grows σ σ' ∧ heapFresh σ' ∧ memo ⊆ memo' ∧ s ∈ memo' ∧
  (∀ x, x ∈ memo' → x ∉ memo → visitedOk σ' memo' J x).
Proof.
  revert held s memo σ memo' σ'.
  induction fuel as [|fuel IH]; intros held s memo σ memo' σ'; [discriminate|].
  simpl. destruct (decide (s ∈ memo)) as [Hin|Hnin].
  { intros [= <- <-] Hf Hsrc. split_and!; [apply grows_refl|done..|]. intros x ? ?. done. }
  destruct (decide (s ∈ held)); [discriminate|].
  destruct (actives σ !! s) as [st|] eqn:Hs; [|discriminate].
  destruct (actives σ !! src) as [srcSt|] eqn:Hsrc0; [|discriminate].
  intros Hloop Hf (srcSt' & Hsrc' & HJ). injection Hsrc' as <-.
  set (σ1 := setState s (setJobs (jobs st ∪ jobs srcSt) st) σ) in *.
  assert (Hg1 : grows σ σ1).
  { split; [|done]. intros k. unfold σ1. simpl.
    destruct (decide (k = s)) as [->|Hne].
    - rewrite lookup_insert_eq, Hs. constructor. simpl. split_and!; [done|set_solver|done].
    - rewrite lookup_insert_ne by done. destruct (actives σ !! k); constructor. done. }
  assert (Hf1 : heapFresh σ1) by exact Hf.
  assert (HsrcJ : ∀ σx, grows σ σx → ∃ sx, actives σx !! src = Some sx ∧ J ⊆ jobs sx).
  { intros σx Hgx. destruct (grows_lookup _ _ _ _ Hgx Hsrc0) as (sx & Hsx & _ & Hj & _).
    exists sx. split; [done|set_solver]. }
  assert (Hl : ∀ ins memoi σi memo' σ',
    (fix inputsLoop (ins : list (nat * Vertex)) (memo : gset string)
         (σ : Solver) : outcome (gset string * Solver) :=
       match ins with
       | [] => Done (memo, σ)
       | inputEdge :: ins =>
         let d := Vertex_Digest (snd inputEdge) in
         match actives σ !! d with
         | None => inputsLoop ins memo σ
         | Some _ =>
           do (memo, σ) <- addJobs fuel (s :: held) d src memo σ;
           do (mergedInputEdge, σ) <-
             state_getEdge fuel (s :: held) d (fst inputEdge) σ;
           match heap σ !! mergedInputEdge with
           | None => Panic
           | Some me =>
             let d' := Vertex_Digest (snd (edge_edge me)) in
             if decide (d' = d) then inputsLoop ins memo σ
             else
               match actives σ !! d' with
               | None => inputsLoop ins memo σ
               | Some _ =>
                 do (memo, σ) <- addJobs fuel (s :: held) d' src memo σ;
                 inputsLoop ins memo σ
               end
           end
         end
       end) ins memoi σi = Done (memo', σ') →
    heapFresh σi → grows σ σi →
    grows σi σ' ∧ heapFresh σ' ∧ memoi ⊆ memo' ∧
    (∀ x, x ∈ memo' → x ∉ memoi → visitedOk σ' memo' J x) ∧
    (∀ idx iv, (idx, iv) ∈ ins → is_Some (actives σ' !! Vertex_Digest iv) →
               inputDone σ' memo' idx iv)).
  { clear Hloop memo' σ'.
    induction ins as [|e ins IHl]; intros memoi σi memo' σ' Hloop Hfi Hgi.
    { injection Hloop as <- <-. split_and!; [apply grows_refl|done..| |].
      - intros x ? ?. done.
      - intros idx iv Hin. by apply elem_of_nil in Hin. }
    cbv zeta in Hloop.
    destruct (actives σi !! Vertex_Digest e.2) as [si|] eqn:Hd.
    2:{ destruct (IHl _ _ _ _ Hloop Hfi Hgi) as (L1 & L2 & L3 & L4 & L5).
        split_and!; [done..|].
        intros idx iv Hin Hact. apply elem_of_cons in Hin as [<-|Hin]; [|eauto].
        apply (grows_is_Some _ _ _ L1) in Hact. simpl in Hact, Hd.
        rewrite Hd in Hact. by destruct Hact. }
    (* the input state is active: what the step leaves *)
    assert (Hstep : ∃ memoX σX,
      (fix inputsLoop (ins : list (nat * Vertex)) (memo : gset string)
           (σ : Solver) : outcome (gset string * Solver) :=
         match ins with
         | [] => Done (memo, σ)
         | inputEdge :: ins =>
           let d := Vertex_Digest (snd inputEdge) in
           match actives σ !! d with
           | None => inputsLoop ins memo σ
           | Some _ =>
             do (memo, σ) <- addJobs fuel (s :: held) d src memo σ;
             do (mergedInputEdge, σ) <-
               state_getEdge fuel (s :: held) d (fst inputEdge) σ;
             match heap σ !! mergedInputEdge with
             | None => Panic
             | Some me =>
               let d' := Vertex_Digest (snd (edge_edge me)) in
               if decide (d' = d) then inputsLoop ins memo σ
               else
                 match actives σ !! d' with
                 | None => inputsLoop ins memo σ
                 | Some _ =>
                   do (memo, σ) <- addJobs fuel (s :: held) d' src memo σ;
                   inputsLoop ins memo σ
                 end
             end
           end
         end) ins memoX σX = Done (memo', σ') ∧
      grows σi σX ∧ heapFresh σX ∧ memoi ⊆ memoX ∧
      (∀ x, x ∈ memoX → x ∉ memoi → visitedOk σX memoX J x) ∧
      inputDone σX memoX e.1 e.2).
    { obind_as Hloop as [memoa σa] Ha.
      destruct (IH _ _ _ _ _ _ Ha Hfi (HsrcJ _ Hgi)) as (A1 & A2 & A3 & A4 & A5).
      obind_as Hloop as [r σb] Hge.
      destruct (state_getEdge_inv _ _ _ _ _ _ _ Hge A2)
        as (G1 & G2 & sb & p & Hsb & Hp & Hrep).
      destruct (heap σb !! r) as [me|] eqn:Hme; [|discriminate].
      assert (Hvis : ∀ x, x ∈ memoa → x ∉ memoi → visitedOk σb memoa J x).
      { intros x Hx Hnx. apply (visitedOk_mono σa σb memoa memoa J x G1); [done|].
        by apply A5. }
      destruct (decide (Vertex_Digest (edge_edge me).2 = Vertex_Digest e.2)) as [Heq|Hneq].
      { exists memoa, σb. split_and!; [done|by eapply grows_trans|done..|].
        split; [done|]. exists sb, p, r, me. split_and!; [done..|].
        intros _. by rewrite Heq. }
      destruct (actives σb !! Vertex_Digest (edge_edge me).2) as [sm|] eqn:Hm.
      2:{ exists memoa, σb. split_and!; [done|by eapply grows_trans|done..|].
          split; [done|]. exists sb, p, r, me. split_and!; [done..|].
          intros [? ?]. congruence. }
      obind_as Hloop as [memoc σc] Hc.
      assert (Hgb : grows σ σb) by eauto using grows_trans.
      destruct (IH _ _ _ _ _ _ Hc G2 (HsrcJ _ Hgb)) as (C1 & C2 & C3 & C4 & C5).
      exists memoc, σc. split_and!; [done|eauto using grows_trans|done|set_solver| |].
      - intros x Hx Hnx. destruct (decide (x ∈ memoa)) as [Hxa|Hxa]; [|by apply C5].
        apply (visitedOk_mono σb σc memoa memoc J x C1 C3). by apply Hvis.
      - destruct (grows_lookup _ _ _ _ C1 Hsb) as (sc & Hsc & _ & _ & Hec).
        split; [set_solver|]. exists sc, p, r, me. destruct C1 as [C1a C1b].
        split_and!; [done|by eapply lookup_weaken|by eapply representative_weaken
                    |by eapply lookup_weaken|done]. }
    destruct Hstep as (memoX & σX & HloopX & X1 & X2 & X3 & X4 & X5).
    destruct (IHl _ _ _ _ HloopX X2 (grows_trans _ _ _ Hgi X1)) as (L1 & L2 & L3 & L4 & L5).
    split_and!; [eauto using grows_trans|done|set_solver| |].
    - intros x Hx Hnx. destruct (decide (x ∈ memoX)) as [HxX|HxX]; [|by apply L4].
      apply (visitedOk_mono σX σ' memoX memo' J x L1 L3). by apply X4.
    - intros idx iv Hin Hact. apply elem_of_cons in Hin as [<-|Hin]; [|eauto].
      apply (inputDone_mono σX σ' memoX memo' idx iv L1 L3 X5). }
  destruct (Hl _ _ _ _ _ Hloop Hf1 Hg1) as (L1 & L2 & L3 & L4 & L5).
  split_and!; [eauto using grows_trans|done|set_solver|set_solver|].
  intros x Hx Hnx. destruct (decide (x = s)) as [->|Hne]; [|apply L4; set_solver].
  assert (Hs1 : actives σ1 !! s = Some (setJobs (jobs st ∪ jobs srcSt) st))
    by apply lookup_insert_eq.
  destruct (grows_lookup _ _ _ _ L1 Hs1) as (sx & Hsx & Hv & Hj & _).
  exists sx. split_and!; [done|simpl in Hj; set_solver|].
  intros idx iv Hin Hact. rewrite Hv in Hin. by apply L5.
Qed.

(** A memo all of whose states are accounted for is closed under
    [inputStep]. *)
Lemma visitedOk_closed σ (M : gset string) J x z :
  visitedOk σ M J x → inputStep σ x z → z ∈ M.
Proof.
  intros (sx & Hsx & _ & Hins) (sa & idx & iv & si & Hsa & Hin & Hsi & Hz).
  rewrite Hsx in Hsa. injection Hsa as <-.
  destruct (Hins idx iv Hin (ex_intro _ _ Hsi))
    as (HM & si' & p' & r' & er' & Hsi' & Hp' & Hr' & Her' & Hact).
  destruct Hz as [->|(p & r & er & Hp & Hr & Her & -> & Hsome)]; [done|].
  rewrite Hsi in Hsi'. injection Hsi' as <-.
  rewrite Hp in Hp'. injection Hp' as <-.
  pose proof (representative_unique _ _ _ _ Hr Hr') as <-.
  rewrite Her in Her'. injection Her' as <-. by apply Hact.
Qed.

Lemma reachable_in_memo σ (M : gset string) J t y :
  (∀ x, x ∈ M → visitedOk σ M J x) → t ∈ M → rtc (inputStep σ) t y → y ∈ M.
Proof.
  intros Hall Ht Hrtc. induction Hrtc as [|x z y Hstep _ IH]; [done|].
  apply IH. eapply visitedOk_closed; eauto.
Qed.

(** *** Loading *)

Lemma setPw_id (s : state) : setPw (mpw s) (allPw s) s = s.
Proof. by destruct s. Qed.

Lemma pwOnly_refl t σ : pwOnly t σ σ.
Proof.
  split; [|done]. intros k. destruct (actives σ !! k) as [s|]; constructor.
  split; [|done]. exists (mpw s), (allPw s). by rewrite setPw_id.
Qed.

Lemma pwOnly_trans t σ1 σ2 σ3 : pwOnly t σ1 σ2 → pwOnly t σ2 σ3 → pwOnly t σ1 σ3.
Proof.
  intros [H1 (A1 & B1 & C1 & D1)] [H2 (A2 & B2 & C2 & D2)].
  split; [|repeat split; congruence].
  intros k. specialize (H1 k). specialize (H2 k).
  destruct H1 as [s s' [(ws & all & ->) Hk1]|];
    inversion H2 as [? s'' [(ws' & all' & ->) Hk2]|]; constructor.
  split; [by exists ws', all'|]. intros Hne. rewrite (Hk2 Hne). by apply Hk1.
Qed.

Lemma attach_pwOnly target pw σ : pwOnly target σ (attach target pw σ).
Proof.
  unfold attach. destruct (actives σ !! target) as [t|] eqn:Ht; [|apply pwOnly_refl].
  destruct (decide (pw ∈ allPw t)); [apply pwOnly_refl|].
  split; [|done]. intros k. simpl.
  destruct (decide (k = target)) as [->|Hne].
  - rewrite lookup_insert_eq, Ht. constructor. split; [eauto|done].
  - rewrite lookup_insert_ne by done.
    destruct (actives σ !! k) as [s|]; constructor.
    split; [|done]. exists (mpw s), (allPw s). by rewrite setPw_id.
Qed.

Lemma attach_all_pwOnly target (js : list nat) σ :
  pwOnly target σ (foldl (λ σ j, attach target (JobPw j) σ) σ js).
Proof.
  revert σ. induction js as [|j js IH]; intros σ; simpl; [apply pwOnly_refl|].
  eapply pwOnly_trans; [apply attach_pwOnly|apply IH].
Qed.

Lemma connectProgressFromState_pwOnly fuel target src σ σ' :
  connectProgressFromState fuel target src σ = Done σ' → pwOnly target σ σ'.
Proof.
  revert src σ σ'. induction fuel as [|fuel IH]; intros src σ σ'; [discriminate|].
  simpl. destruct (actives σ !! src) as [srcSt|]; [|discriminate].
  pose proof (attach_all_pwOnly target (rangeNat (jobs srcSt)) σ) as Ha.
  revert Ha. generalize (foldl (λ σ j, attach target (JobPw j) σ) σ (rangeNat (jobs srcSt))).
  generalize (rangeDigest (parents srcSt)). intros ps.
  induction ps as [|p ps IHp]; intros σ1 H1 Hl.
  - by injection Hl as <-.
  - obind_as Hl as σ2 Hc. apply (IHp σ2); [|exact Hl].
    eapply pwOnly_trans; [exact H1|eauto].
Qed.

Lemma pwOnly_lookup t σ σ' k s :
  pwOnly t σ σ' → actives σ !! k = Some s →
  ∃ ws all, actives σ' !! k = Some (setPw ws all s) ∧
            (k ≠ t → setPw ws all s = s).
Proof.
  intros [Hk _] Hs. specialize (Hk k). rewrite Hs in Hk.
  inversion Hk as [? s' [(ws & all & ->) Hne]|]. eauto.
Qed.

Lemma pwOnly_lookup_None t σ σ' k :
  pwOnly t σ σ' → actives σ' !! k = None ↔ actives σ !! k = None.
Proof.
  intros [Hk _]. specialize (Hk k).
  destruct Hk; split; intros; done.
Qed.

Lemma pwOnly_parentsRanked t rank σ σ' :
  pwOnly t σ σ' → parentsRanked rank σ → parentsRanked rank σ'.
Proof.
  intros Hp Hr k st p Hk Hin.
  destruct (actives σ !! k) as [s|] eqn:Hs.
  - destruct (pwOnly_lookup _ _ _ _ _ Hp Hs) as (ws & all & Hs' & _).
    rewrite Hs' in Hk. injection Hk as <-. simpl in Hin.
    destruct (Hr k s p Hs Hin) as [[sp Hsp] Hlt]. split; [|done].
    destruct (pwOnly_lookup _ _ _ _ _ Hp Hsp) as (? & ? & -> & _). eauto.
  - apply (pwOnly_lookup_None _ _ _ k Hp) in Hs. congruence.
Qed.

(** *** Jobs added by a merge *)

Lemma inputStep_pwOnly t σ σ' a b :
  pwOnly t σ σ' → inputStep σ' a b → inputStep σ a b.
Proof.
  intros Hpw (sa & idx & iv & si & Hsa & Hin & Hsi & Hz).
  assert (Hback : ∀ k s', actives σ' !! k = Some s' →
            ∃ s, actives σ !! k = Some s ∧ vtx s' = vtx s ∧ edges s' = edges s).
  { intros k s' Hs'. destruct Hpw as [Hk _]. specialize (Hk k). rewrite Hs' in Hk.
    inversion Hk as [s ? [(ws & all & ->) _] Heq|]. exists s. by split_and!. }
  destruct (Hback _ _ Hsa) as (sa0 & Hsa0 & Hva & _).
  destruct (Hback _ _ Hsi) as (si0 & Hsi0 & _ & Hei).
  assert (Hh : heap σ' = heap σ) by (destruct Hpw as (_ & ? & _); done).
  exists sa0, idx, iv, si0. rewrite <- Hva. split_and!; [done..|].
  destruct Hz as [->|(p & r & er & Hp & Hr & Her & -> & [sb Hsb])]; [by left|right].
  exists p, r, er. rewrite <- Hei, <- Hh. split_and!; [done..|].
  destruct (Hback _ _ Hsb) as (sb0 & -> & _). eauto.
Qed.

(** C5 (amended).  When [state.setEdge(index, targetEdge, targetState)]
    returns, [targetState] is not nil, and the edge at [index] of the source
    state was not already owned by [targetEdge] (so that [setEdge] did not
    return at once), every job of the source state is a job of the target
    state and of every active state reached from it by steps to the state
    of an input of the state's vertex or, where the edge of that input
    state is merged, to the state of the representative edge's vertex. *)
Theorem setEdge_adds_jobs fuel s index targetEdge t σ σ' st :
  heapFresh σ →
  actives σ !! s = Some st →
  (∀ p r, edges st !! index = Some p → ownerRoot fuel (heap σ) p = Done r →
          r ≠ targetEdge) →
  state_setEdge fuel s index targetEdge (Some t) σ = Done σ' →
  ∀ j y, j ∈ jobs st → rtc (inputStep σ') t y →
         ∃ sy, actives σ' !! y = Some sy ∧ j ∈ jobs sy.
Proof.
  intros Hf Hst Hnot Hse j y Hj Hreach.
  unfold state_setEdge in Hse. rewrite Hst in Hse.
  obind_as Hse as r0 Hr0.
  (* the registry after the ownership was taken *)
  assert (H2 : ∃ e σ1, r0 = Some (e, σ1) ∧ is_Some (heap σ1 !! e) ∧
                       heapFresh σ1 ∧
                       ∃ st1, actives σ1 !! s = Some st1 ∧ jobs st1 = jobs st).
  { destruct (edges st !! index) as [p|] eqn:Hp.
    - obind_as Hr0 as r Hr. destruct (decide (r = targetEdge)) as [->|Hne].
      { by destruct (Hnot p targetEdge eq_refl Hr). }
      injection Hr0 as <-. exists r, σ. split_and!; [done| |done|eauto].
      destruct (ownerRoot_representative _ _ _ _ Hr) as [_ (er & -> & _)]. eauto.
    - injection Hr0 as <-. eexists _, _. split; [reflexivity|]. simpl. split_and!.
      + rewrite lookup_insert_eq. eauto.
      + intros p [e Hp0]. simpl in *. destruct (decide (p = next σ)) as [->|Hne]; [lia|].
        rewrite lookup_insert_ne in Hp0 by done. specialize (Hf p (ex_intro _ _ Hp0)). lia.
      + eexists. rewrite lookup_insert_eq. split; [reflexivity|done]. }
  destruct H2 as (e & σ1 & -> & [ee Hee] & Hf1 & st1 & Hst1 & Hj1).
  obind_as Hse as σ2 Hto. unfold takeOwnership in Hto. rewrite Hee in Hto.
  injection Hto as <-.
  obind_as Hse as [memo' σ3] Ha.
  apply (addJobs_sound _ _ _ _ _ _ _ _ (jobs st)) in Ha.
  2:{ intros p [e' Hp]. simpl in *. destruct (decide (p = e)) as [->|Hne].
      - apply Hf1. eauto.
      - rewrite lookup_insert_ne in Hp by done. apply Hf1. eauto. }
  2:{ exists st1. simpl. split; [done|]. by rewrite Hj1. }
  destruct Ha as (A1 & A2 & A3 & A4 & A5).
  assert (Hall : ∀ x, x ∈ memo' → visitedOk σ3 memo' (jobs st) x).
  { intros x Hx. apply A5; [done|set_solver]. }
  destruct (actives σ3 !! t) as [tst|] eqn:Ht; [|discriminate].
  assert (Hpw : pwOnly t σ3 σ').
  { destruct (decide (StateMpw (sid st) ∈ allPw tst)).
    - injection Hse as <-. apply pwOnly_refl.
    - injection Hse as <-. split; [|done]. intros k. simpl.
      destruct (decide (k = t)) as [->|Hne].
      + rewrite lookup_insert_eq, Ht. constructor. split; [eauto|done].
      + rewrite lookup_insert_ne by done. destruct (actives σ3 !! k) as [sk|]; constructor.
        split; [|done]. exists (mpw sk), (allPw sk). by rewrite setPw_id. }
  assert (Hreach3 : rtc (inputStep σ3) t y).
  { eapply rtc_subrel; [|exact Hreach]. intros a b. by apply inputStep_pwOnly with t. }
  pose proof (reachable_in_memo _ _ _ _ _ Hall A4 Hreach3) as Hy.
  destruct (Hall y Hy) as (sy & Hsy & HJ & _).
  destruct (pwOnly_lookup _ _ _ _ _ Hpw Hsy) as (ws & all & Hsy' & _).
  eexists. split; [exact Hsy'|]. simpl. set_solver.
Qed.

(** With parent links that form no cycle the fan-out of progress writers
    returns. *)
Lemma connectProgressFromState_total rank fuel target src σ :
  parentsRanked rank σ → is_Some (actives σ !! src) → rank src < fuel →
  ∃ σ', connectProgressFromState fuel target src σ = Done σ'.
Proof.
  revert src σ. induction fuel as [|fuel IH]; intros src σ Hr [srcSt Hs] Hlt; [lia|].
  simpl. rewrite Hs.
  pose proof (attach_all_pwOnly target (rangeNat (jobs srcSt)) σ) as Ha.
  revert Ha. generalize (foldl (λ σ j, attach target (JobPw j) σ) σ (rangeNat (jobs srcSt))).
  assert (Hps : ∀ p, p ∈ rangeDigest (parents srcSt) → p ∈ parents srcSt).
  { intros p. rewrite rangeDigest_perm. apply elem_of_elements. }
  revert Hps. generalize (rangeDigest (parents srcSt)). intros ps.
  induction ps as [|p ps IHp]; intros Hps σ1 H1; [eauto|].
  assert (Hr1 : parentsRanked rank σ1) by (eapply pwOnly_parentsRanked; eauto).
  destruct (Hr src srcSt p Hs (Hps p (list_elem_of_here _ _))) as [[sp Hsp] Hlp].
  destruct (pwOnly_lookup _ _ _ _ _ H1 Hsp) as (ws & all & Hsp1 & _).
  destruct (IH p σ1 Hr1 (ex_intro _ _ Hsp1) ltac:(lia)) as [σ2 Hc].
  rewrite Hc. simpl. apply IHp.
  - intros q Hq. apply Hps. by apply list_elem_of_further.
  - eapply pwOnly_trans; [exact H1|]. eapply connectProgressFromState_pwOnly; eauto.
Qed.

Lemma sameButLinks_refl s : sameButLinks s s.
Proof. by repeat split. Qed.

Lemma addCacheSources_same srcs st :
  sameButLinks st (addCacheSources srcs st) ∧
  parents (addCacheSources srcs st) = parents st ∧
  childVtx (addCacheSources srcs st) = childVtx st.
Proof.
  unfold addCacheSources. revert st. induction srcs as [|c srcs IH]; intros st; simpl.
  - split; [apply sameButLinks_refl|done].
  - set (st1 := if decide (cm_ID c = cm_ID (mainCache st)) then st
                else match cache st !! cm_ID c with
                     | Some _ => st
                     | None => setCache (<[cm_ID c := c]> (cache st)) st
                     end).
    assert (H1 : sameButLinks st st1 ∧ parents st1 = parents st ∧
                 childVtx st1 = childVtx st).
    { unfold st1. destruct (decide _); [by repeat split|].
      destruct (cache st !! cm_ID c); by repeat split. }
    destruct (IH st1) as (I1 & I2 & I3). destruct H1 as (J1 & J2 & J3).
    unfold sameButLinks in *. destruct_and!. repeat split; congruence.
Qed.

Lemma joinState_inv v j st :
  sid (joinState v j st) = sid st ∧ vtx (joinState v j st) = vtx st ∧
  origDigest (joinState v j st) = origDigest st ∧
  parents (joinState v j st) = parents st ∧
  allPw (joinState v j st) = allPw st ∧
  jobs (joinState v j st) = match j with Some j => {[j]} ∪ jobs st | None => jobs st end.
Proof.
  unfold joinState.
  destruct (addCacheSources_same (CacheSources (Vertex_Options v)) st) as (S1 & S2 & S3).
  unfold sameButLinks in S1. destruct_and!.
  destruct j; simpl; repeat split; congruence.
Qed.

(** What linking to the parent changes: the parents and the cache of the
    state at [k], the children of the parent's state. *)
Lemma linkParent_inv k dgst parent σ err σ' :
  linkParent k dgst parent σ = Done (err, σ') →
  next σ' = next σ ∧ heap σ' = heap σ ∧
  (∀ k', actives σ' !! k' = None ↔ actives σ !! k' = None) ∧
  (∀ k' s, actives σ !! k' = Some s →
     ∃ s', actives σ' !! k' = Some s' ∧ sameButLinks s s' ∧
           parents s ⊆ parents s' ∧ (k' ≠ k → parents s' = parents s) ∧
           (k' = k → parents s' = parents s ∪
              match parent with Some p => {[Vertex_Digest p]} | None => ∅ end)) ∧
  (err = None → ∀ p s, parent = Some p → actives σ !! k = Some s →
     Vertex_Digest p ∉ parents s → is_Some (actives σ' !! Vertex_Digest p)).
Proof.
  unfold linkParent. destruct parent as [p|].
  2:{ intros [= <- <-]. split_and!; try done.
      intros k' s Hs. exists s. split_and!; try done. set_solver. }
  destruct (actives σ !! k) as [st|] eqn:Hk; [|discriminate].
  destruct (decide (Vertex_Digest p ∈ parents st)) as [Hin|Hnin].
  { intros [= <- <-]. split_and!; try done.
    - intros k' s Hs. exists s. split_and!; try done.
      intros ->. simplify_eq. set_solver.
    - intros _ p' s [= <-] [= <-] Hn. done. }
  simpl. destruct (decide (Vertex_Digest p = k)) as [Hpk|Hpk].
  - (* the parent is the state itself *)
    subst k. rewrite lookup_insert_eq. simpl. rewrite !lookup_insert_eq.
    intros [= <- <-]. simpl. split_and!; try done.
    + intros k'. destruct (decide (k' = Vertex_Digest p)) as [->|Hne].
      * rewrite !lookup_insert_eq, Hk. split; discriminate.
      * by rewrite !lookup_insert_ne.
    + intros k' s Hs. destruct (decide (k' = Vertex_Digest p)) as [->|Hne].
      * rewrite !lookup_insert_eq. simplify_eq. eexists. split; [reflexivity|].
        simpl. split_and!; try done; set_solver.
      * rewrite !lookup_insert_ne by done. exists s. split_and!; try done.
    + intros _ p' s [= <-] _ _. rewrite lookup_insert_eq. eauto.
  - rewrite lookup_insert_ne by done.
    destruct (actives σ !! Vertex_Digest p) as [ps|] eqn:Hp.
    + simpl. rewrite (lookup_insert_ne _ (Vertex_Digest p) k) by done.
      rewrite !lookup_insert_eq. intros [= <- <-]. simpl. split_and!; try done.
      * intros k'. destruct (decide (k' = k)) as [->|Hne].
        { rewrite !lookup_insert_eq, Hk. split; discriminate. }
        rewrite (lookup_insert_ne _ k k') by done.
        destruct (decide (k' = Vertex_Digest p)) as [->|Hne2].
        { rewrite !lookup_insert_eq, Hp. split; discriminate. }
        by rewrite !lookup_insert_ne.
      * intros k' s Hs. destruct (decide (k' = k)) as [->|Hne].
        { rewrite !lookup_insert_eq. simplify_eq. eexists. split; [reflexivity|].
          simpl. split_and!; try done; set_solver. }
        rewrite (lookup_insert_ne _ k k') by done.
        destruct (decide (k' = Vertex_Digest p)) as [->|Hne2].
        { rewrite !lookup_insert_eq. simplify_eq. eexists. split; [reflexivity|].
          simpl. split_and!; try done. }
        rewrite !lookup_insert_ne by done. exists s. split_and!; try done.
      * intros _ p' s [= <-] _ _. rewrite lookup_insert_ne by done.
        rewrite lookup_insert_eq. eauto.
    + intros [= <- <-]. simpl. split_and!; try done.
      * intros k'. destruct (decide (k' = k)) as [->|Hne].
        { rewrite !lookup_insert_eq, Hk. split; discriminate. }
        by rewrite !lookup_insert_ne.
      * intros k' s Hs. destruct (decide (k' = k)) as [->|Hne].
        { rewrite !lookup_insert_eq. simplify_eq. eexists. split; [reflexivity|].
          simpl. split_and!; try done; set_solver. }
        rewrite !lookup_insert_ne by done. exists s. split_and!; try done.
Qed.

Lemma linkParent_total k dgst parent σ :
  is_Some (actives σ !! k) → ∃ r, linkParent k dgst parent σ = Done r.
Proof.
  intros [st Hk]. unfold linkParent. destruct parent as [p|]; [|eauto].
  rewrite Hk. destruct (decide _); [eauto|]. simpl.
  destruct (decide (Vertex_Digest p = k)) as [<-|Hpk].
  - rewrite lookup_insert_eq. simpl. rewrite !lookup_insert_eq. eauto.
  - rewrite lookup_insert_ne by done.
    destruct (actives σ !! Vertex_Digest p) as [ps|]; [|eauto].
    simpl. rewrite (lookup_insert_ne _ (Vertex_Digest p) k) by done.
    rewrite !lookup_insert_eq. eauto.
Qed.

(** Entering a state: the state at [k] keeps its identity and its vertex
    and gains the job; the other states keep everything but, for the
    parent, its children. *)
Lemma enterState_inv fuel k dgst v origVtx parent j memo st σ r memo' σ' :
  actives σ !! k = Some st →
  enterState fuel k dgst v origVtx parent j memo st σ = Done (r, memo', σ') →
  (∃ st', actives σ' !! k = Some st' ∧ sid st' = sid st ∧ vtx st' = vtx st ∧
          origDigest st' = origDigest st ∧
          jobs st' = match j with Some j => {[j]} ∪ jobs st | None => jobs st end) ∧
  next σ' = next σ ∧ heap σ' = heap σ ∧
  (∀ k', actives σ' !! k' = None ↔ actives σ !! k' = None) ∧
  (∀ k' s, k' ≠ k → actives σ !! k' = Some s →
     ∃ s', actives σ' !! k' = Some s' ∧ sameButLinks s s' ∧ parents s' = parents s) ∧
  (r = inl v ∨ ∃ e, r = inr e).
Proof.
  intros Hk He. unfold enterState in He. obind_as He as [err σ1] Hl.
  destruct (linkParent_inv _ _ _ _ _ _ Hl) as (L1 & L2 & L3 & L4 & _).
  simpl in L1, L2, L3, L4.
  destruct (joinState_inv v j st) as (J1 & J2 & J3 & J4 & J5 & J6).
  assert (Hk0 : ∀ k', <[k := joinState v j st]> (actives σ) !! k' = None
                      ↔ actives σ !! k' = None).
  { intros k'. destruct (decide (k' = k)) as [->|Hne].
    - rewrite lookup_insert_eq, Hk. split; discriminate.
    - by rewrite lookup_insert_ne. }
  assert (H1 : (∃ st', actives σ1 !! k = Some st' ∧ sid st' = sid st ∧
                  vtx st' = vtx st ∧ origDigest st' = origDigest st ∧
                  jobs st' = match j with Some j => {[j]} ∪ jobs st | None => jobs st end) ∧
               (∀ k' s, k' ≠ k → actives σ !! k' = Some s →
                  ∃ s', actives σ1 !! k' = Some s' ∧ sameButLinks s s' ∧
                        parents s' = parents s)).
  { split.
    - destruct (L4 k (joinState v j st)) as (s' & Hs' & Hsame & _);
        [apply lookup_insert_eq|].
      unfold sameButLinks in Hsame. destruct_and!.
      exists s'. split_and!; congruence.
    - intros k' s Hne Hs. destruct (L4 k' s) as (s' & Hs' & Hsame & _ & Hp & _).
      + by rewrite lookup_insert_ne.
      + exists s'. split_and!; auto. }
  destruct H1 as [(st1 & Hst1 & A1 & A2 & A3 & A4) Hoth].
  destruct err as [e|].
  - injection He as <- <- <-.
    split; [by exists st1|]. split; [done|]. split; [done|].
    split; [|split; [exact Hoth|eauto]].
    intros k'. rewrite L3. apply Hk0.
  - obind_as He as σ2 Hc. injection He as <- <- <-.
    pose proof (connectProgressFromState_pwOnly _ _ _ _ _ Hc) as Hpw.
    assert (P : heap σ2 = heap σ1 ∧ next σ2 = next σ1) by (destruct Hpw as (_ & ? & ? & _); done).
    destruct P as [P1 P2].
    split; [|split; [congruence|split; [congruence|split; [|split; [|by left]]]]].
    + destruct (pwOnly_lookup _ _ _ _ _ Hpw Hst1) as (ws & all & -> & _).
      eexists. split; [reflexivity|]. simpl. auto.
    + intros k'. rewrite (pwOnly_lookup_None _ _ _ k' Hpw), L3. apply Hk0.
    + intros k' s Hne Hs. destruct (Hoth k' s Hne Hs) as (s' & Hs' & Hsame & Hp).
      destruct (pwOnly_lookup _ _ _ _ _ Hpw Hs') as (ws & all & -> & Heq).
      rewrite (Heq Hne). eauto.
Qed.

(** Entering a state returns when the parent links form no cycle. *)
Lemma enterState_total rank fuel k dgst v origVtx parent j memo st σ :
  actives σ !! k = Some st →
  parentsRanked rank σ →
  (∀ p, parent = Some p → rank (Vertex_Digest p) < rank k) →
  rank k < fuel →
  ∃ res, enterState fuel k dgst v origVtx parent j memo st σ = Done res.
Proof.
  intros Hk Hr Hp Hf. unfold enterState.
  set (σ0 := setState k (joinState v j st) σ).
  destruct (joinState_inv v j st) as (J1 & J2 & J3 & J4 & J5 & J6).
  assert (Hk0 : actives σ0 !! k = Some (joinState v j st)) by apply lookup_insert_eq.
  assert (Hsome : ∀ q, is_Some (actives σ !! q) → is_Some (actives σ0 !! q)).
  { intros q Hq. unfold σ0. simpl. destruct (decide (q = k)) as [->|Hne].
    - rewrite lookup_insert_eq. eauto.
    - by rewrite lookup_insert_ne. }
  assert (Hr0 : parentsRanked rank σ0).
  { intros k' s q Hs Hq. unfold σ0 in Hs. simpl in Hs.
    destruct (decide (k' = k)) as [->|Hne].
    - rewrite lookup_insert_eq in Hs. injection Hs as <-. rewrite J4 in Hq.
      destruct (Hr k st q Hk Hq). split; auto.
    - rewrite lookup_insert_ne in Hs by done.
      destruct (Hr k' s q Hs Hq). split; auto. }
  destruct (linkParent_total k dgst parent σ0 (ex_intro _ _ Hk0)) as [[err σ1] Hl].
  rewrite Hl. simpl. destruct err as [e|]; [eauto|].
  destruct (linkParent_inv _ _ _ _ _ _ Hl) as (L1 & L2 & L3 & L4 & L5).
  assert (Hsome1 : ∀ q, is_Some (actives σ0 !! q) → is_Some (actives σ1 !! q)).
  { intros q [s Hq]. destruct (L4 q s Hq) as (s' & -> & _). eauto. }
  assert (Hr1 : parentsRanked rank σ1).
  { intros k' s' q Hs' Hq.
    destruct (actives σ0 !! k') as [s|] eqn:Hs; [|apply L3 in Hs; congruence].
    destruct (L4 k' s Hs) as (s'' & Hs'' & _ & _ & Hne & Heq).
    rewrite Hs' in Hs''. injection Hs'' as <-.
    destruct (decide (q ∈ parents s)) as [Hin|Hnin].
    { destruct (Hr0 k' s q Hs Hin). split; auto. }
    destruct (decide (k' = k)) as [->|Hnk]; [|rewrite (Hne Hnk) in Hq; done].
    rewrite (Heq eq_refl) in Hq. destruct parent as [p|]; [|set_solver].
    assert (q = Vertex_Digest p) as -> by set_solver.
    split; [|by apply Hp]. eapply (L5 eq_refl p s); eauto. }
  destruct (connectProgressFromState_total rank fuel k k σ1 Hr1) as [σ2 Hc];
    [apply Hsome1; eauto|done|].
  rewrite Hc. simpl. eauto.
Qed.

(** The ignore-cache rule, on the part of [loadUnlocked] that follows the
    loading of the inputs. *)
Lemma loadVertex_ignoreCache fuel v inputs parent j memo σ :
  (∀ st0 r memo' σ',
      actives σ !! ignoreCacheDigest (Vertex_Digest v) = None →
      actives σ !! Vertex_Digest v = Some st0 →
      IgnoreCache (Vertex_Options (vtx st0)) = false →
      IgnoreCache (Vertex_Options v) = true →
      loadVertex fuel v inputs parent j memo σ = Done (r, memo', σ') →
      (∃ st', actives σ' !! ignoreCacheDigest (Vertex_Digest v) = Some st' ∧
              sid st' = next σ ∧ next σ' = S (next σ) ∧
              vtx st' = vertexWithCacheOptions v
                          (ignoreCacheDigest (Vertex_Digest v)) inputs ∧
              origDigest st' = Vertex_Digest v ∧
              jobs st' = match j with Some j => {[j]} | None => ∅ end ∧
              (r = inl (vtx st') ∨ ∃ e, r = inr e)) ∧
      (∃ st0', actives σ' !! Vertex_Digest v = Some st0' ∧
               sameButLinks st0 st0' ∧ parents st0' = parents st0)) ∧
  (∀ st1 r memo' σ',
      actives σ !! ignoreCacheDigest (Vertex_Digest v) = Some st1 →
      loadVertex fuel v inputs parent j memo σ = Done (r, memo', σ') →
      (∃ st1', actives σ' !! ignoreCacheDigest (Vertex_Digest v) = Some st1' ∧
               sid st1' = sid st1 ∧ vtx st1' = vtx st1 ∧
               jobs st1' = match j with
                           | Some j => {[j]} ∪ jobs st1
                           | None => jobs st1
                           end ∧
               (r = inl (vtx st1) ∨ ∃ e, r = inr e)) ∧
      next σ' = next σ ∧
      (∀ k, actives σ' !! k = None ↔ actives σ !! k = None)) ∧
  (∀ rank,
      (is_Some (actives σ !! ignoreCacheDigest (Vertex_Digest v)) ∨
       ∃ st0, actives σ !! Vertex_Digest v = Some st0 ∧
              IgnoreCache (Vertex_Options (vtx st0)) = false ∧
              IgnoreCache (Vertex_Options v) = true) →
      parentsRanked rank σ →
      (∀ p, parent = Some p →
            rank (Vertex_Digest p) < rank (ignoreCacheDigest (Vertex_Digest v))) →
      rank (ignoreCacheDigest (Vertex_Digest v)) < fuel →
      ∃ res, loadVertex fuel v inputs parent j memo σ = Done res).
Proof.
  split_and!.
  - intros st0 r memo' σ' Hnone Hst0 Hic0 Hic Hl.
    assert (Hne : Vertex_Digest v ≠ ignoreCacheDigest (Vertex_Digest v)) by congruence.
    unfold loadVertex, dedup in Hl. rewrite Hnone, Hst0, Hic0, Hic in Hl. simpl in Hl.
    rewrite Hnone in Hl. simpl in Hl. rewrite lookup_insert_eq in Hl.
    eapply enterState_inv in Hl; [|apply lookup_insert_eq].
    destruct Hl as ((st' & Hst' & E1 & E2 & E3 & E4) & E5 & _ & _ & E7 & E8).
    simpl in *. split.
    + exists st'. split_and!; auto.
      * rewrite E4. destruct j; [|done]. set_solver.
      * rewrite E2. exact E8.
    + destruct (E7 (Vertex_Digest v) st0 Hne) as (s' & Hs' & Hsame & Hp).
      { by rewrite lookup_insert_ne. }
      eauto.
  - intros st1 r memo' σ' Hst1 Hl.
    unfold loadVertex, dedup in Hl. rewrite Hst1 in Hl. simpl in Hl.
    rewrite Hst1 in Hl.
    eapply enterState_inv in Hl; [|exact Hst1].
    destruct Hl as ((st' & Hst' & E1 & E2 & E3 & E4) & E5 & _ & E6 & _ & E8).
    split_and!; auto. exists st'. split_and!; auto.
  - intros rank Hcase Hr Hp Hf. unfold loadVertex, dedup.
    destruct (actives σ !! ignoreCacheDigest (Vertex_Digest v)) as [st1|] eqn:Hst1.
    + simpl. rewrite Hst1. eapply enterState_total; eauto.
    + destruct Hcase as [[? ?]|(st0 & Hst0 & Hic0 & Hic)]; [done|].
      rewrite Hst0, Hic0, Hic. simpl. rewrite Hst1. simpl. rewrite lookup_insert_eq.
      eapply enterState_total; eauto.
      * apply lookup_insert_eq.
      * intros k' s q Hs Hq. simpl in Hs.
        destruct (decide (k' = ignoreCacheDigest (Vertex_Digest v))) as [->|Hne].
        -- rewrite lookup_insert_eq in Hs. injection Hs as <-. set_solver.
        -- rewrite lookup_insert_ne in Hs by done.
           destruct (Hr k' s q Hs Hq) as [[sq Hsq] Hlt]. split; [|done]. simpl.
           destruct (decide (q = ignoreCacheDigest (Vertex_Digest v))) as [->|Hnq].
           ++ rewrite lookup_insert_eq. eauto.
           ++ rewrite lookup_insert_ne by done. eauto.
Qed.

Lemma loadUnlocked_unfold fuel v parent j memo σ :
  loadUnlocked fuel v parent j memo σ
  = match memoLookup memo v with
    | Some v' => Done (inl v', memo, σ)
    | None =>
      do r <- loadInputs fuel (Vertex_Inputs v) [] parent j memo σ;
      match r with
      | (inl inputs, memo, σ) => loadVertex fuel v inputs parent j memo σ
      | (inr err, memo, σ) => Done (inr err, memo, σ)
      end
    end.
Proof.
  assert (Hloop : ∀ es inputs memo σ,
    (fix inputsLoop (es : list (nat * Vertex)) (inputs : list (nat * Vertex))
         (cache : list (Vertex * Vertex)) (σ : Solver)
       : outcome ((list (nat * Vertex) + string) * list (Vertex * Vertex) * Solver) :=
       match es with
       | [] => Done (inl inputs, cache, σ)
       | e :: es =>
         do r <- loadUnlocked fuel (snd e) parent j cache σ;
         match r with
         | (inl v', cache, σ) => inputsLoop es (inputs ++ [(fst e, v')]) cache σ
         | (inr err, cache, σ) => Done (inr err, cache, σ)
         end
       end) es inputs memo σ
    = loadInputs fuel es inputs parent j memo σ).
  { induction es as [|e es IH]; intros inputs memo' σ'; simpl; [reflexivity|].
    destruct (loadUnlocked fuel e.2 parent j memo' σ') as [[[[v'|err] c] σ1]| | |];
      simpl; auto. }
  destruct v; simpl; destruct (memoLookup memo _); try reflexivity;
    by rewrite Hloop.
Qed.

(** C2.  The ignore-cache rule of [load], for a vertex [v] whose inputs are
    loaded, [dgst] its digest and [dwc = hash(dgst || "-ignorecache")].
    (1) If [dwc] keys no active state, [dgst] keys one whose vertex has
    IgnoreCache unset, and [v] has IgnoreCache set, then [load] does not
    join the state at [dgst] (it keeps its identity, jobs, parents and
    writers) but makes a fresh state under [dwc], whose vertex is [v]
    wrapped with digest [dwc] and which holds just the job.  (2) If [dwc]
    keys an active state, whatever IgnoreCache of [v] says, [load] joins
    that state, makes no new state, and returns the vertex object of that
    state.  (3) In both cases [load] returns when the parent links form no
    cycle. *)
Theorem load_ignoreCache_asymmetric fuel v parent j memo0 σ0 inputs memo σ :
  memoLookup memo0 v = None →
  loadInputs fuel (Vertex_Inputs v) [] parent j memo0 σ0 = Done (inl inputs, memo, σ) →
  (∀ st0 r memo' σ',
      actives σ !! ignoreCacheDigest (Vertex_Digest v) = None →
      actives σ !! Vertex_Digest v = Some st0 →
      IgnoreCache (Vertex_Options (vtx st0)) = false →
      IgnoreCache (Vertex_Options v) = true →
      loadUnlocked fuel v parent j memo0 σ0 = Done (r, memo', σ') →
      (∃ st', actives σ' !! ignoreCacheDigest (Vertex_Digest v) = Some st' ∧
              sid st' = next σ ∧ next σ' = S (next σ) ∧
              vtx st' = vertexWithCacheOptions v
                          (ignoreCacheDigest (Vertex_Digest v)) inputs ∧
              origDigest st' = Vertex_Digest v ∧
              jobs st' = match j with Some j => {[j]} | None => ∅ end ∧
              (r = inl (vtx st') ∨ ∃ e, r = inr e)) ∧
      (∃ st0', actives σ' !! Vertex_Digest v = Some st0' ∧
               sameButLinks st0 st0' ∧ parents st0' = parents st0)) ∧
  (∀ st1 r memo' σ',
      actives σ !! ignoreCacheDigest (Vertex_Digest v) = Some st1 →
      loadUnlocked fuel v parent j memo0 σ0 = Done (r, memo', σ') →
      (∃ st1', actives σ' !! ignoreCacheDigest (Vertex_Digest v) = Some st1' ∧
               sid st1' = sid st1 ∧ vtx st1' = vtx st1 ∧
               jobs st1' = match j with
                           | Some j => {[j]} ∪ jobs st1
                           | None => jobs st1
                           end ∧
               (r = inl (vtx st1) ∨ ∃ e, r = inr e)) ∧
      next σ' = next σ ∧
      (∀ k, actives σ' !! k = None ↔ actives σ !! k = None)) ∧
  (∀ rank,
      (is_Some (actives σ !! ignoreCacheDigest (Vertex_Digest v)) ∨
       ∃ st0, actives σ !! Vertex_Digest v = Some st0 ∧
              IgnoreCache (Vertex_Options (vtx st0)) = false ∧
              IgnoreCache (Vertex_Options v) = true) →
      parentsRanked rank σ →
      (∀ p, parent = Some p →
            rank (Vertex_Digest p) < rank (ignoreCacheDigest (Vertex_Digest v))) →
      rank (ignoreCacheDigest (Vertex_Digest v)) < fuel →
      ∃ res, loadUnlocked fuel v parent j memo0 σ0 = Done res).
Proof.
  intros Hmemo Hin.
  assert (Heq : loadUnlocked fuel v parent j memo0 σ0
                = loadVertex fuel v inputs parent j memo σ).
  { rewrite loadUnlocked_unfold, Hmemo, Hin. reflexivity. }
  rewrite Heq. apply loadVertex_ignoreCache.
Qed.




Lemma vsize_inputs v e : e ∈ Vertex_Inputs v → vsize e.2 < vsize v.
Proof.
  assert (Hsum : ∀ l : list (nat * Vertex), e ∈ l →
    vsize e.2 ≤ (fix go (l : list (nat * Vertex)) : nat :=
                   match l with
                   | [] => 0
                   | e :: l => vsize (snd e) + go l
                   end) l).
  { induction l as [|x l IH]; intros Hin; [by apply elem_of_nil in Hin|].
    apply elem_of_cons in Hin as [->|Hin]; [lia|]. specialize (IH Hin). lia. }
  destruct v; simpl; intros Hin; specialize (Hsum _ Hin); lia.
Qed.


(** *** Teardown *)



Lemma Release_inv fuel st σ σ' :
  Release fuel st σ = Done σ' →
  actives σ' = actives σ ∧ heap σ' = heap σ ∧ released σ' = released σ ++ [st].
Proof.
  unfold Release. intros Hr. obind_as Hr as roots Ho. by injection Hr as <-.
Qed.












(** C10.  A result of [subBuilder.Build] carries no job, so its
    [WalkProvenance] returns nil at once: the callback is called on no
    provider and its state is untouched, whatever the registry holds.  A
    result of [Job.Build] carries the job and the loaded edge. *)
Theorem WalkProvenance_subBuild_trivial {F : Type} fuel sb e σ wp sb' σ' :
  subBuilder_Build fuel sb e σ = Done (inl wp, sb', σ') →
  (∀ (f : Op → F → option string * F) a σ'',
      WalkProvenance wp f a σ'' = Done (None, a, [])) ∧
  (∀ j e2 σ2 wp2 σ2',
      Job_Build fuel j e2 σ2 = Done (inl wp2, σ2') →
      wp_j wp2 = Some j ∧ ∃ v, wp_e wp2 = Some (fst e2, v)).
Proof.
  intros Hb. split.
  - assert (Hj : wp_j wp = None).
    { unfold subBuilder_Build in Hb. obind_as Hb as [r σ1] Hs.
      destruct r as [res|err]; [|discriminate].
      destruct (CacheKeys res); [discriminate|]. by injection Hb as <- _ _. }
    intros f a σ''. unfold WalkProvenance. by rewrite Hj.
  - intros j e2 σ2 wp2 σ2' Hj. unfold Job_Build in Hj.
    obind_as Hj as [r σ1] Hl. destruct r as [v|err]; [|discriminate].
    obind_as Hj as [r σ3] Hs. destruct r as [res|err]; [|discriminate].
    injection Hj as <- _. simpl. eauto.
Qed.

(** *** Deciding the invariants of a given registry *)

Lemma heapFresh_decide σ :
  bool_decide (map_Forall (λ p _, p < next σ) (heap σ)) = true → heapFresh σ.
Proof.
  intros Hb p [e Hp]. apply bool_decide_eq_true_1 in Hb. exact (Hb p e Hp).
Qed.



Lemma parentsRanked_decide rank σ :
  bool_decide (map_Forall (λ _ st, parents st = ∅) (actives σ)) = true →
  parentsRanked rank σ.
Proof.
  intros Hb k st p Hs Hp. apply bool_decide_eq_true_1 in Hb.
  rewrite (Hb k st Hs) in Hp. set_solver.
Qed.

End Facts.

#[local] Existing Instance demoRuntime.

(** C5 (amended) at work: job 1 holds the state of [demoS]; merging its
    edge 0 into the edge of [demoT] makes job 1 a job of the state of
    [demoU], the input of [demoT]. *)
Lemma setEdge_adds_jobs_witness :
  ∃ sy, actives merged !! "u" = Some sy ∧ 1 ∈ jobs sy.
Proof.
  eapply (setEdge_adds_jobs 5 "s" 0 6 "t" twoBuilds merged).
  - apply heapFresh_decide. vm_compute. reflexivity.
  - vm_compute. reflexivity.
  - intros p r Hp. vm_compute in Hp. discriminate.
  - vm_compute. reflexivity.
  - vm_compute. reflexivity.
  - apply rtc_once. eexists _, 0, _, _.
    split; [vm_compute; reflexivity|].
    split; [vm_compute; apply list_elem_of_here|].
    split; [vm_compute; reflexivity|].
    left. reflexivity.
Defined.

(** C5 as stated fails: in [mergedThenBuilt] edge 0 of the state of [demoS]
    is already owned by the edge object 6, so [setEdge] returns at once and
    the registry stays as it is; job 9 is a job of the source state, the
    jobs of the target state are 1 and 3. *)
Lemma setEdge_already_merged_adds_no_job :
  ∃ st tst,
    state_setEdge 5 "s" 0 6 (Some "t") mergedThenBuilt = Done mergedThenBuilt ∧
    actives mergedThenBuilt !! "s" = Some st ∧
    actives mergedThenBuilt !! "t" = Some tst ∧
    jobs st = {[1; 9]} ∧ jobs tst = {[1; 3]} ∧
    bool_decide (9 ∈ jobs st) = true ∧ bool_decide (9 ∈ jobs tst) = false.
Proof. eexists _, _. split_and!; vm_compute; reflexivity. Qed.

(** C7 at work: in [targetGone] the vertex of the edge object 6 has no
    state; merging edge 0 of [demoS] into it gives that edge an owner and
    leaves the jobs and writers of every state alone. *)
Lemma setEdge_nil_target_pointer_only_witness :
  ∃ σ',
    Solver_setEdge 5 (0, demoS) 6 targetGone = Done σ' ∧
    (∃ st' p, actives σ' !! "s" = Some st' ∧
              edges st' !! 0 = Some p ∧ ownedBy (heap σ') p 6) ∧
    (∀ k, actives σ' !! k = None ↔ actives targetGone !! k = None) ∧
    (∀ k s s', actives targetGone !! k = Some s → actives σ' !! k = Some s' →
       jobs s' = jobs s ∧ parents s' = parents s ∧ childVtx s' = childVtx s ∧
       allPw s' = allPw s ∧ mpw s' = mpw s).
Proof.
  eapply (setEdge_nil_target_pointer_only 5 (0, demoS) 6 targetGone).
  - vm_compute. reflexivity.
  - vm_compute. reflexivity.
  - vm_compute. reflexivity.
  - intros p Hp. vm_compute in Hp. discriminate.
Defined.

(** C2 at work: "d" keys a state whose vertex has IgnoreCache unset; a
    load of "d" with IgnoreCache set makes a state of its own under the
    ignore-cache digest and leaves the state at "d" with its one job; a
    later load of "d" with IgnoreCache unset joins the state under the
    ignore-cache digest and returns. *)
Lemma load_ignoreCache_asymmetric_witness :
  (∃ st' st0',
     actives rekeyed !! "sha256:d-ignorecache" = Some st' ∧
     vtx st' = vertexWithCacheOptions (leaf "d" true) "sha256:d-ignorecache" [] ∧
     jobs st' = {[1]} ∧
     actives rekeyed !! "d" = Some st0' ∧ jobs st0' = {[1]}) ∧
  (∃ r memo' σ' st1',
     loadUnlocked 5 (leaf "d" false) None (Some 3) [] rekeyed = Done (r, memo', σ') ∧
     actives σ' !! "sha256:d-ignorecache" = Some st1' ∧
     vtx st1' = vertexWithCacheOptions (leaf "d" true) "sha256:d-ignorecache" [] ∧
     jobs st1' = {[3; 1]} ∧ next σ' = next rekeyed).
Proof.
  split.
  - destruct (load_ignoreCache_asymmetric 5 (leaf "d" true) None (Some 1) []
                builtD [] [] builtD eq_refl eq_refl) as (H1 & _ & _).
    assert (∃ st0, actives builtD !! "d" = Some st0) as [st0 H0]
      by (eexists; vm_compute; reflexivity).
    assert (∃ r m, loadUnlocked 5 (leaf "d" true) None (Some 1) [] builtD
                   = Done (r, m, rekeyed)) as (r & m & Hl)
      by (eexists _, _; vm_compute; reflexivity).
    destruct (H1 st0 r m rekeyed) as [(st' & A1 & _ & _ & A2 & _ & A3 & _)
                                      (st0' & B1 & B2 & _)].
    + vm_compute. reflexivity.
    + exact H0.
    + vm_compute in H0. injection H0 as <-. reflexivity.
    + reflexivity.
    + exact Hl.
    + exists st', st0'. split_and!; [exact A1|exact A2|exact A3|exact B1|].
      destruct B2 as (_ & -> & _). vm_compute in H0. injection H0 as <-.
      vm_compute. reflexivity.
  - destruct (load_ignoreCache_asymmetric 5 (leaf "d" false) None (Some 3) []
                rekeyed [] [] rekeyed eq_refl eq_refl) as (_ & H2 & H3).
    assert (∃ st1, actives rekeyed !! "sha256:d-ignorecache" = Some st1) as [st1 H1]
      by (eexists; vm_compute; reflexivity).
    destruct (H3 (λ _, 0)) as [[[r memo'] σ'] Hl].
    + left. exists st1. exact H1.
    + apply parentsRanked_decide. vm_compute. reflexivity.
    + intros p Hp. discriminate.
    + lia.
    + destruct (H2 st1 r memo' σ' H1 Hl) as ((st1' & A1 & _ & A2 & A3 & _) & A4 & _).
      exists r, memo', σ', st1'. split_and!; [exact Hl|exact A1| | |exact A4].
      * rewrite A2. vm_compute in H1. injection H1 as <-. reflexivity.
      * rewrite A3. vm_compute in H1. injection H1 as <-. vm_compute. reflexivity.
Defined.


(** C10 at work: a sub-build under [demoT] in [twoBuilds] returns a result
    whose provenance walk calls a counting callback on nothing. *)
Lemma WalkProvenance_subBuild_trivial_witness :
  ∃ wp sb' σ',
    subBuilder_Build 5 {| sb_vtx := demoT; sb_exporters := [] |}
      (0, leaf "x" false) twoBuilds = Done (inl wp, sb', σ') ∧
    is_Some (actives σ' !! "x") ∧
    WalkProvenance wp (λ _ (n : nat), (None, S n)) 0 σ' = Done (None, 0, []).
Proof.
  eexists _, _, _. split; [vm_compute; reflexivity|].
  split; [vm_compute; eauto|].
  refine (proj1 (WalkProvenance_subBuild_trivial (F:=nat) 5
                   {| sb_vtx := demoT; sb_exporters := [] |}
                   (0, leaf "x" false) twoBuilds _ _ _ _) _ _ _).
  vm_compute. reflexivity.
Defined.

(** *** Looking up edges *)

Section LookupFacts.
Context `{RT : Runtime}.

(** More fuel does not change what the owner chain leads to. *)
Lemma ownerRoot_mono fuel fuel' (h : gmap nat edge) p r :
  ownerRoot fuel h p = Done r → fuel ≤ fuel' → ownerRoot fuel' h p = Done r.
Proof.
  revert fuel' p. induction fuel as [|fuel IH]; intros fuel' p; [discriminate|].
  intros Hr Hle. destruct fuel' as [|fuel']; [lia|]. simpl in *.
  destruct (h !! p) as [e|]; [|discriminate].
  destruct (owner e); [|done]. apply IH; [done|lia].
Qed.

Lemma representative_ownerRoot (h : gmap nat edge) p t :
  representative h p t → ∃ n, ∀ fuel, n ≤ fuel → ownerRoot fuel h p = Done t.
Proof.
  intros [Ho (e & He & Hn)]. induction Ho as [p|p e0 q t Hp Hq _ IH].
  - exists 1. intros [|fuel] Hle; [lia|]. simpl. by rewrite He, Hn.
  - destruct (IH He) as [n Hfuel]. exists (S n).
    intros [|fuel] Hle; [lia|]. simpl. rewrite Hp, Hq. apply Hfuel. lia.
Qed.

(** [Solver.getEdge] returns the end of an owner chain, which is an edge
    without owner; asking again gives the same edge and changes nothing:
    the edge of an index is made once.  No state appears or disappears. *)
Theorem getEdge_makes_edge_once fuel e σ r σ' :
  Solver_getEdge (S fuel) e σ = Done (Some r, σ') →
  (∃ er, heap σ' !! r = Some er ∧ owner er = None) ∧
  Solver_getEdge (S fuel) e σ' = Done (Some r, σ') ∧
  (∀ k, actives σ' !! k = None ↔ actives σ !! k = None).
Proof.
  unfold Solver_getEdge.
  destruct (actives σ !! Vertex_Digest e.2) as [s|] eqn:Hs; [|discriminate].
  intros Hg. obind_as Hg as [r0 σ0] Hr. injection Hg as <- <-.
  unfold state_getEdge in Hr. rewrite decide_False in Hr by set_solver.
  rewrite Hs in Hr. destruct (edges s !! e.1) as [p|] eqn:Hp.
  - obind_as Hr as r1 Hroot. injection Hr as <- <-.
    destruct (ownerRoot_representative _ _ _ _ Hroot) as [_ Hrep].
    split_and!; [done| |done].
    rewrite Hs. unfold state_getEdge. rewrite decide_False by set_solver.
    rewrite Hs, Hp. by rewrite Hroot.
  - simpl in Hr. injection Hr as <- <-. simpl. split_and!.
    + rewrite lookup_insert_eq. eauto.
    + rewrite lookup_insert_eq. unfold state_getEdge.
      rewrite decide_False by set_solver. simpl.
      rewrite !lookup_insert_eq. simpl. rewrite !lookup_insert_eq. reflexivity.
    + intros k. destruct (decide (k = Vertex_Digest e.2)) as [->|Hne].
      * rewrite lookup_insert_eq, Hs. done.
      * by rewrite lookup_insert_ne.
Qed.

(** After [state.setEdge] the edge at [index] is owned by [targetEdge],
    which ends the chain. *)
Lemma state_setEdge_owned fuel s index targetEdge ts σ σ' te :
  heapFresh σ → heap σ !! targetEdge = Some te → owner te = None →
  state_setEdge fuel s index targetEdge ts σ = Done σ' →
  ∃ st' p, actives σ' !! s = Some st' ∧ edges st' !! index = Some p ∧
           representative (heap σ') p targetEdge.
Proof.
  intros Hf Hte Hroot Hse. unfold state_setEdge in Hse.
  destruct (actives σ !! s) as [st|] eqn:Hst; [|discriminate].
  obind_as Hse as r0 Hr0.
  destruct r0 as [[e σ1]|].
  2:{ (* the edge was owned by the target already *)
      injection Hse as <-. destruct (edges st !! index) as [p|] eqn:Hp; [|done].
      obind_as Hr0 as r Hr. destruct (decide (r = targetEdge)) as [->|]; [|done].
      exists st, p. split_and!; [done..|]. by eapply ownerRoot_representative. }
  assert (H1 : heapFresh σ1 ∧ heap σ1 !! targetEdge = Some te ∧ e ≠ targetEdge ∧
               ∃ st1 p, actives σ1 !! s = Some st1 ∧ edges st1 !! index = Some p ∧
                        representative (heap σ1) p e).
  { destruct (edges st !! index) as [p|] eqn:Hp.
    - obind_as Hr0 as r Hr. destruct (decide (r = targetEdge)) as [->|Hne]; [done|].
      injection Hr0 as <- <-. split_and!; [done..|].
      exists st, p. split_and!; [done..|]. by eapply ownerRoot_representative.
    - injection Hr0 as <- <-. simpl.
      assert (Hlt : targetEdge < next σ) by (apply Hf; eauto).
      split_and!.
      + intros p [e0 Hp0]. simpl in *. destruct (decide (p = next σ)) as [->|Hne]; [lia|].
        rewrite lookup_insert_ne in Hp0 by done. specialize (Hf p (ex_intro _ _ Hp0)). lia.
      + rewrite lookup_insert_ne by lia. done.
      + lia.
      + eexists _, (next σ). rewrite lookup_insert_eq. simpl.
        split; [reflexivity|]. simpl. rewrite lookup_insert_eq. split; [done|].
        split; [constructor|]. rewrite lookup_insert_eq. eauto. }
  destruct H1 as (Hf1 & Hte1 & Hne & st1 & p & Hst1 & Hp & [Hown (ee & Hee & Hnoo)]).
  obind_as Hse as σ2 Hto. unfold takeOwnership in Hto. rewrite Hee in Hto.
  injection Hto as <-.
  set (σ2 := setHeap _ σ1) in *.
  assert (H2 : heapFresh σ2 ∧ actives σ2 !! s = Some st1 ∧
               representative (heap σ2) p targetEdge).
  { split_and!.
    - intros q [e' Hq]. simpl in *. destruct (decide (q = e)) as [->|Hqe].
      + apply Hf1. eauto.
      + rewrite lookup_insert_ne in Hq by done. apply Hf1. eauto.
    - done.
    - split.
      + eapply ownedBy_snoc.
        * eapply ownedBy_insert_root; eauto.
        * simpl. apply lookup_insert_eq.
        * reflexivity.
      + exists te. simpl. rewrite lookup_insert_ne by done. done. }
  destruct H2 as (Hf2 & Hst2 & Hrep2).
  destruct ts as [t|]; [|injection Hse as <-; eauto].
  obind_as Hse as [memo' σ3] Ha.
  apply (addJobs_sound _ _ _ _ _ _ _ _ ∅) in Ha; [|done|].
  2:{ exists st1. split; [done|set_solver]. }
  destruct Ha as (Hg & _).
  destruct (grows_lookup _ _ _ _ Hg Hst2) as (st3 & Hst3 & _ & _ & Hedges).
  assert (Hrep3 : representative (heap σ3) p targetEdge)
    by (destruct Hg as [_ Hh]; by eapply representative_weaken).
  assert (Hp3 : edges st3 !! index = Some p) by (by eapply lookup_weaken).
  destruct (actives σ3 !! t) as [tst|] eqn:Ht; [|discriminate].
  destruct (decide (StateMpw (sid st) ∈ allPw tst)).
  - injection Hse as <-. eauto.
  - injection Hse as <-. simpl. destruct (decide (s = t)) as [->|Hst'].
    + rewrite lookup_insert_eq. rewrite Ht in Hst3. injection Hst3 as ->.
      eexists _, p. split_and!; [done|done|done].
    + rewrite lookup_insert_ne by done. eauto.
Qed.

(** Merge, then look up: after [Solver.setEdge(e, targetEdge)] on an
    active state, with [targetEdge] an edge without owner,
    [Solver.getEdge(e)] returns [targetEdge] and changes nothing. *)
Theorem setEdge_then_getEdge fuel e targetEdge σ σ' te :
  heapFresh σ →
  is_Some (actives σ !! Vertex_Digest (snd e)) →
  heap σ !! targetEdge = Some te → owner te = None →
  Solver_setEdge fuel e targetEdge σ = Done σ' →
  ∃ n, ∀ f, n ≤ f → Solver_getEdge f e σ' = Done (Some targetEdge, σ').
Proof.
  intros Hf [st Hst] Hte Hroot Hse. unfold Solver_setEdge in Hse.
  rewrite Hst, Hte in Hse.
  destruct (state_setEdge_owned _ _ _ _ _ _ _ _ Hf Hte Hroot Hse)
    as (st' & p & Hst' & Hp & Hrep).
  destruct (representative_ownerRoot _ _ _ Hrep) as [n Hn].
  exists n. intros f Hle. unfold Solver_getEdge, state_getEdge.
  rewrite Hst'. rewrite decide_False by set_solver. rewrite Hp.
  by rewrite (Hn f Hle).
Qed.

End LookupFacts.

#[local] Existing Instance demoRuntime.

(** Edge 0 of the state of [demoS] in [twoBuilds] does not exist; asking
    for it makes the edge object 7, asking again returns it. *)
Lemma getEdge_makes_edge_once_witness :
  ∃ σ', Solver_getEdge 1 (0, demoS) twoBuilds = Done (Some 7, σ') ∧
        Solver_getEdge 1 (0, demoS) σ' = Done (Some 7, σ').
Proof.
  eexists. split; [vm_compute; reflexivity|].
  eapply (getEdge_makes_edge_once 0 (0, demoS) twoBuilds).
  vm_compute. reflexivity.
Defined.

(** After the merge of edge 0 of [demoS] into the edge object 6, a lookup
    of that edge returns the edge object 6. *)
Lemma setEdge_then_getEdge_witness :
  ∃ n, ∀ f, n ≤ f → Solver_getEdge f (0, demoS) merged = Done (Some 6, merged).
Proof.
  eapply (setEdge_then_getEdge 5 (0, demoS) 6 twoBuilds merged).
  - apply heapFresh_decide. vm_compute. reflexivity.
  - vm_compute. eauto.
  - vm_compute. reflexivity.
  - reflexivity.
  - vm_compute. reflexivity.
Defined.

(** *** Progress writers *)

Section ProgressFacts.
Context `{RT : Runtime}.

Lemma sameLinks_refl σ : sameLinks σ σ.
Proof. intros k. destruct (actives σ !! k); by constructor. Qed.

Lemma sameLinks_trans σ1 σ2 σ3 : sameLinks σ1 σ2 → sameLinks σ2 σ3 → sameLinks σ1 σ3.
Proof.
  intros A B k. specialize (A k). specialize (B k).
  destruct A as [s1 s2 [? ?]|]; inversion B as [? s3 [? ?]|]; constructor.
  split; congruence.
Qed.

Lemma pwOnly_sameLinks t σ σ' : pwOnly t σ σ' → sameLinks σ σ'.
Proof.
  intros [Hk _] k. specialize (Hk k).
  destruct Hk as [s s' [(ws & all & ->) _]|]; by constructor.
Qed.

Lemma sameLinks_lookup σ σ' k s :
  sameLinks σ σ' → actives σ !! k = Some s →
  ∃ s', actives σ' !! k = Some s' ∧ jobs s' = jobs s ∧ parents s' = parents s.
Proof.
  intros Hl Hs. specialize (Hl k). rewrite Hs in Hl.
  inversion Hl as [? s' [? ?]|]. eauto.
Qed.

Lemma attach_allPw target pw σ t :
  actives σ !! target = Some t →
  ∃ t', actives (attach target pw σ) !! target = Some t' ∧
        allPw t ⊆ allPw t' ∧ pw ∈ allPw t'.
Proof.
  intros Ht. unfold attach. rewrite Ht.
  destruct (decide (pw ∈ allPw t)); [eauto|].
  simpl. rewrite lookup_insert_eq. eexists. split; [done|]. simpl. set_solver.
Qed.

Lemma attach_all_allPw target (js : list nat) σ t :
  actives σ !! target = Some t →
  ∃ t', actives (foldl (λ σ j, attach target (JobPw j) σ) σ js) !! target = Some t' ∧
        allPw t ⊆ allPw t' ∧ ∀ j, j ∈ js → JobPw j ∈ allPw t'.
Proof.
  revert σ t. induction js as [|j js IH]; intros σ t Ht; simpl.
  - exists t. split_and!; [done..|]. intros j Hj. by apply elem_of_nil in Hj.
  - destruct (attach_allPw target (JobPw j) σ t Ht) as (t1 & Ht1 & Hsub1 & Hj1).
    destruct (IH _ _ Ht1) as (t' & Ht' & Hsub & Hall).
    exists t'. split_and!; [done|set_solver|].
    intros j' Hj'. apply elem_of_cons in Hj' as [->|Hj']; [set_solver|auto].
Qed.

Lemma connectProgressFromState_sound fuel target src σ0 σ σ' t :
  sameLinks σ0 σ →
  connectProgressFromState fuel target src σ = Done σ' →
  actives σ !! target = Some t →
  ∃ t', actives σ' !! target = Some t' ∧ allPw t ⊆ allPw t' ∧
        ∀ a sa j, rtc (parentStep σ0) src a → actives σ0 !! a = Some sa →
                  j ∈ jobs sa → JobPw j ∈ allPw t'.
Proof.
  revert src σ σ' t. induction fuel as [|fuel IH]; intros src σ σ' t Hl; [discriminate|].
  simpl. destruct (actives σ !! src) as [srcSt|] eqn:Hsrc; [|discriminate].
  intros Hloop Ht.
  destruct (attach_all_allPw target (rangeNat (jobs srcSt)) σ t Ht)
    as (t1 & Ht1 & Hsub1 & Hjobs1).
  pose proof (attach_all_pwOnly target (rangeNat (jobs srcSt)) σ) as Hpw1.
  revert Hloop Ht1 Hpw1.
  generalize (foldl (λ σ j, attach target (JobPw j) σ) σ (rangeNat (jobs srcSt))).
  intros σ1 Hloop Ht1 Hpw1.
  assert (Hl1 : sameLinks σ0 σ1)
    by (eapply sameLinks_trans; [exact Hl|by eapply pwOnly_sameLinks]).
  assert (Hps : ∃ t', actives σ' !! target = Some t' ∧ allPw t1 ⊆ allPw t' ∧
            ∀ p, p ∈ rangeDigest (parents srcSt) →
              ∀ a sa j, rtc (parentStep σ0) p a → actives σ0 !! a = Some sa →
                        j ∈ jobs sa → JobPw j ∈ allPw t').
  { clear Hpw1 Hsub1 Hjobs1. revert σ1 t1 Hloop Ht1 Hl1.
    generalize (rangeDigest (parents srcSt)). intros ps.
    induction ps as [|p ps IHp]; intros σ1 t1 Hloop Ht1 Hl1.
    - injection Hloop as <-. exists t1. split_and!; [done..|].
      intros p Hp. by apply elem_of_nil in Hp.
    - obind_as Hloop as σ2 Hc.
      destruct (IH _ _ _ _ Hl1 Hc Ht1) as (t2 & Ht2 & Hsub2 & Hanc2).
      assert (Hl2 : sameLinks σ0 σ2).
      { eapply sameLinks_trans; [exact Hl1|].
        eapply pwOnly_sameLinks, connectProgressFromState_pwOnly; eauto. }
      destruct (IHp _ _ Hloop Ht2 Hl2) as (t' & Ht' & Hsub & Hanc).
      exists t'. split_and!; [done|set_solver|].
      intros p' Hp'. apply elem_of_cons in Hp' as [->|Hp']; [|by apply Hanc].
      intros a sa j Hrtc Ha Hj. apply Hsub. eauto. }
  destruct Hps as (t' & Ht' & Hsub & Hanc).
  exists t'. split_and!; [done|set_solver|].
  intros a sa j Hrtc Ha Hj.
  destruct (rtc_inv _ _ Hrtc) as [<-|(p & (s0 & Hs0 & Hp) & Hrest)].
  - destruct (sameLinks_lookup _ _ _ _ Hl Ha) as (s' & Hs' & Hj' & _).
    rewrite Hsrc in Hs'. injection Hs' as <-.
    apply Hsub, Hjobs1. rewrite rangeNat_perm. apply elem_of_elements. by rewrite Hj'.
  - destruct (sameLinks_lookup _ _ _ _ Hl Hs0) as (s' & Hs' & _ & Hp').
    rewrite Hsrc in Hs'. injection Hs' as <-.
    apply (Hanc p) with a sa; [|done..].
    rewrite rangeDigest_perm. apply elem_of_elements. by rewrite Hp'.
Qed.

(** Progress reaches every job above a state: when
    [connectProgressFromState(target, src)] returns, the writer of every
    job of [src], of its parents, of their parents and so on is among the
    writers of [target]; writers that were attached before stay; and
    nothing but the writers of [target] changes. *)
Theorem connectProgressFromState_attaches_ancestors fuel target src σ σ' t :
  connectProgressFromState fuel target src σ = Done σ' →
  actives σ !! target = Some t →
  ∃ t', actives σ' !! target = Some t' ∧ allPw t ⊆ allPw t' ∧
        (∀ a sa j, rtc (parentStep σ) src a → actives σ !! a = Some sa →
                   j ∈ jobs sa → JobPw j ∈ allPw t') ∧
        pwOnly target σ σ'.
Proof.
  intros Hc Ht.
  destruct (connectProgressFromState_sound _ _ _ σ _ _ _ (sameLinks_refl σ) Hc Ht)
    as (t' & Ht' & Hsub & Hanc).
  exists t'. split_and!; [done..|]. by eapply connectProgressFromState_pwOnly.
Qed.

End ProgressFacts.

(** *** Releasing and discarding *)

Section ReleaseFacts.
Context `{RT : Runtime}.

Lemma ownerRoots_Forall2 fuel (h : gmap nat edge) es roots :
  ownerRoots fuel h es = Done roots →
  Forall2 (λ p r, ownerRoot fuel h p = Done r) es roots.
Proof.
  revert roots. induction es as [|e es IH]; intros roots Hr; simpl in Hr.
  - injection Hr as <-. constructor.
  - obind_as Hr as r Hroot. obind_as Hr as rs Hrs. injection Hr as <-.
    constructor; [done|by apply IH].
Qed.

(** [state.Release] releases, for every edge of the state, the edge at the
    end of its owner chain: for an edge that was merged this is the edge
    it was merged into, not the edge of the state itself.  One release per
    edge of the state; the registry and the edge objects stay as they
    are. *)
Theorem Release_releases_representatives fuel st σ σ' :
  Release fuel st σ = Done σ' →
  ∃ roots,
    releasedEdges σ' = releasedEdges σ ++ roots ∧
    length roots = size (dom (edges st)) ∧
    (∀ r, r ∈ roots ↔ ∃ i p, edges st !! i = Some p ∧ representative (heap σ) p r) ∧
    actives σ' = actives σ ∧ heap σ' = heap σ ∧ released σ' = released σ ++ [st].
Proof.
  unfold Release. intros Hr. obind_as Hr as roots Ho. injection Hr as <-. simpl.
  exists roots. apply ownerRoots_Forall2 in Ho.
  set (es := omap (λ i, edges st !! i) (rangeNat (dom (edges st)))) in *.
  assert (Hes : ∀ p, p ∈ es ↔ ∃ i, edges st !! i = Some p).
  { intros p. unfold es. rewrite list_elem_of_omap. split.
    - intros (i & _ & Hi). eauto.
    - intros [i Hi]. exists i. split; [|done].
      rewrite rangeNat_perm. apply elem_of_elements, elem_of_dom. eauto. }
  assert (Hlen : length es = size (dom (edges st))).
  { unfold es. rewrite rangeNat_perm.
    assert (Hall : ∀ l : list nat, (∀ i, i ∈ l → is_Some (edges st !! i)) →
              length (omap (λ i, edges st !! i) l) = length l).
    { induction l as [|i l IH]; intros Hl; [done|]. simpl.
      destruct (Hl i (list_elem_of_here _ _)) as [p ->]. simpl. f_equal.
      apply IH. intros i' Hi'. by apply Hl, list_elem_of_further. }
    rewrite Hall; [done|]. intros i Hi. by apply elem_of_elements, elem_of_dom in Hi. }
  split_and!; [done| |  |done..].
  - rewrite <- Hlen. symmetry. by eapply Forall2_length.
  - intros r. split.
    + intros Hin. destruct (list_elem_of_lookup_1 _ _ Hin) as [n Hn].
      destruct (Forall2_lookup_r _ _ _ _ _ Ho Hn) as (p & Hp & Hroot).
      apply list_elem_of_lookup_2, Hes in Hp as [i Hi].
      exists i, p. split; [done|]. by eapply ownerRoot_representative.
    + intros (i & p & Hi & Hrep).
      assert (Hp : p ∈ es) by (apply Hes; eauto).
      destruct (list_elem_of_lookup_1 _ _ Hp) as [n Hn].
      destruct (Forall2_lookup_l _ _ _ _ _ Ho Hn) as (r' & Hr' & Hroot).
      apply ownerRoot_representative in Hroot.
      rewrite (representative_unique _ _ _ _ Hrep Hroot).
      by eapply list_elem_of_lookup_2.
Qed.

Lemma pwKept_refl σ : pwKept σ σ.
Proof. intros k s' Hs'. eauto. Qed.

Lemma pwKept_trans σ1 σ2 σ3 : pwKept σ1 σ2 → pwKept σ2 σ3 → pwKept σ1 σ3.
Proof.
  intros A B k s3 H3. destruct (B k s3 H3) as (s2 & H2 & Hs2).
  destruct (A k s2 H2) as (s1 & H1 & Hs1). exists s1. split; [done|set_solver].
Qed.

Lemma pwKept_update σ k s s1 :
  actives σ !! k = Some s → allPw s1 ⊆ allPw s → pwKept σ (setState k s1 σ).
Proof.
  intros Hk Hsub k' s' Hs'. simpl in Hs'. destruct (decide (k' = k)) as [->|Hne].
  - rewrite lookup_insert_eq in Hs'. injection Hs' as <-. eauto.
  - rewrite lookup_insert_ne in Hs' by done. eauto.
Qed.

Lemma deleteIfUnreferenced_pwKept fuel k st σ σ' :
  deleteIfUnreferenced fuel k st σ = Done σ' → pwKept σ σ'.
Proof.
  revert k st σ σ'. induction fuel as [|fuel IH]; intros k st σ σ'; [discriminate|].
  simpl. destruct (decide (size (jobs st) = 0 ∧ size (parents st) = 0));
    [|intros [= <-]; apply pwKept_refl].
  intros Hd. obind_as Hd as σ1 Hloop. obind_as Hd as σ2 Hrel. injection Hd as <-.
  assert (H1 : pwKept σ σ1).
  { revert Hloop. generalize (rangeDigest (childVtx st)). intros cs. revert σ.
    induction cs as [|c cs IHc]; intros σ Hl.
    - injection Hl as <-. apply pwKept_refl.
    - destruct (actives σ !! c) as [chState|] eqn:Hc; [|discriminate].
      obind_as Hl as σa Hdel.
      eapply pwKept_trans; [|eapply pwKept_trans; [eapply IH, Hdel|eapply IHc, Hl]].
      by eapply pwKept_update. }
  destruct (Release_inv _ _ _ _ Hrel) as (Ha & _).
  intros k' s' Hs'. simpl in Hs'. apply lookup_delete_Some in Hs' as [_ Hs'].
  rewrite Ha in Hs'. by apply H1.
Qed.

Lemma discardLoop_writers fuel j ks σ σ' :
  discardLoop fuel j ks σ = Done σ' →
  pwKept σ σ' ∧
  (∀ k s', k ∈ ks → actives σ' !! k = Some s' → JobPw j ∉ allPw s').
Proof.
  revert σ. induction ks as [|k ks IH]; intros σ Hl; simpl in Hl.
  - injection Hl as <-. split; [apply pwKept_refl|].
    intros k s' Hk. by apply elem_of_nil in Hk.
  - destruct (actives σ !! k) as [st|] eqn:Hk.
    2:{ destruct (IH σ Hl) as [I1 I2]. split; [done|].
        intros k' s' Hk' Hs'. apply elem_of_cons in Hk' as [->|Hk']; [|eauto].
        destruct (I1 k s' Hs') as (s & Hs & _). congruence. }
    obind_as Hl as σ1 Hd.
    assert (H1 : pwKept σ σ1).
    { destruct (decide (j ∈ jobs st)); [|injection Hd as <-; apply pwKept_refl].
      eapply pwKept_trans; [|eapply deleteIfUnreferenced_pwKept, Hd].
      by eapply pwKept_update. }
    revert Hl. set (σ2 := match actives σ1 !! k with Some _ => _ | None => _ end).
    intros Hl.
    assert (H2 : pwKept σ1 σ2 ∧
                 ∀ s2, actives σ2 !! k = Some s2 → JobPw j ∉ allPw s2).
    { unfold σ2. destruct (actives σ1 !! k) as [s1|] eqn:Hk1.
      - split; [eapply pwKept_update; [done|simpl; set_solver]|].
        intros s2. simpl. rewrite lookup_insert_eq. intros [= <-]. simpl. set_solver.
      - split; [apply pwKept_refl|]. intros s2. congruence. }
    destruct H2 as [H2 H2k]. destruct (IH σ2 Hl) as [I1 I2].
    split; [eauto using pwKept_trans|].
    intros k' s' Hk' Hs'. apply elem_of_cons in Hk' as [->|Hk']; [|eauto].
    destruct (I1 k s' Hs') as (s2 & Hs2 & Hsub). specialize (H2k s2 Hs2). set_solver.
Qed.

(** After [Job.Discard] no state in the registry reports progress to the
    writer of the discarded job any more; and no state gained a writer. *)
Theorem Discard_detaches_writer fuel j σ σ' :
  Discard fuel j σ = Done σ' →
  (∀ k s', actives σ' !! k = Some s' → JobPw j ∉ allPw s') ∧ pwKept σ σ'.
Proof.
  unfold Discard. intros Hd. destruct (discardLoop_writers _ _ _ _ _ Hd) as [H1 H2].
  split; [|done]. intros k s' Hs'. apply (H2 k s'); [|done].
  destruct (H1 k s' Hs') as (s & Hs & _).
  rewrite rangeDigest_perm. apply elem_of_elements, elem_of_dom. eauto.
Qed.

End ReleaseFacts.

(** *** Provenance *)

Section ProvenanceFacts.
Context `{RT : Runtime}.
Context {F : Type}.
Implicit Types f : Op → F → option string * F.

Lemma walkProvenance_unfold v f σ vis a log :
  walkProvenance v f σ (vis, a, log)
  = if decide (Vertex_Digest v ∈ vis) then (None, (vis, a, log))
    else
      let vis1 := {[Vertex_Digest v]} ∪ vis in
      match walkVisit (Vertex_Digest v) f σ a log with
      | (Some err, a1, log1) => (Some err, (vis1, a1, log1))
      | (None, a1, log1) => walkInputs (Vertex_Inputs v) f σ (vis1, a1, log1)
      end.
Proof.
  assert (Hloop : ∀ ins w,
    (fix inputsLoop (ins : list (nat * Vertex)) (w : gset string * F * list Op)
       : option string * (gset string * F * list Op) :=
       match ins with
       | [] => (None, w)
       | inp :: ins =>
         match walkProvenance (snd inp) f σ w with
         | (Some err, w) => (Some err, w)
         | (None, w) => inputsLoop ins w
         end
       end) ins w = walkInputs ins f σ w).
  { induction ins as [|inp ins IH]; intros w; simpl; [done|].
    destruct (walkProvenance inp.2 f σ w) as [[e|] w']; [done|apply IH]. }
  destruct v as [d n o ins|v d ins]; simpl;
    (destruct (decide (d ∈ vis)); [done|]); unfold walkVisit;
    repeat match goal with
    | |- context [match ?x with _ => _ end] =>
        lazymatch x with
        | actives _ !! _ => destruct x
        | op _ => destruct x
        | so_op _ => destruct x
        | f _ _ => destruct x as [[?|] ?]
        end
    | |- context [if op_provenance ?o then _ else _] => destruct (op_provenance o)
    end; simpl; try done; apply Hloop.
Qed.

Lemma digestsOf_unfold v :
  digestsOf v
  = {[Vertex_Digest v]} ∪ ⋃ (map (λ e, digestsOf (snd e)) (Vertex_Inputs v)).
Proof.
  assert (Hgo : ∀ l : list (nat * Vertex),
    (fix go (l : list (nat * Vertex)) : gset string :=
       match l with
       | [] => ∅
       | e :: l => digestsOf (snd e) ∪ go l
       end) l = ⋃ (map (λ e, digestsOf (snd e)) l)).
  { induction l as [|e l IH]; simpl; [done|]. by rewrite IH. }
  destruct v; simpl; by rewrite Hgo.
Qed.

Lemma Calls_app f a os1 a1 os2 err a' :
  Calls f a os1 None a1 → Calls f a1 os2 err a' → Calls f a (os1 ++ os2) err a'.
Proof.
  revert a. induction os1 as [|o os1 IH]; intros a H1 H2.
  - inversion H1; subst. done.
  - inversion H1; subst; simpl.
    + by eapply Calls_cons.
    + eapply Calls_cons; [done|]. by apply IH.
Qed.

Lemma providerIn_mono σ D D' o : D ⊆ D' → providerIn σ D o → providerIn σ D' o.
Proof. intros Hs (Hp & d & st & so & Hd & ?). split; [done|]. exists d, st, so. set_solver. Qed.

Lemma walkVisit_spec d f σ a log err a1 log1 :
  walkVisit d f σ a log = (err, a1, log1) →
  ∃ new, log1 = log ++ new ∧ length new ≤ 1 ∧ Forall (providerIn σ {[d]}) new ∧
         Calls f a new err a1.
Proof.
  unfold walkVisit. destruct (actives σ !! d) as [st|] eqn:Hst.
  2:{ intros [= <- <- <-]. exists []. rewrite app_nil_r. split_and!; [done|simpl; lia|constructor|constructor]. }
  destruct (op st) as [so|] eqn:Hso.
  2:{ intros [= <- <- <-]. exists []. rewrite app_nil_r. split_and!; [done|simpl; lia|constructor|constructor]. }
  destruct (so_op so) as [o|] eqn:Ho.
  2:{ intros [= <- <- <-]. exists []. rewrite app_nil_r. split_and!; [done|simpl; lia|constructor|constructor]. }
  destruct (op_provenance o) eqn:Hp.
  2:{ intros [= <- <- <-]. exists []. rewrite app_nil_r. split_and!; [done|simpl; lia|constructor|constructor]. }
  destruct (f o a) as [e a'] eqn:Hf. intros [= <- <- <-].
  exists [o]. split_and!; [done|simpl; lia| |by constructor].
  constructor; [|constructor]. split; [done|]. exists d, st, so. set_solver.
Qed.

(** What a walk from [v] does, started with the set [vis] of visited
    digests. *)
Lemma walkProvenance_spec v f σ vis a log err vis' a' log' :
  walkProvenance v f σ (vis, a, log) = (err, (vis', a', log')) →
  vis ⊆ vis' ∧ vis' ⊆ vis ∪ digestsOf v ∧
  ∃ new, log' = log ++ new ∧ length new + size vis ≤ size vis' ∧
         Forall (providerIn σ (digestsOf v)) new ∧ Calls f a new err a'.
Proof.
  remember (vsize v) as n eqn:Hn.
  assert (Hle : vsize v ≤ n) by lia. clear Hn.
  revert v Hle vis a log err vis' a' log'.
  induction n as [|n IH]; intros v Hle vis a log err vis' a' log' Hw.
  { destruct v; simpl in Hle; lia. }
  rewrite walkProvenance_unfold in Hw.
  destruct (decide (Vertex_Digest v ∈ vis)) as [Hin|Hnin].
  { injection Hw as <- <- <- <-. split_and!; [done|set_solver|].
    exists []. rewrite app_nil_r. split_and!; [done|simpl; lia|constructor|constructor]. }
  simpl in Hw.
  destruct (walkVisit (Vertex_Digest v) f σ a log) as [[e1 a1] log1] eqn:Hv.
  destruct (walkVisit_spec _ _ _ _ _ _ _ _ Hv) as (new1 & -> & Hlen1 & Hprov1 & Hcalls1).
  assert (Hsz : size ({[Vertex_Digest v]} ∪ vis) = S (size vis)).
  { rewrite size_union by set_solver. by rewrite size_singleton. }
  assert (Hprov1' : Forall (providerIn σ (digestsOf v)) new1).
  { eapply Forall_impl; [exact Hprov1|]. intros o. apply providerIn_mono.
    rewrite digestsOf_unfold. set_solver. }
  destruct e1 as [e1|].
  { injection Hw as <- <- <- <-. split_and!; [set_solver|rewrite digestsOf_unfold; set_solver|].
    exists new1. split_and!; [done|lia|done|done]. }
  (* the inputs *)
  assert (Hins : ∀ ins vis a log err vis' a' log',
    (∀ e, e ∈ ins → vsize e.2 ≤ n) →
    walkInputs ins f σ (vis, a, log) = (err, (vis', a', log')) →
    vis ⊆ vis' ∧ vis' ⊆ vis ∪ ⋃ (map (λ e, digestsOf (snd e)) ins) ∧
    ∃ new, log' = log ++ new ∧ length new + size vis ≤ size vis' ∧
           Forall (providerIn σ (⋃ (map (λ e, digestsOf (snd e)) ins))) new ∧
           Calls f a new err a').
  { clear -IH. induction ins as [|inp ins IHi];
      intros vis a log err vis' a' log' Hsz Hw; simpl in Hw.
    - injection Hw as <- <- <- <-. split_and!; [done|set_solver|].
      exists []. rewrite app_nil_r. split_and!; [done|simpl; lia|constructor|constructor].
    - destruct (walkProvenance inp.2 f σ (vis, a, log)) as [e1 [[vis1 a1] log1]] eqn:Hw1.
      destruct (IH inp.2 (Hsz inp (list_elem_of_here _ _)) _ _ _ _ _ _ _ Hw1)
        as (S1 & S2 & new1 & -> & L1 & P1 & C1).
      destruct e1 as [e1|].
      + injection Hw as <- <- <- <-. simpl. split_and!; [done|set_solver|].
        exists new1. split_and!; [done|done| |done].
        eapply Forall_impl; [exact P1|]. intros o. apply providerIn_mono. set_solver.
      + destruct (IHi _ _ _ _ _ _ _ (λ e He, Hsz e (list_elem_of_further _ _ _ He)) Hw)
          as (S3 & S4 & new2 & -> & L2 & P2 & C2).
        simpl. split_and!; [set_solver|set_solver|].
        exists (new1 ++ new2). rewrite length_app, app_assoc.
        split_and!; [done|lia| |by eapply Calls_app].
        apply Forall_app. split.
        * eapply Forall_impl; [exact P1|]. intros o. apply providerIn_mono. set_solver.
        * eapply Forall_impl; [exact P2|]. intros o. apply providerIn_mono. set_solver. }
  destruct (Hins _ _ _ _ _ _ _ _
              (λ e He, ltac:(pose proof (vsize_inputs v e He); lia)) Hw)
    as (S3 & S4 & new2 & -> & L2 & P2 & C2).
  split_and!; [set_solver|rewrite digestsOf_unfold; set_solver|].
  exists (new1 ++ new2). rewrite length_app, app_assoc.
  split_and!; [done|lia| |by eapply Calls_app].
  apply Forall_app. split; [done|].
  eapply Forall_impl; [exact P2|]. intros o. apply providerIn_mono.
  rewrite digestsOf_unfold. set_solver.
Qed.

(** The provenance walk of a result of [Job.Build] calls the callback at
    most once for each distinct digest among the vertices reached from the
    edge, and only on ops that are resolved, belong to the active state of
    such a digest and are provenance providers; it hands the state of the
    callback from call to call, stops at the first call that fails, and
    returns what the last call returned. *)
Theorem WalkProvenance_once_per_digest (wp : withProvenance) f a σ j e err a' log :
  wp_j wp = Some j → wp_e wp = Some e →
  WalkProvenance wp f a σ = Done (err, a', log) →
  length log ≤ size (digestsOf (snd e)) ∧
  Forall (providerIn σ (digestsOf (snd e))) log ∧
  Calls f a log err a'.
Proof.
  intros Hj He. unfold WalkProvenance. rewrite Hj, He.
  destruct (walkProvenance e.2 f σ (∅, a, [])) as [err0 [[vis' a0] log0]] eqn:Hw.
  intros [= <- <- <-].
  destruct (walkProvenance_spec _ _ _ _ _ _ _ _ _ _ Hw)
    as (_ & Hsub & new & -> & Hlen & Hprov & Hcalls).
  simpl. split_and!; [|done|done].
  rewrite size_empty in Hlen.
  assert (size vis' ≤ size (digestsOf e.2)) by (apply subseteq_size; set_solver).
  lia.
Qed.

End ProvenanceFacts.

(** In [subBuilt] the state of "x" has the parent "t", which job 3 holds:
    connecting the progress of "x" puts the writer of job 3 among its
    writers. *)
Lemma connectProgressFromState_attaches_ancestors_witness :
  ∃ σ' t', connectProgressFromState 5 "x" "x" subBuilt = Done σ' ∧
           actives σ' !! "x" = Some t' ∧ JobPw 3 ∈ allPw t'.
Proof.
  assert (∃ σ', connectProgressFromState 5 "x" "x" subBuilt = Done σ') as [σ' Hc]
    by (eexists; vm_compute; reflexivity).
  assert (∃ t, actives subBuilt !! "x" = Some t ∧ "t" ∈ parents t) as (t & Ht & Hp)
    by (eexists; split; vm_compute; reflexivity).
  assert (∃ st, actives subBuilt !! "t" = Some st ∧ 3 ∈ jobs st) as (st & Hst & Hj)
    by (eexists; split; vm_compute; reflexivity).
  pose proof Hc as Hc2.
  eapply connectProgressFromState_attaches_ancestors with (t := t) in Hc2; [|exact Ht].
  destruct Hc2 as (t' & Ht' & _ & Hanc & _).
  exists σ', t'. split; [exact Hc|]. split; [exact Ht'|].
  apply (Hanc "t" st 3); [|exact Hst|exact Hj].
  apply rtc_once. exists t. split; [exact Ht|exact Hp].
Defined.

(** In [merged] edge 0 of the state of [demoS] is owned by the edge object
    6 of the state of [demoT]: releasing the state of [demoS] releases the
    edge object 6. *)
Lemma Release_releases_representatives_witness :
  ∃ st σ', actives merged !! "s" = Some st ∧
           Release 5 st merged = Done σ' ∧
           releasedEdges σ' = [6] ∧
           ∃ roots,
             releasedEdges σ' = releasedEdges merged ++ roots ∧
             length roots = size (dom (edges st)) ∧
             (∀ r, r ∈ roots ↔
                   ∃ i p, edges st !! i = Some p ∧ representative (heap merged) p r) ∧
             actives σ' = actives merged ∧ heap σ' = heap merged ∧
             released σ' = released merged ++ [st].
Proof.
  eexists _, _. split; [vm_compute; reflexivity|].
  split; [vm_compute; reflexivity|].
  split; [vm_compute; reflexivity|].
  eapply (Release_releases_representatives 5). vm_compute. reflexivity.
Defined.

(** Discarding job 3 from [merged] leaves the states of [demoT] and
    [demoU], which job 1 holds since the merge, without the writer of
    job 3. *)
Lemma Discard_detaches_writer_witness :
  ∃ σ', Discard 5 3 merged = Done σ' ∧ is_Some (actives σ' !! "t") ∧
        (∀ k s', actives σ' !! k = Some s' → JobPw 3 ∉ allPw s') ∧
        pwKept merged σ'.
Proof.
  eexists. split; [vm_compute; reflexivity|].
  split; [vm_compute; eauto|].
  eapply (Discard_detaches_writer 5 3 merged). vm_compute. reflexivity.
Defined.

(** The provenance walk of the result of a build of [demoS] in
    [resolvedS] calls a counting callback once. *)
Lemma WalkProvenance_once_per_digest_witness :
  ∃ wp σ' log,
    Job_Build 5 1 (0, demoS) resolvedS = Done (inl wp, σ') ∧
    WalkProvenance wp (λ _ (n : nat), (None, S n)) 0 σ' = Done (None, 1, log) ∧
    length log ≤ size (digestsOf demoS) ∧
    Calls (λ _ (n : nat), (None, S n)) 0 log None 1.
Proof.
  eexists _, _, _. split; [vm_compute; reflexivity|].
  split; [vm_compute; reflexivity|].
  match goal with
  | |- length ?l ≤ _ ∧ Calls ?f _ _ _ _ =>
    assert (Hw : WalkProvenance
                   {| wp_CachedResult := {| cr_id := 0; CacheKeys := [7] |};
                      wp_j := Some 1;
                      wp_e := Some (0, vertexWithCacheOptions demoS "s" []) |}
                   f 0 (solverOf (Job_Build 5 1 (0, demoS) resolvedS))
                 = Done (None, 1, l))
      by (vm_compute; reflexivity)
  end.
  eapply WalkProvenance_once_per_digest
    with (j := 1) (e := (0, vertexWithCacheOptions demoS "s" [])) in Hw;
    [|reflexivity|reflexivity].
  destruct Hw as (H1 & _ & H3).
  split; [exact H1|exact H3].
Defined.

(** *** What a load leaves for a job *)

Section HoldingFacts.
Context `{RT : Runtime}.

Lemma list_eqb_eq {A} (eqb : A → A → bool) (l l' : list A) :
  (∀ x y, eqb x y = true → x = y) → list_eqb eqb l l' = true → l = l'.
Proof.
  intros Heq. revert l'. induction l as [|x l IH]; intros [|y l']; simpl; try done.
  intros [Hx Hl]%andb_true_iff. f_equal; [by apply Heq|by apply IH].
Qed.

Lemma CacheManager_eqb_eq a b : CacheManager_eqb a b = true → a = b.
Proof.
  destruct a, b. unfold CacheManager_eqb. simpl.
  intros [Hi Ho]%andb_true_iff. apply String.eqb_eq in Hi. apply Nat.eqb_eq in Ho.
  by subst.
Qed.

Lemma VertexOptions_eqb_eq a b : VertexOptions_eqb a b = true → a = b.
Proof.
  destruct a, b. unfold VertexOptions_eqb. simpl.
  intros [Hi Hc]%andb_true_iff. apply Bool.eqb_prop in Hi.
  apply (list_eqb_eq _ _ _ CacheManager_eqb_eq) in Hc. by subst.
Qed.

(** The keys of the memo of a load are compared by content. *)
Lemma Vertex_eqb_eq a b : Vertex_eqb a b = true → a = b.
Proof.
  remember (vsize a) as n eqn:Hn.
  assert (Hle : vsize a ≤ n) by lia. clear Hn. revert a Hle b.
  induction n as [|n IH]; intros a Hle b.
  { destruct a; simpl in Hle; lia. }
  assert (Hgo : ∀ ins ins' : list (nat * Vertex),
    (∀ e, e ∈ ins → vsize e.2 ≤ n) →
    (fix go (l l' : list (nat * Vertex)) : bool :=
       match l, l' with
       | [], [] => true
       | (i, x) :: l, (i', x') :: l' => Nat.eqb i i' && Vertex_eqb x x' && go l l'
       | _, _ => false
       end) ins ins' = true → ins = ins').
  { induction ins as [|[i x] ins IHi]; intros [|[i' x'] ins'] Hsz; try done.
    intros [[Hi Hx]%andb_true_iff Hl]%andb_true_iff.
    apply Nat.eqb_eq in Hi. subst i'.
    rewrite (IH x (Hsz (i, x) (list_elem_of_here _ _)) x' Hx).
    f_equal. apply IHi; [|done]. intros e He. by apply Hsz, list_elem_of_further. }
  destruct a as [d nm o ins|v d ins], b as [d' nm' o' ins'|v' d' ins']; simpl; try done.
  - intros [[[Hd Hnm]%andb_true_iff Ho]%andb_true_iff Hins]%andb_true_iff.
    apply String.eqb_eq in Hd, Hnm. apply VertexOptions_eqb_eq in Ho.
    apply Hgo in Hins; [by subst|].
    intros e He. pose proof (vsize_inputs (clientVertex d nm o ins) e He). lia.
  - intros [[Hv Hd]%andb_true_iff Hins]%andb_true_iff.
    apply String.eqb_eq in Hd. apply IH in Hv; [|simpl in Hle; lia].
    apply Hgo in Hins; [by subst|].
    intros e He. pose proof (vsize_inputs (vertexWithCacheOptions v d ins) e He). lia.
Qed.

Lemma memoLookup_Some memo v x :
  memoLookup memo v = Some x → (v, x) ∈ memo.
Proof.
  induction memo as [|[k y] memo IH]; simpl; [done|].
  destruct (Vertex_eqb k v) eqn:Hk.
  - intros [= ->]. apply Vertex_eqb_eq in Hk as ->. apply list_elem_of_here.
  - intros Hm. by apply list_elem_of_further, IH.
Qed.

Lemma jobsKept_refl σ : jobsKept σ σ.
Proof. intros k st Hk. eauto. Qed.

Lemma jobsKept_trans σ1 σ2 σ3 : jobsKept σ1 σ2 → jobsKept σ2 σ3 → jobsKept σ1 σ3.
Proof.
  intros A B k s1 H1. destruct (A k s1 H1) as (s2 & H2 & Hs2).
  destruct (B k s2 H2) as (s3 & H3 & Hs3). exists s3. split; [done|set_solver].
Qed.

Lemma holdsFor_mono σ σ' j d : jobsKept σ σ' → holdsFor σ j d → holdsFor σ' j d.
Proof.
  intros Hk (k & st & Hkey & Hst & Hj). destruct (Hk k st Hst) as (st' & Hst' & Hsub).
  exists k, st'. split_and!; [done..|set_solver].
Qed.

(** [loadVertex] enters a state under the digest of the vertex or under
    its ignore-cache digest. *)
Lemma loadVertex_key fuel v inputs parent j memo σ :
  ∃ k d' v' st σ1,
    loadVertex fuel v inputs parent j memo σ
    = enterState fuel k d' v' v parent j memo st σ1 ∧
    (k = Vertex_Digest v ∨ k = ignoreCacheDigest (Vertex_Digest v)) ∧
    actives σ1 !! k = Some st ∧
    (∀ k', k' ≠ k → actives σ1 !! k' = actives σ !! k') ∧
    (actives σ !! k = Some st ∨ (actives σ !! k = None ∧ jobs st = ∅)).
Proof.
  unfold loadVertex, dedup.
  destruct (actives σ !! ignoreCacheDigest (Vertex_Digest v)) as [st1|] eqn:H1.
  - simpl. rewrite H1. eexists _, _, _, _, _. split; [reflexivity|]. auto.
  - set (d := match actives σ !! Vertex_Digest v with
              | Some st =>
                if negb (IgnoreCache (Vertex_Options (vtx st))) &&
                   IgnoreCache (Vertex_Options v)
                then ignoreCacheDigest (Vertex_Digest v) else Vertex_Digest v
              | None => Vertex_Digest v
              end).
    assert (Hd' : d = Vertex_Digest v ∨ d = ignoreCacheDigest (Vertex_Digest v)).
    { unfold d. destruct (actives σ !! Vertex_Digest v) as [st|]; [|by left].
      destruct (negb _ && _); auto. }
    destruct (actives σ !! d) as [st|] eqn:Hd.
    + simpl. rewrite Hd. eexists _, _, _, _, _. split; [reflexivity|]. auto.
    + simpl. rewrite lookup_insert_eq.
      eexists _, _, _, _, _. split; [reflexivity|]. simpl.
      split; [done|]. split; [apply lookup_insert_eq|]. split; [|by right].
      intros k' Hne. by rewrite lookup_insert_ne.
Qed.

Lemma loadVertex_holds fuel v inputs parent j memo σ r memo' σ' :
  loadVertex fuel v inputs parent (Some j) memo σ = Done (r, memo', σ') →
  jobsKept σ σ' ∧
  (∀ v', r = inl v' → holdsFor σ' j (Vertex_Digest v) ∧ memo' = (v, v') :: memo) ∧
  (∀ e, r = inr e → memo' = memo).
Proof.
  destruct (loadVertex_key fuel v inputs parent (Some j) memo σ)
    as (k & d' & v1 & st & σ1 & -> & Hkey & Hst & Hoth & Hold).
  intros He.
  destruct (enterState_inv _ _ _ _ _ _ _ _ _ _ _ _ _ Hst He)
    as ((st' & Hst' & _ & _ & _ & Hjobs) & _ & _ & _ & Hrest & _).
  split_and!.
  - intros k0 s0 Hs0. destruct (decide (k0 = k)) as [->|Hne].
    + exists st'. split; [done|]. rewrite Hjobs.
      destruct Hold as [Hsame|[Hnone _]]; [|congruence].
      rewrite Hs0 in Hsame. injection Hsame as ->. set_solver.
    + rewrite <- (Hoth k0 Hne) in Hs0.
      destruct (Hrest k0 s0 Hne Hs0) as (s' & Hs' & (_ & Hj & _) & _).
      exists s'. split; [done|]. by rewrite Hj.
  - intros v' ->. unfold enterState in He.
    obind_as He as [err σ2] Hlink. destruct err as [e|]; [discriminate|].
    obind_as He as σ3 Hconn. injection He as <- <- <-.
    split; [|done]. exists k, st'. split_and!; [done..|]. rewrite Hjobs. set_solver.
  - intros e ->. unfold enterState in He.
    obind_as He as [err σ2] Hlink. destruct err as [e'|].
    + by injection He as _ <- _.
    + obind_as He as σ3 Hconn. discriminate.
Qed.

(** What [loadUnlocked] keeps and establishes, with the memo of the call. *)
Lemma loadUnlocked_holds fuel parent j v memo σ r memo' σ' :
  (∀ u u' d, (u, u') ∈ memo → d ∈ digestsOf u → holdsFor σ j d) →
  loadUnlocked fuel v parent (Some j) memo σ = Done (r, memo', σ') →
  jobsKept σ σ' ∧
  (∀ u u' d, (u, u') ∈ memo' → d ∈ digestsOf u → holdsFor σ' j d) ∧
  (∀ v', r = inl v' → ∀ d, d ∈ digestsOf v → holdsFor σ' j d).
Proof.
  remember (vsize v) as n eqn:Hn.
  assert (Hle : vsize v ≤ n) by lia. clear Hn.
  revert v Hle memo σ r memo' σ'.
  induction n as [|n IH]; intros v Hle memo σ r memo' σ' Hmemo Hl.
  { destruct v; simpl in Hle; lia. }
  rewrite loadUnlocked_unfold in Hl.
  destruct (memoLookup memo v) as [x|] eqn:Hlook.
  { injection Hl as <- <- <-. split_and!; [apply jobsKept_refl|done|].
    intros v' _ d Hd. apply memoLookup_Some in Hlook. eauto. }
  obind_as Hl as [[ri mi] σi] Hin.
  assert (Hins : ∀ es inputs memo σ ri mi σi,
    (∀ e, e ∈ es → vsize e.2 ≤ n) →
    (∀ u u' d, (u, u') ∈ memo → d ∈ digestsOf u → holdsFor σ j d) →
    loadInputs fuel es inputs parent (Some j) memo σ = Done (ri, mi, σi) →
    jobsKept σ σi ∧
    (∀ u u' d, (u, u') ∈ mi → d ∈ digestsOf u → holdsFor σi j d) ∧
    (∀ ins', ri = inl ins' → ∀ e d, e ∈ es → d ∈ digestsOf e.2 → holdsFor σi j d)).
  { clear -IH. induction es as [|e es IHe]; intros inputs memo σ ri mi σi Hsz Hmemo Hl;
      simpl in Hl.
    - injection Hl as <- <- <-. split_and!; [apply jobsKept_refl|done|].
      intros ins' _ e d He. by apply elem_of_nil in He.
    - obind_as Hl as [[r1 m1] σ1] Hu.
      destruct (IH e.2 (Hsz e (list_elem_of_here _ _)) _ _ _ _ _ Hmemo Hu)
        as (K1 & M1 & R1).
      destruct r1 as [v'|err].
      2:{ injection Hl as <- <- <-. split_and!; [done..|]. intros ins'; discriminate. }
      destruct (IHe _ _ _ _ _ _ (λ e' He', Hsz e' (list_elem_of_further _ _ _ He')) M1 Hl)
        as (K2 & M2 & R2).
      split_and!; [by eapply jobsKept_trans|done|].
      intros ins' -> e' d He' Hd. apply elem_of_cons in He' as [->|He'].
      + eapply holdsFor_mono; [exact K2|]. by eapply R1.
      + by eapply R2. }
  destruct (Hins _ _ _ _ _ _ _ (λ e He, ltac:(pose proof (vsize_inputs v e He); lia))
              Hmemo Hin) as (K1 & M1 & R1).
  destruct ri as [inputs|err].
  2:{ injection Hl as <- <- <-. split_and!; [done..|]. intros v'; discriminate. }
  destruct (loadVertex_holds _ _ _ _ _ _ _ _ _ _ Hl) as (K2 & Hok & Herr).
  split_and!; [by eapply jobsKept_trans| |].
  - intros u u' d Hu Hd. destruct r as [v'|e].
    + destruct (Hok v' eq_refl) as [Hv ->].
      apply elem_of_cons in Hu as [[= -> ->]|Hu].
      * rewrite digestsOf_unfold in Hd. apply elem_of_union in Hd as [Hd|Hd].
        -- apply elem_of_singleton in Hd as ->. done.
        -- apply elem_of_union_list in Hd as (X & HX & HdX).
           apply list_elem_of_fmap in HX as (e & -> & He).
           eapply holdsFor_mono; [exact K2|]. by eapply R1.
      * eapply holdsFor_mono; [exact K2|]. eauto.
    + rewrite (Herr e eq_refl) in Hu. eapply holdsFor_mono; [exact K2|]. eauto.
  - intros v' -> d Hd. destruct (Hok v' eq_refl) as [Hv _].
    rewrite digestsOf_unfold in Hd. apply elem_of_union in Hd as [Hd|Hd].
    + apply elem_of_singleton in Hd as ->. done.
    + apply elem_of_union_list in Hd as (X & HX & HdX).
      apply list_elem_of_fmap in HX as (e & -> & He).
      eapply holdsFor_mono; [exact K2|]. by eapply R1.
Qed.

(** A load for a job registers the job on the whole graph below the
    vertex: when [load] returns a vertex, every vertex reached from the
    loaded one through [Inputs()] has an active state, under its digest or
    under its ignore-cache digest, that the job holds.  And whether or not
    it fails, a load takes no state from the registry and no job from a
    state. *)
Theorem load_registers_job fuel v parent j σ r σ' :
  load fuel v parent (Some j) σ = Done (r, σ') →
  jobsKept σ σ' ∧
  (∀ v', r = inl v' → ∀ d, d ∈ digestsOf v → holdsFor σ' j d).
Proof.
  unfold load. intros Hl. obind_as Hl as [[r0 m0] σ0] Hu. injection Hl as <- <-.
  destruct (loadUnlocked_holds _ _ _ _ _ _ _ _ _
              (λ u u' d Hin, ltac:(by apply elem_of_nil in Hin)) Hu) as (K & _ & R).
  split; [done|]. simpl. exact R.
Qed.

End HoldingFacts.

(** Job 1 loads [demoT] into [twoBuilds], where job 3 holds it: afterwards
    job 1 holds the states of [demoT] and of its input [demoU]. *)
Lemma load_registers_job_witness :
  ∃ v' σ', load 5 demoT None (Some 1) twoBuilds = Done (inl v', σ') ∧
           holdsFor σ' 1 "u" ∧ holdsFor σ' 1 "t".
Proof.
  assert (∃ v' σ', load 5 demoT None (Some 1) twoBuilds = Done (inl v', σ'))
    as (v' & σ' & Hl) by (eexists _, _; vm_compute; reflexivity).
  exists v', σ'. split; [exact Hl|].
  eapply load_registers_job in Hl. destruct Hl as [_ R].
  split; [apply (R v' eq_refl "u")|apply (R v' eq_refl "t")]; vm_compute; reflexivity.
Defined.

End RegistryFacts.

(** ** The slow cache keys *)

Module SlowCacheFacts.
Import SharedOp SlowCache.

Section Facts.
Context `{SlowCollab}.

Lemma slowCompute_sc σ st index p f res ctx (m : SlowMachine) key err ctx1 m1 :
  slowCompute σ st index p f res ctx m = Done (inl (key, err, ctx1, m1)) →
  sc m1 = sc m.
Proof.
  unfold slowCompute. intros Hr. obind_as Hr as pre Hpre.
  assert (Hp : match pre with
               | inr _ => True
               | inl (_, _, _, m0) => sc m0 = sc m
               end).
  { destruct p as [p|]; [|by injection Hpre as <-].
    destruct (Registry.Vertex_Inputs (Registry.vtx st) !! index) as [e|]; [|discriminate].
    destruct (Registry.Solver_getState e σ) as [ist|]; [|by injection Hpre as <-].
    destruct (p _ _ _ _) as [[e0|] w]; by injection Hpre as <-. }
  destruct pre as [[[[err0 f'] ctx'] m0]|e]; [|discriminate].
  destruct f' as [f'|]; [|by injection Hr as _ _ _ <-].
  destruct (f' _ _ _ _) as [[k e] w]. by injection Hr as _ _ _ <-.
Qed.

(** What settling stores at [index], and that it touches no other
    position. *)
Lemma slowSettle_spec index key err ctx (m : SlowMachine) r m' :
  slowSettle index key err ctx m = (r, m') →
  (∀ i, i ≠ index → slowCacheRes (sc m') !! i = slowCacheRes (sc m) !! i ∧
                    slowCacheErr (sc m') !! i = slowCacheErr (sc m) !! i) ∧
  (if cancelled ctx (sworld m) err
   then sc m' = sc m ∧ r = (key, wrapCause ctx (sworld m) <$> err)
   else r = (key, err) ∧
        slowCacheErr (sc m') !! index = Some err ∧
        slowCacheRes (sc m') !! index
        = match err with None => Some key | Some _ => slowCacheRes (sc m) !! index end).
Proof.
  unfold slowSettle. destruct (cancelled ctx (sworld m) err) eqn:Hc.
  - intros [= <- <-]. destruct err; simpl; done.
  - intros [= <- <-]. simpl. split.
    + intros i Hi. rewrite lookup_insert_ne by done.
      destruct err; [done|]. by rewrite lookup_insert_ne.
    + rewrite lookup_insert_eq. destruct err; [done|]. by rewrite lookup_insert_eq.
Qed.

(** What the flight function leaves of the memo: a position that holds a
    key keeps it, and a position that holds an error and no key keeps
    that. *)
Lemma slowFlight_keeps σ st index p f res ctx (m m' : SlowMachine) r :
  slowFlight σ st index p f res ctx m = Done (r, m') →
  (∀ i k, slowCacheRes (sc m) !! i = Some k → slowCacheRes (sc m') !! i = Some k) ∧
  (∀ i e, slowCacheRes (sc m) !! i = None →
          slowCacheErr (sc m) !! i = Some (Some e) →
          slowCacheRes (sc m') !! i = None ∧ slowCacheErr (sc m') !! i = Some (Some e)).
Proof.
  unfold slowFlight.
  destruct (slowCacheRes (sc m) !! index) as [r0|] eqn:Hres; [by intros [= _ <-]|].
  destruct (slowCacheErr (sc m) !! index) as [[e|]|] eqn:He; [by intros [= _ <-]| |];
    (intros Hf'; obind_as Hf' as r0 Hr0;
     destruct r0 as [[[[key err] ctx1] m1]|e]; [|by injection Hf' as _ <-];
     pose proof (slowCompute_sc _ _ _ _ _ _ _ _ _ _ _ _ Hr0) as Hsc;
     injection Hf' as Hs; destruct (slowSettle_spec _ _ _ _ _ _ _ Hs) as [Hoth Hat];
     rewrite Hsc in Hoth; split;
     [intros i k Hi; destruct (decide (i = index)) as [->|Hni]; [congruence|];
      destruct (Hoth i Hni) as [-> _]; done
     |intros i e Hi Hie; destruct (decide (i = index)) as [->|Hni]; [congruence|];
      destruct (Hoth i Hni) as [-> ->]; done]).
Qed.

Lemma slowStep_keeps c (m m' : SlowMachine) :
  slowStep c m = Done m' →
  (∀ i k, slowCacheRes (sc m) !! i = Some k → slowCacheRes (sc m') !! i = Some k) ∧
  (∀ i e, slowCacheRes (sc m) !! i = None →
          slowCacheErr (sc m) !! i = Some (Some e) →
          slowCacheRes (sc m') !! i = None ∧ slowCacheErr (sc m') !! i = Some (Some e)).
Proof.
  unfold slowStep, sharedOp_CalcSlowCache, DoSlow. intros Hs.
  obind_as Hs as [r0 m0] Hc. injection Hs as <-.
  obind_as Hc as [[k e] m1] Hf.
  pose proof (slowFlight_keeps _ _ _ _ _ _ _ _ _ _ Hf) as Hk.
  destruct e; by injection Hc as _ <-.
Qed.

Lemma runSlow_keeps cs (m m' : SlowMachine) :
  runSlow cs m = Done m' →
  (∀ i k, slowCacheRes (sc m) !! i = Some k → slowCacheRes (sc m') !! i = Some k) ∧
  (∀ i e, slowCacheRes (sc m) !! i = None →
          slowCacheErr (sc m) !! i = Some (Some e) →
          slowCacheRes (sc m') !! i = None ∧ slowCacheErr (sc m') !! i = Some (Some e)).
Proof.
  revert m. induction cs as [|c cs IH]; simpl; intros m Hr.
  - by injection Hr as <-.
  - obind_as Hr as m1 Hs. destruct (slowStep_keeps _ _ _ Hs) as [A1 A2].
    destruct (IH _ Hr) as [B1 B2]. split.
    + eauto.
    + intros i e Hi He. destruct (A2 i e Hi He). eauto.
Qed.

(** A slow cache key is computed once: when [CalcSlowCache] has returned a
    key for [index] without error, every later call for [index] returns
    the same key, whatever calls came in between and whatever preprocess
    and cache functions, result, context, state and registry it is given;
    it changes nothing and calls neither function. *)
Theorem CalcSlowCache_memoised σ st ctx index p f res (m m1 : SlowMachine) key :
  sharedOp_CalcSlowCache σ st ctx index p f res m = Done ((key, None), m1) →
  ∀ cs m2, runSlow cs m1 = Done m2 →
    ∀ σ' st' ctx' p' f' res',
      sharedOp_CalcSlowCache σ' st' ctx' index p' f' res' m2 = Done ((key, None), m2).
Proof.
  intros Hc cs m2 Hr.
  assert (H1 : slowCacheRes (sc m1) !! index = Some key).
  { unfold sharedOp_CalcSlowCache, DoSlow in Hc. obind_as Hc as [[k e] m0] Hf.
    destruct e as [e|]; [discriminate|]. injection Hc as -> ->.
    unfold slowFlight in Hf.
    destruct (slowCacheRes (sc m) !! index) as [r0|] eqn:Hres; [by injection Hf as <- <-|].
    assert (Hf' : (do r0 <- slowCompute σ st index p f res ctx m;
                   match r0 with
                   | inr e => Done (""%string, Some e, m)
                   | inl (key, err, ctx, m) => Done (slowSettle index key err ctx m)
                   end) = Done (key, None, m1)).
    { destruct (slowCacheErr (sc m) !! index) as [[e|]|]; [discriminate|done|done]. }
    clear Hf. obind_as Hf' as r0 Hr0.
    destruct r0 as [[[[key' err] ctx1] m0]|e]; [|discriminate].
    injection Hf' as Hs. destruct (slowSettle_spec _ _ _ _ _ _ _ Hs) as [_ Hat].
    destruct (cancelled ctx1 (sworld m0) err) eqn:Hcan.
    - destruct Hat as [_ [= <- He]]. destruct err; [discriminate|]. discriminate.
    - destruct Hat as ([= <- <-] & _ & ->). done. }
  destruct (runSlow_keeps _ _ _ Hr) as [Hk _]. specialize (Hk _ _ H1).
  intros σ' st' ctx' p' f' res'.
  unfold sharedOp_CalcSlowCache, DoSlow, slowFlight. rewrite Hk. reflexivity.
Qed.

(** A failed slow cache key.  Take a [CalcSlowCache] call for an [index]
    that holds neither a key nor an error, in which the preprocess function
    or the cache function fails with [e].  No key is stored.  When [e] is a
    pure cancellation (the context is done and [e] carries the cancelled
    marker) it is released and nothing is memoised.  Any other error is
    memoised: whatever calls follow, every call for [index] returns that
    error, wrapped for its own result, and calls neither function. *)
Theorem CalcSlowCache_failure σ st ctx index p f res (m : SlowMachine) key e ctx1 m1 :
  slowCacheRes (sc m) !! index = None →
  (∀ e0, slowCacheErr (sc m) !! index ≠ Some (Some e0)) →
  slowCompute σ st index p f res ctx m = Done (inl (key, Some e, ctx1, m1)) →
  ∃ m2 r,
    sharedOp_CalcSlowCache σ st ctx index p f res m = Done ((""%string, Some r), m2) ∧
    slowCacheRes (sc m2) = slowCacheRes (sc m) ∧
    if ctxDone ctx1 (sworld m1) && IsCanceled ctx1 (sworld m1) e
    then
      r = wrapOpVertex (SlowCacheError (wrapCause ctx1 (sworld m1) e) index
                          (Clone (NewSharedResult res))) ∧
      slowCacheErr (sc m2) = slowCacheErr (sc m) ∧
      SvReleaseError e ∈ strace m2
    else
      r = wrapOpVertex (SlowCacheError e index (Clone (NewSharedResult res))) ∧
      slowCacheErr (sc m2) !! index = Some (Some e) ∧
      ∀ cs m3, runSlow cs m2 = Done m3 →
        ∀ σ' st' ctx' p' f' res',
          sharedOp_CalcSlowCache σ' st' ctx' index p' f' res' m3
          = Done ((""%string,
                   Some (wrapOpVertex (SlowCacheError e index
                                         (Clone (NewSharedResult res'))))),
                  semit (SvNotifyCompleted e) (semit SvNotifyStarted m3)).
Proof.
  intros Hres Hnoerr Hcomp.
  pose proof (slowCompute_sc _ _ _ _ _ _ _ _ _ _ _ _ Hcomp) as Hsc.
  assert (Hfl : slowFlight σ st index p f res ctx m
                = Done (slowSettle index key (Some e) ctx1 m1)).
  { unfold slowFlight. rewrite Hres.
    destruct (slowCacheErr (sc m) !! index) as [[e0|]|] eqn:He;
      [by destruct (Hnoerr e0)| |]; by rewrite Hcomp. }
  unfold sharedOp_CalcSlowCache, DoSlow. rewrite Hfl. unfold slowSettle. simpl.
  destruct (ctxDone ctx1 (sworld m1) && IsCanceled ctx1 (sworld m1) e) eqn:Hcan; simpl.
  - eexists _, _. split; [reflexivity|]. simpl.
    split_and!; [congruence|done|congruence|].
    rewrite !elem_of_app, !list_elem_of_singleton. auto.
  - eexists _, _. split; [reflexivity|]. simpl.
    split_and!; [congruence|done|by rewrite lookup_insert_eq|].
    intros cs m3 Hr σ' st' ctx' p' f' res'.
    destruct (runSlow_keeps _ _ _ Hr) as [_ Hk].
    destruct (Hk index e) as [K1 K2]; simpl; [congruence|by rewrite lookup_insert_eq|].
    unfold sharedOp_CalcSlowCache, DoSlow, slowFlight. rewrite K1, K2. reflexivity.
Qed.

(** The preprocess function comes first.  When it is given and the state
    of the input is missing, [CalcSlowCache] returns an error, calls
    neither function and memoises nothing; when it fails, the cache
    function is not called, whatever it is, and the error of the
    preprocess function is what [CalcSlowCache] goes on with, checked for
    cancellation against the context of the input's state. *)
Theorem CalcSlowCache_preprocess_first σ st ctx index pf f res (m : SlowMachine) inp :
  slowCacheRes (sc m) !! index = None →
  (∀ e0, slowCacheErr (sc m) !! index ≠ Some (Some e0)) →
  Registry.Vertex_Inputs (Registry.vtx st) !! index = Some inp →
  (Registry.Solver_getState inp σ = None →
     sharedOp_CalcSlowCache σ st ctx index (Some pf) f res m
     = Done ((""%string,
              Some (wrapOpVertex
                      (SlowCacheError
                         (stateError index (Registry.Vertex_Name (Registry.vtx st)))
                         index (Clone (NewSharedResult res))))),
             semit (SvNotifyCompleted
                      (stateError index (Registry.Vertex_Name (Registry.vtx st))))
               (semit SvNotifyStarted m))) ∧
  (∀ ist e w1,
     Registry.Solver_getState inp σ = Some ist →
     pf (inputCtx ctx ist) res ist (sworld m) = (Some e, w1) →
     slowCompute σ st index (Some pf) f res ctx m
     = Done (inl (""%string, Some e, inputCtx ctx ist,
                  semit (SvPreprocess index (Some e)) (ssetWorld w1 m)))).
Proof.
  intros Hres Hnoerr Hinp. split.
  - intros Hst. unfold sharedOp_CalcSlowCache, DoSlow, slowFlight. rewrite Hres.
    assert (Hc : slowCompute σ st index (Some pf) f res ctx m
                 = Done (inr (stateError index (Registry.Vertex_Name (Registry.vtx st)))))
      by (unfold slowCompute; by rewrite Hinp, Hst).
    destruct (slowCacheErr (sc m) !! index) as [[e0|]|] eqn:He;
      [by destruct (Hnoerr e0)| |]; by rewrite Hc.
  - intros ist e w1 Hst Hp. unfold slowCompute. rewrite Hinp, Hst, Hp. reflexivity.
Qed.

End Facts.

(** The cache function runs once: the second call for index 0, made with
    no functions at all, returns "k" again. *)
Lemma CalcSlowCache_memoised_witness :
  ∃ m1 : @SlowMachine demo,
    @sharedOp_CalcSlowCache demo demoSlow Registry.emptySolver demoState
      false 0 None (Some demoKey) 3 slowInitial
    = Done (("k"%string, None), m1) ∧
    @sharedOp_CalcSlowCache demo demoSlow Registry.emptySolver demoState
      true 0 None None 4 m1
    = Done (("k"%string, None), m1).
Proof.
  eexists. split; [vm_compute; reflexivity|].
  eapply (@CalcSlowCache_memoised demo demoSlow Registry.emptySolver demoState
            false 0 None (Some demoKey) 3 slowInitial) with (cs := []);
    [vm_compute; reflexivity|reflexivity].
Defined.

(** The cache function fails with error 5 under a context that is not
    done: the error is memoised, and a later call with a working cache
    function still gets it. *)
Lemma CalcSlowCache_failure_witness :
  ∃ (m2 : @SlowMachine demo) r,
    @sharedOp_CalcSlowCache demo demoSlow Registry.emptySolver demoState
      false 0 None (Some (demoKeyFails 5)) 3 slowInitial
    = Done ((""%string, Some r), m2) ∧
    @slowCacheErr demo (sc m2) !! 0 = Some (Some 5) ∧
    @sharedOp_CalcSlowCache demo demoSlow Registry.emptySolver demoState
      false 0 None (Some demoKey) 3 m2
    = Done ((""%string, Some 1305),
            semit (@SvNotifyCompleted demo 5) (semit (@SvNotifyStarted demo) m2)).
Proof.
  destruct (@CalcSlowCache_failure demo demoSlow Registry.emptySolver demoState
              false 0 None (Some (demoKeyFails 5)) 3 slowInitial ""%string 5 false
              {| sc := @newSlowCache demo; sworld := 1;
                 strace := [@SvCompute demo 0 (Some 5)] |})
    as (m2 & r & Hc & _ & Hif).
  - reflexivity.
  - intros e0 Hx. vm_compute in Hx. discriminate.
  - reflexivity.
  - simpl in Hif. destruct Hif as (_ & He & Hlater).
    exists m2, r. split; [exact Hc|]. split; [exact He|].
    exact (Hlater [] m2 eq_refl Registry.emptySolver demoState false None
             (Some demoKey) 3).
Defined.

(** A preprocess function is given for input 0 of [demoState].  In the
    empty registry the state of the input is missing and the call fails
    with error 40; in [twoBuilds] the preprocess function runs, fails with
    error 5, and the cache function is not called. *)
Lemma CalcSlowCache_preprocess_first_witness :
  @sharedOp_CalcSlowCache demo demoSlow Registry.emptySolver demoState
    false 0 (Some (demoPreFails 5)) (Some demoKey) 3 slowInitial
  = Done ((""%string, Some 1340),
          semit (@SvNotifyCompleted demo 40)
            (semit (@SvNotifyStarted demo) slowInitial)) ∧
  ∃ ist,
    @slowCompute demo demoSlow Registry.twoBuilds demoState 0
      (Some (demoPreFails 5)) (Some demoKey) 3 false slowInitial
    = Done (inl (""%string, Some 5, false,
                 semit (@SvPreprocess demo 0 (Some 5))
                   (@ssetWorld demo 1 slowInitial))) ∧
    Registry.Solver_getState (0, Registry.demoU) Registry.twoBuilds = Some ist.
Proof.
  assert (∃ ist, Registry.Solver_getState (0, Registry.demoU) Registry.twoBuilds
                 = Some ist) as [ist Hist]
    by (eexists; vm_compute; reflexivity).
  destruct (@CalcSlowCache_preprocess_first demo demoSlow Registry.emptySolver
              demoState false 0 (demoPreFails 5) (Some demoKey) 3 slowInitial
              (0, Registry.demoU)) as [H1 _].
  { reflexivity. }
  { intros e0 Hx. vm_compute in Hx. discriminate. }
  { reflexivity. }
  destruct (@CalcSlowCache_preprocess_first demo demoSlow Registry.twoBuilds
              demoState false 0 (demoPreFails 5) (Some demoKey) 3 slowInitial
              (0, Registry.demoU)) as [_ H2].
  { reflexivity. }
  { intros e0 Hx. vm_compute in Hx. discriminate. }
  { reflexivity. }
  split; [exact (H1 eq_refl)|].
  exists ist. split; [exact (H2 ist 5 1 Hist eq_refl)|exact Hist].
Defined.

End SlowCacheFacts.
